(** * ADOS: relationship discovery and query validation

    A shallow embedding of the two algorithmic modules of the repository,

    - [modules/knowledge_graph.py] (class [LivingKnowledgeGraph]), and
    - [modules/trust_layer.py]     (class [TrustLayer]),

    of the construction of the knowledge graph in [ados_main.py]
    ([ADOS.__init__]) and of the use the planner makes of it in
    [modules/intent_compiler.py] ([_planning_node]), together with the
    properties stated about them.

    Conventions of the embedding.

    - A Python [str] is a Rocq [string].  Case mapping, [\w], [\s] and [\b]
      are the ASCII ones; characters above 127 are left alone by [lower] and
      [upper] and are neither word nor space characters.  On a string of
      ASCII characters ([PyStr.isascii]) these are Python's; on other
      strings Python's classes are the wider Unicode ones, so a property
      that would not carry over to them is stated for ASCII strings.
    - A Python [float] is an IEEE 754 binary64 number, [spec_float] with
      precision 53 and maximal exponent 1024; [/] on two [int]s is the
      correctly rounded quotient.
    - A [dict] that is only looked up is a [gmap]; a [dict] whose iteration
      order is observed (the [dataframes] argument, the adjacency of the
      graph) is an association list in insertion order.
    - A [set] is a [gset].  Python leaves the iteration order of a set
      open (for strings it varies with the hash seed); where the code joins
      a set into a text (the suggestions of the file and column rules) the
      embedding lists the elements in the order of [elements], and the
      text of such a suggestion is to be read up to that order.
    - The mutable object [LivingKnowledgeGraph] is a record threaded through
      a state monad [KG]; every method that reads or writes its attributes
      lives in that monad.
    - [networkx] is modelled as far as the code uses it: [DiGraph.add_node],
      [DiGraph.add_edge], [number_of_edges], [to_undirected] and the
      unweighted [shortest_path] (a bidirectional breadth-first search). *)

From Stdlib Require Import ZArith String Ascii.
From Stdlib Require Import Floats.SpecFloat.
From stdpp Require Import base option gmap sets list strings pretty.

Set Warnings "-clear-no-such-hyp".

Local Open Scope string_scope.
Local Open Scope list_scope.
Local Open Scope nat_scope.

(* ===================================================================== *)
(** * Python strings                                                      *)
(* ===================================================================== *)

Module PyStr.

Definition code (c : ascii) : nat := nat_of_ascii c.

Definition between (lo hi : nat) (c : ascii) : bool :=
  (lo <=? code c)%nat && (code c <=? hi)%nat.

Definition is_upper (c : ascii) : bool := between 65 90 c.
Definition is_lower (c : ascii) : bool := between 97 122 c.
Definition is_digit (c : ascii) : bool := between 48 57 c.

(** [\w] *)
Definition is_word (c : ascii) : bool :=
  is_upper c || is_lower c || is_digit c || (code c =? 95)%nat.

(** [\s]: tab, newline, vertical tab, form feed, carriage return,
    the four separators 28..31 and the blank. *)
Definition is_space (c : ascii) : bool :=
  between 9 13 c || between 28 31 c || (code c =? 32)%nat.

Definition lower_char (c : ascii) : ascii :=
  if is_upper c then ascii_of_nat (code c + 32) else c.

Definition upper_char (c : ascii) : ascii :=
  if is_lower c then ascii_of_nat (code c - 32) else c.

Fixpoint map_chars (f : ascii -> ascii) (s : string) : string :=
  match s with
  | EmptyString => EmptyString
  | String c s' => String (f c) (map_chars f s')
  end.

(** [s.lower()], [s.upper()] *)
Definition lower (s : string) : string := map_chars lower_char s.
Definition upper (s : string) : string := map_chars upper_char s.

Fixpoint drop_while (p : ascii -> bool) (s : string) : string :=
  match s with
  | EmptyString => EmptyString
  | String c s' => if p c then drop_while p s' else s
  end.

Fixpoint take_while (p : ascii -> bool) (s : string) : string :=
  match s with
  | EmptyString => EmptyString
  | String c s' => if p c then String c (take_while p s') else EmptyString
  end.

(** [s.strip()] *)
Definition strip (s : string) : string :=
  String.rev (drop_while is_space (String.rev (drop_while is_space s))).

(** [needle in hay] *)
Fixpoint contains (needle hay : string) : bool :=
  String.prefix needle hay ||
  match hay with
  | EmptyString => false
  | String _ hay' => contains needle hay'
  end.

(** [s.count(c)] for a one-character [c] *)
Fixpoint count_char (c : ascii) (s : string) : nat :=
  match s with
  | EmptyString => 0
  | String d s' => (if Ascii.eqb c d then 1 else 0) + count_char c s'
  end.

(** [sep.join(l)] *)
Definition join (sep : string) (l : list string) : string :=
  String.concat sep l.

(** Truth value of a [str]: only the empty string is false. *)
Definition truthy (s : string) : bool :=
  match s with EmptyString => false | _ => true end.

(** ** [re.split(r'[_\s]+', s)]

    Maximal runs of separators cut the string; a separator run at either
    end leaves an empty string there, and the empty string splits into
    one empty token. *)

Definition is_sep (c : ascii) : bool := (code c =? 95)%nat || is_space c.

Fixpoint split_aux (cur : string) (in_sep : bool) (s : string) : list string :=
  match s with
  | EmptyString => [String.rev cur]
  | String c s' =>
      if is_sep c then
        if in_sep then split_aux EmptyString true s'
        else String.rev cur :: split_aux EmptyString true s'
      else split_aux (String c cur) false s'
  end.

Definition split_sep (s : string) : list string := split_aux EmptyString false s.

(** ** [re.search(r'\bKW\b', s, re.IGNORECASE)]

    [kw] is an upper-case keyword made of word characters, so [\b] before
    it asks for a non-word character (or the start) on the left, and [\b]
    after it for a non-word character (or the end) on the right. *)

Fixpoint prefix_ci (kw s : string) : option string :=
  match kw, s with
  | EmptyString, _ => Some s
  | String k kw', String c s' =>
      if Ascii.eqb k (upper_char c) then prefix_ci kw' s' else None
  | String _ _, EmptyString => None
  end.

Definition at_word_end (s : string) : bool :=
  match s with
  | EmptyString => true
  | String c _ => negb (is_word c)
  end.

Definition word_here (kw s : string) : bool :=
  match prefix_ci kw s with
  | Some rest => at_word_end rest
  | None => false
  end.

Fixpoint search_from (kw : string) (prev_word : bool) (s : string) : bool :=
  (negb prev_word && word_here kw s) ||
  match s with
  | EmptyString => false
  | String c s' => search_from kw (is_word c) s'
  end.

Definition search_word (kw s : string) : bool := search_from kw false s.

(** ** [re.findall(r'(\w+)\.(\w+)\s*=\s*(\w+)\.(\w+)', s)]

    Every quantifier of the pattern is followed by something its own
    characters cannot match (a dot after [\w+], [=] or a word character
    after [\s*]), so the greedy match is the only one: backtracking never
    finds another.  [match_join_at] matches at the head of [s] and gives
    the four groups and the unread rest. *)

Definition span_word (s : string) : option (string * string) :=
  match take_while is_word s with
  | EmptyString => None
  | w => Some (w, drop_while is_word s)
  end.

Definition expect (c : ascii) (s : string) : option string :=
  match s with
  | String d s' => if Ascii.eqb c d then Some s' else None
  | EmptyString => None
  end.

Definition match_join_at (s : string)
  : option ((string * string * string * string) * string) :=
  '(alias1, r1) ← span_word s;
  r2 ← expect "." r1;
  '(col1, r3) ← span_word r2;
  r4 ← expect "=" (drop_while is_space r3);
  '(alias2, r5) ← span_word (drop_while is_space r4);
  r6 ← expect "." r5;
  '(col2, r7) ← span_word r6;
  Some ((alias1, col1, alias2, col2), r7).

(** The scan is left to right and matches do not overlap: after a match
    the next [skip] characters belong to it and are passed over. *)
Fixpoint findall_from (skip : nat) (s : string)
  : list (string * string * string * string) :=
  match s with
  | EmptyString => []
  | String _ s' =>
      match skip with
      | S k => findall_from k s'
      | O =>
          match match_join_at s with
          | Some (groups, rest) =>
              groups :: findall_from (String.length s' - String.length rest) s'
          | None => findall_from 0 s'
          end
      end
  end.

Definition findall_join (s : string) : list (string * string * string * string) :=
  findall_from 0 s.

(** [s.isascii()] *)
Fixpoint isascii (s : string) : bool :=
  match s with
  | EmptyString => true
  | String c s' => (code c <? 128)%nat && isascii s'
  end.

End PyStr.

(* ===================================================================== *)
(** * Python floats                                                       *)
(* ===================================================================== *)

Module PyFloat.

Definition float : Type := spec_float.

Definition prec : Z := 53.
Definition emax : Z := 1024.

(** [float(n)] for a natural number *)
Definition of_nat (n : nat) : float := binary_normalize prec emax (Z.of_nat n) 0 false.

(** [a / b] on two [int]s: the correctly rounded quotient (of operands
    below [2^53], as the sizes of sets are) *)
Definition div_nat (a b : nat) : float := SFdiv prec emax (of_nat a) (of_nat b).

Definition ltb (x y : float) : bool := SFltb x y.
Definition gtb (x y : float) : bool := SFltb y x.

(** [min(x, y)]: the first argument unless the second is smaller *)
Definition min (x y : float) : float := if ltb y x then y else x.

(** The literals of the source *)
Definition zero : float := S754_zero false.                     (* 0.0  *)
Definition lit_0_1 : float := S754_finite false 7205759403792794 (-56).  (* 0.1  *)
Definition lit_0_9 : float := S754_finite false 8106479329266893 (-53).  (* 0.9  *)
Definition lit_0_95 : float := S754_finite false 8556839292003942 (-53). (* 0.95 *)

End PyFloat.

(* ===================================================================== *)
(** * Insertion-ordered dictionaries with string keys                     *)
(* ===================================================================== *)

Section Dict.
Context {V : Type}.

(** [d.get(k)] *)
Fixpoint dict_get (k : string) (d : list (string * V)) : option V :=
  match d with
  | [] => None
  | (k', v) :: d' => if decide (k = k') then Some v else dict_get k d'
  end.

(** [d[k] = v]: an existing key keeps its position, a new key goes last *)
Fixpoint dict_set (k : string) (v : V) (d : list (string * V)) : list (string * V) :=
  match d with
  | [] => [(k, v)]
  | (k', v') :: d' =>
      if decide (k = k') then (k, v) :: d' else (k', v') :: dict_set k v d'
  end.

(** [k in d] *)
Definition dict_has (k : string) (d : list (string * V)) : bool :=
  bool_decide (is_Some (dict_get k d)).

Definition keys (d : list (string * V)) : list string := d.*1.

End Dict.

(* ===================================================================== *)
(** * The part of networkx the code uses                                  *)
(* ===================================================================== *)

Inductive exn : Type :=
| NodeNotFound
| NetworkXNoPath
| KeyError
| IndexError.

(** What a call does: it returns, it raises, or the bounded model of one
    of its loops ran out of steps ([OutOfFuel]; shown below not to happen). *)
Inductive outcome (A : Type) : Type :=
| Ok (a : A)
| Raise (e : exn)
| OutOfFuel.
Arguments Ok {A} a.
Arguments Raise {A} e.
Arguments OutOfFuel {A}.

Definition obind {A B} (m : outcome A) (k : A -> outcome B) : outcome B :=
  match m with
  | Ok a => k a
  | Raise e => Raise e
  | OutOfFuel => OutOfFuel
  end.

Module Nx.

(** Attributes given to [add_node] by the scanner ([type], [columns],
    [shape]); a node created by [add_edge] has none. *)
Record NodeAttrs : Type := {
  na_type : string;
  na_columns : list string;
  na_shape : nat * nat;
}.

(** Attributes given to [add_edge] by [_add_edge_to_graph]. *)
Record EdgeAttrs : Type := {
  ea_source_column : string;
  ea_target_column : string;
  ea_type : string;
  ea_confidence : PyFloat.float;
}.

Definition adjacency : Type := list (string * list (string * EdgeAttrs)).

(** [adj[u][v] = d], creating [adj[u]] when it is missing *)
Definition adj_put (u v : string) (d : EdgeAttrs) (adj : adjacency) : adjacency :=
  match dict_get u adj with
  | Some nbrs => dict_set u (dict_set v d nbrs) adj
  | None => adj ++ [(u, [(v, d)])]
  end.

(** [nx.DiGraph]: the node dictionary and the successor dictionary
    ([_pred] mirrors [_succ] and is left out). *)
Record DiGraph : Type := {
  _node : list (string * option NodeAttrs);
  _succ : adjacency;
}.

Definition empty : DiGraph := {| _node := []; _succ := [] |}.

(** [G.add_node(n, **attr)]: a new node goes last, a known one has its
    attributes updated (the scanner gives all three each time) *)
Definition add_node (n : string) (attr : NodeAttrs) (G : DiGraph) : DiGraph :=
  if dict_has n (_succ G) then
    {| _node := dict_set n (Some attr) (_node G); _succ := _succ G |}
  else
    {| _node := _node G ++ [(n, Some attr)]; _succ := _succ G ++ [(n, [])] |}.

Definition ensure_node (n : string) (G : DiGraph) : DiGraph :=
  if dict_has n (_succ G) then G
  else {| _node := _node G ++ [(n, None)]; _succ := _succ G ++ [(n, [])] |}.

(** [G.add_edge(u, v, **attr)]: on a [DiGraph] an edge [u -> v] that is
    already there has its attributes updated; every call of the source
    gives all four attributes, so the update replaces them. *)
Definition add_edge (u v : string) (attr : EdgeAttrs) (G : DiGraph) : DiGraph :=
  let G1 := ensure_node u G in
  let G2 := ensure_node v G1 in
  {| _node := _node G2; _succ := adj_put u v attr (_succ G2) |}.

(** [G.edges(data=True)] *)
Definition edges (G : DiGraph) : list (string * string * EdgeAttrs) :=
  flat_map (λ '(u, nbrs), map (λ '(v, d), (u, v, d)) nbrs) (_succ G).

(** [G.number_of_edges()], [G.number_of_nodes()], [n in G] *)
Definition number_of_edges (G : DiGraph) : nat := length (edges G).
Definition number_of_nodes (G : DiGraph) : nat := length (_node G).
Definition has_node (G : DiGraph) (n : string) : bool := dict_has n (_node G).

(** [nx.Graph], as [to_undirected] builds it *)
Record Graph : Type := {
  g_node : list (string * option NodeAttrs);
  g_adj : adjacency;
}.

Definition und_add_edge (adj : adjacency) (e : string * string * EdgeAttrs) : adjacency :=
  let '(u, v, d) := e in adj_put v u d (adj_put u v d adj).

(** [G.to_undirected()]: the nodes first, then every directed edge in
    the order of [G.edges], each stored under both of its ends.  The ends
    of an edge of a [DiGraph] are nodes of it, so no node is created
    here. *)
Definition to_undirected (G : DiGraph) : Graph :=
  {| g_node := _node G;
     g_adj := fold_left und_add_edge (edges G) (map (λ '(n, _), (n, [])) (_node G)) |}.

Definition g_has_node (G : Graph) (n : string) : bool := dict_has n (g_node G).

(** ** Unweighted shortest path: bidirectional breadth-first search *)

(** The search trees [pred] and [succ]: each reached node with the node it
    was reached from ([None] at the root) *)
Abbreviation tree := (gmap string (option string)).

(** The loop over the neighbours [w] of [v]:
    [if w not in seen: fringe.append(w); seen[w] = v]
    [if w in other: return w] *)
Fixpoint scan_nbrs (v : string) (ws : list string) (seen other : tree)
    (fringe : list string) : tree * list string * option string :=
  match ws with
  | [] => (seen, fringe, None)
  | w :: ws' =>
      let '(seen', fringe') :=
        if decide (is_Some (seen !! w)) then (seen, fringe)
        else (<[w := Some v]> seen, fringe ++ [w]) in
      if decide (is_Some (other !! w)) then (seen', fringe', Some w)
      else scan_nbrs v ws' seen' other fringe'
  end.

(** The loop over the nodes [v] of the current level *)
Fixpoint expand_level (adj : adjacency) (level : list string) (seen other : tree)
    (fringe : list string) : outcome (tree * list string * option string) :=
  match level with
  | [] => Ok (seen, fringe, None)
  | v :: level' =>
      match dict_get v adj with
      | None => Raise KeyError
      | Some nbrs =>
          let '(seen', fringe', found) := scan_nbrs v (keys nbrs) seen other fringe in
          match found with
          | Some w => Ok (seen', fringe', Some w)
          | None => expand_level adj level' seen' other fringe'
          end
      end
  end.

(** [while forward_fringe and reverse_fringe: ...] followed by
    [raise NetworkXNoPath] *)
Fixpoint search_loop (fuel : nat) (adj : adjacency) (pred succ : tree)
    (forward_fringe reverse_fringe : list string) : outcome (tree * tree * string) :=
  match forward_fringe, reverse_fringe with
  | [], _ | _, [] => Raise NetworkXNoPath
  | _, _ =>
      match fuel with
      | O => OutOfFuel
      | S fuel' =>
          if decide (length forward_fringe ≤ length reverse_fringe)%nat then
            obind (expand_level adj forward_fringe pred succ [])
              (λ '(pred', fringe', found),
                 match found with
                 | Some w => Ok (pred', succ, w)
                 | None => search_loop fuel' adj pred' succ fringe' reverse_fringe
                 end)
          else
            obind (expand_level adj reverse_fringe succ pred [])
              (λ '(succ', fringe', found),
                 match found with
                 | Some w => Ok (pred, succ', w)
                 | None => search_loop fuel' adj pred succ' forward_fringe fringe'
                 end)
      end
  end.

(** Every name that occurs as a neighbour *)
Definition nbr_names (adj : adjacency) : gset string :=
  list_to_set (flat_map (λ '(_, nbrs), keys nbrs) adj).

(** Each round of the loop that goes on puts a new neighbour name into
    [pred] or into [succ], so this many rounds are enough. *)
Definition search_fuel (adj : adjacency) : nat := 2 * size (nbr_names adj) + 1.

Definition _bidirectional_pred_succ (G : Graph) (source target : string)
  : outcome (tree * tree * string) :=
  if decide (target = source) then
    Ok ({[target := None]}, {[source := None]}, source)
  else
    search_loop (search_fuel (g_adj G)) (g_adj G)
      {[source := None]} {[target := None]} [source] [target].

(** [while w is not None: path.append(w); w = m[w]] *)
Fixpoint follow (fuel : nat) (m : tree) (w : option string) : outcome (list string) :=
  match w with
  | None => Ok []
  | Some x =>
      match fuel with
      | O => OutOfFuel
      | S fuel' =>
          match m !! x with
          | None => Raise KeyError
          | Some next => obind (follow fuel' m next) (λ rest, Ok (x :: rest))
          end
      end
  end.

Definition bidirectional_shortest_path (G : Graph) (source target : string)
  : outcome (list string) :=
  if negb (g_has_node G source) then Raise NodeNotFound
  else if negb (g_has_node G target) then Raise NodeNotFound
  else
    obind (_bidirectional_pred_succ G source target) (λ '(pred, succ, w),
    obind (follow (size pred) pred (Some w)) (λ to_source,
      let path := reverse to_source in
      match last path with
      | None => Raise IndexError
      | Some x =>
          match succ !! x with
          | None => Raise KeyError
          | Some next =>
              obind (follow (size succ) succ next) (λ rest, Ok (path ++ rest))
          end
      end)).

(** [nx.shortest_path(G, source, target)] with no weight *)
Definition shortest_path (G : Graph) (source target : string) : outcome (list string) :=
  bidirectional_shortest_path G source target.

End Nx.

(* ===================================================================== *)
(** * Tabular data                                                        *)
(* ===================================================================== *)

(** A non-null cell.  Equality is Python's [==] on hashable values. *)
Inductive Value : Type :=
| VInt (z : Z)
| VStr (s : string).

Global Instance Value_eq_dec : EqDecision Value.
Proof. solve_decision. Defined.

Global Instance Value_countable : Countable Value.
Proof.
  refine (inj_countable'
            (λ v, match v with VInt z => inl z | VStr s => inr s end)
            (λ x, match x with inl z => VInt z | inr s => VStr s end) _).
  intros []; reflexivity.
Defined.

(** [pd.Series]: the declared type of a column and its cells, [None] for a
    null *)
Record Series : Type := {
  s_dtype : string;
  s_values : list (option Value);
}.

(** [pd.DataFrame]: the columns in order, each with its label *)
Definition DataFrame : Type := list (string * Series).

(** [df.columns] and [df[col]] (the loops only ask for labels of [df]) *)
Definition df_columns (df : DataFrame) : list string := keys df.
Definition df_getitem (df : DataFrame) (col : string) : Series :=
  default {| s_dtype := "object"; s_values := [] |} (dict_get col df).

(** [len(df)]: the columns of a frame have the same number of cells *)
Definition df_len (df : DataFrame) : nat :=
  match df with
  | [] => 0
  | (_, s) :: _ => length (s_values s)
  end.

(** [series.dropna()] as a list of values *)
Definition dropna (s : Series) : list Value := omap id (s_values s).

(** [set(series.dropna().unique())] *)
Definition distinct_values (s : Series) : gset Value := list_to_set (dropna s).

(* ===================================================================== *)
(** * modules/knowledge_graph.py                                          *)
(* ===================================================================== *)

Record ColumnMetadata : Type := {
  cm_file : string;
  cm_column : string;
  dtype : string;
  sample_values : list Value;
  is_id : bool;
  cardinality : nat;
}.

Record Relationship : Type := {
  source_file : string;
  source_column : string;
  target_file : string;
  target_column : string;
  relationship_type : string;
  confidence : PyFloat.float;
}.

(** The attributes of [self] *)
Record LivingKnowledgeGraph : Type := {
  graph : Nx.DiGraph;
  metadata : gmap string (gmap string ColumnMetadata);
  relationships : list Relationship;
}.

(** [LivingKnowledgeGraph.__init__] *)
Definition init : LivingKnowledgeGraph :=
  {| graph := Nx.empty; metadata := ∅; relationships := [] |}.

(** ** The state monad over the knowledge graph *)

Definition KG (A : Type) : Type := LivingKnowledgeGraph → A * LivingKnowledgeGraph.

Global Instance KG_ret : MRet KG := λ A a self, (a, self).
Global Instance KG_bind : MBind KG :=
  λ A B k m self, let '(a, self') := m self in k a self'.

Definition gets {A} (f : LivingKnowledgeGraph → A) : KG A := λ self, (f self, self).
Definition modify (f : LivingKnowledgeGraph → LivingKnowledgeGraph) : KG unit :=
  λ self, (tt, f self).

Definition eval {A} (m : KG A) (self : LivingKnowledgeGraph) : A := (m self).1.
Definition exec {A} (m : KG A) (self : LivingKnowledgeGraph) : LivingKnowledgeGraph :=
  (m self).2.

(** [for x in l: body(x)] *)
Fixpoint for_each {A} (l : list A) (body : A → KG unit) : KG unit :=
  match l with
  | [] => mret tt
  | x :: l' => _ ← body x; for_each l' body
  end.

(** [enumerate(l)] *)
Definition enumerate {A} (l : list A) : list (nat * A) := imap (λ i x, (i, x)) l.

Definition set_graph (G : Nx.DiGraph) (self : LivingKnowledgeGraph) :=
  {| graph := G; metadata := metadata self; relationships := relationships self |}.
Definition set_relationships (l : list Relationship) (self : LivingKnowledgeGraph) :=
  {| graph := graph self; metadata := metadata self; relationships := l |}.

(** ** The methods *)

(** [re.match(r'.*LIT.*', s)]: the dot matches no newline and the match need
    not reach the end, so [LIT] has to stand in the first line of [s]. *)
Definition first_line (s : string) : string :=
  PyStr.take_while (λ c, negb (Ascii.eqb c "010")) s.

Definition _is_id_column (column_name : string) : bool :=
  let name := PyStr.lower column_name in
  PyStr.contains "id" (first_line name) ||          (* .*[_]?id[_]?.*  *)
  PyStr.contains "key" (first_line name) ||         (* .*[_]?key[_]?.* *)
  PyStr.contains "identifier" (first_line name) ||  (* .*identifier.*  *)
  String.prefix "pk_" name ||                       (* pk_.*           *)
  String.prefix "fk_" name.                         (* fk_.*           *)

Definition set_metadata (md : gmap string (gmap string ColumnMetadata))
    (self : LivingKnowledgeGraph) :=
  {| graph := graph self; metadata := md; relationships := relationships self |}.

Definition column_metadata (file_name col : string) (s : Series) : ColumnMetadata :=
  {| cm_file := file_name;
     cm_column := col;
     dtype := s_dtype s;
     sample_values := take 100 (dropna s);
     is_id := _is_id_column col;
     cardinality := size (distinct_values s) |}.

(** [scan_data_products], given what the directory holds: the stem of each
    Parquet file with the frame [pd.read_parquet] loads from it, in the
    order of the listing. *)
Definition scan_data_products (parquet_files : list (string * DataFrame))
  : KG (list (string * DataFrame)) :=
  foldl (λ (done : KG (list (string * DataFrame))) '(file_name, df),
      dataframes ← done;
      let dataframes := dict_set file_name df dataframes in
      _ ← modify (λ self, set_metadata (<[file_name := ∅]> (metadata self)) self);
      _ ← for_each (df_columns df) (λ col,
            modify (λ self,
              set_metadata
                (<[file_name :=
                     <[col := column_metadata file_name col (df_getitem df col)]>
                       (default ∅ (metadata self !! file_name))]>
                   (metadata self))
                self));
      _ ← modify (λ self,
            set_graph
              (Nx.add_node file_name
                 {| Nx.na_type := "data_product";
                    Nx.na_columns := df_columns df;
                    Nx.na_shape := (df_len df, length (df_columns df)) |}
                 (graph self))
              self);
      mret dataframes)
    (mret []) parquet_files.

Definition significant_keywords : gset string :=
  {[ "id"; "key"; "client"; "produit"; "product"; "customer"; "transaction" ]}.

Definition _is_potential_join_key (col1 col2 : string) : bool :=
  let parts1 : gset string := list_to_set (PyStr.split_sep (PyStr.lower col1)) in
  let parts2 : gset string := list_to_set (PyStr.split_sep (PyStr.lower col2)) in
  let common := parts1 ∩ parts2 in
  bool_decide (0 < size (common ∩ significant_keywords))%nat.

Definition _calculate_value_overlap (series1 series2 : Series) : PyFloat.float :=
  let set1 := distinct_values series1 in
  let set2 := distinct_values series2 in
  if decide (set1 = ∅ ∨ set2 = ∅) then PyFloat.zero
  else
    let intersection := size (set1 ∩ set2) in
    let union := size (set1 ∪ set2) in
    if decide (0 < union)%nat then PyFloat.div_nat intersection union else PyFloat.zero.

Definition _add_edge_to_graph (rel : Relationship) : KG unit :=
  modify (λ self,
    set_graph
      (Nx.add_edge (source_file rel) (target_file rel)
         {| Nx.ea_source_column := source_column rel;
            Nx.ea_target_column := target_column rel;
            Nx.ea_type := relationship_type rel;
            Nx.ea_confidence := confidence rel |}
         (graph self))
      self).

(** [self.relationships.append(rel); self._add_edge_to_graph(rel)] *)
Definition record_relationship (rel : Relationship) : KG unit :=
  _ ← modify (λ self, set_relationships (relationships self ++ [rel]) self);
  _add_edge_to_graph rel.

(** The body of the two inner loops, for one pair of columns *)
Definition compare_columns (file1 file2 : string) (df1 df2 : DataFrame)
    (col1 col2 : string) : KG unit :=
  if decide (col1 = col2) then
    record_relationship
      {| source_file := file1; source_column := col1;
         target_file := file2; target_column := col2;
         relationship_type := "exact_name_match";
         confidence := PyFloat.lit_0_9 |}
  else if _is_potential_join_key col1 col2 then
    let overlap := _calculate_value_overlap (df_getitem df1 col1) (df_getitem df2 col2) in
    if PyFloat.gtb overlap PyFloat.lit_0_1 then
      record_relationship
        {| source_file := file1; source_column := col1;
           target_file := file2; target_column := col2;
           relationship_type := "join_key";
           confidence := PyFloat.min overlap PyFloat.lit_0_95 |}
    else mret tt
  else mret tt.

(** [dataframes[file]] for a key of [dataframes] *)
Definition frame_of (dataframes : list (string * DataFrame)) (file : string) : DataFrame :=
  default [] (dict_get file dataframes).

Definition discover_relationships (dataframes : list (string * DataFrame))
  : KG (list Relationship) :=
  _ ← modify (set_relationships []);
  let files := keys dataframes in
  _ ← for_each (enumerate files) (λ '(i, file1),
        for_each (drop (S i) files) (λ file2,
          let df1 := frame_of dataframes file1 in
          let df2 := frame_of dataframes file2 in
          for_each (df_columns df1) (λ col1,
            for_each (df_columns df2) (λ col2,
              compare_columns file1 file2 df1 df2 col1 col2))));
  gets relationships.

(** [get_join_path]: [NetworkXNoPath] is the one exception that is caught *)
Definition get_join_path (file1 file2 : string) : KG (outcome (option (list string))) :=
  G ← gets graph;
  mret (match Nx.shortest_path (Nx.to_undirected G) file1 file2 with
        | Ok path => Ok (Some path)
        | Raise NetworkXNoPath => Ok None
        | Raise e => Raise e
        | OutOfFuel => OutOfFuel
        end).

(** The test of the inner loop of [get_join_columns_for_path]: [rel] goes
    from one of the two files to the other *)
Definition links (file1 file2 : string) (rel : Relationship) : bool :=
  bool_decide (source_file rel = file1 ∧ target_file rel = file2) ||
  bool_decide (source_file rel = file2 ∧ target_file rel = file1).

(** [get_join_columns_for_path]: for each [i] in [range(len(path) - 1)] the
    first relationship of [self.relationships] between [path[i]] and
    [path[i+1]] ([break]); a step without one adds nothing *)
Definition get_join_columns_for_path (path : list string)
  : KG (list (string * string * string * string)) :=
  rels ← gets relationships;
  mret (flat_map (λ i,
          match path !! i, path !! S i with
          | Some file1, Some file2 =>
              match List.find (links file1 file2) rels with
              | Some rel =>
                  [(source_file rel, source_column rel,
                    target_file rel, target_column rel)]
              | None => []
              end
          | _, _ => []
          end)
        (seq 0 (length path - 1))).

(* ===================================================================== *)
(** * modules/trust_layer.py                                              *)
(* ===================================================================== *)

Inductive ValidationSeverity : Type :=
| CRITICAL
| WARNING
| INFO.

Global Instance ValidationSeverity_eq_dec : EqDecision ValidationSeverity.
Proof. solve_decision. Defined.

Record ValidationIssue : Type := {
  severity : ValidationSeverity;
  rule : string;
  message : string;
  suggestion : option string;
}.

(** [issues = []; for x in l: issues.extend(body(x))] *)
Fixpoint for_collect {A B} (l : list A) (body : A → KG (list B)) : KG (list B) :=
  match l with
  | [] => mret []
  | x :: l' => here ← body x; rest ← for_collect l' body; mret (here ++ rest)
  end.

(** The external judge: it is given the query and the joined file names
    and answers with a text, or the call fails ([None]: the exception that
    the source catches). *)
Definition Judge : Type := string → string → option string.

Definition is_critical (issue : ValidationIssue) : bool :=
  bool_decide (severity issue = CRITICAL).

Section TrustLayer.

(** [self.llm]; [self.kg] is the state of the monad *)
Variable llm : option Judge.

Definition _validate_file_existence (required_files : list string)
  : KG (list ValidationIssue) :=
  md ← gets metadata;
  let available_files : gset string := dom md in
  mret (flat_map (λ file,
          if decide (file ∈ available_files) then []
          else [ {| severity := CRITICAL;
                    rule := "file_existence";
                    message := "Fichier '" +:+ file +:+ "' introuvable";
                    suggestion := Some ("Fichiers disponibles: " +:+
                                        PyStr.join ", " (elements available_files)) |} ])
          required_files).

Definition missing_column_issue (file col : string) (available_columns : gset string)
  : ValidationIssue :=
  {| severity := CRITICAL;
     rule := "column_existence";
     message := "Colonne '" +:+ col +:+ "' introuvable dans '" +:+ file +:+ "'";
     suggestion := Some ("Colonnes disponibles: " +:+
                         PyStr.join ", " (elements available_columns)) |}.

Definition _validate_column_existence (required_columns : list (string * list string))
  : KG (list ValidationIssue) :=
  for_collect required_columns (λ '(file, columns),
    md ← gets metadata;
    match md !! file with
    | None => mret []        (* continue *)
    | Some cols =>
        let available_columns : gset string := dom cols in
        mret (flat_map (λ col,
                if decide (col ∈ available_columns) then []
                else [missing_column_issue file col available_columns])
                columns)
    end).

Definition _validate_sql_syntax (sql_query : string) : list ValidationIssue :=
  (if PyStr.search_word "SELECT" sql_query then []
   else [ {| severity := CRITICAL; rule := "sql_syntax";
             message := "Requête SQL invalide: SELECT manquant";
             suggestion := None |} ])
  ++
  (if PyStr.search_word "FROM" sql_query then []
   else [ {| severity := CRITICAL; rule := "sql_syntax";
             message := "Requête SQL invalide: FROM manquant";
             suggestion := None |} ])
  ++
  (let single_quotes := PyStr.count_char "'" sql_query in
   if decide (single_quotes mod 2 ≠ 0)%nat then
     [ {| severity := WARNING; rule := "sql_syntax";
          message := "Guillemets simples non appariés détectés";
          suggestion := None |} ]
   else []).

Definition _resolve_alias_to_file (alias : string) (files : list string) : option string :=
  List.find (λ file,
    PyStr.contains (PyStr.lower alias) (PyStr.lower file) ||
    PyStr.contains (PyStr.lower file) (PyStr.lower alias)) files.

Definition _get_column_type (file column : string) : KG (option string) :=
  md ← gets metadata;
  mret (cols ← md !! file; meta ← cols !! column; Some (dtype meta)).

Definition numeric_types : gset string :=
  {[ "int64"; "int32"; "float64"; "float32"; "int"; "float" ]}.
Definition string_types : gset string :=
  {[ "object"; "string"; "str" ]}.

Definition _are_types_compatible (type1 type2 : string) : bool :=
  let type1 := PyStr.lower type1 in
  let type2 := PyStr.lower type2 in
  if decide (type1 = type2) then true
  else if decide (type1 ∈ numeric_types ∧ type2 ∈ numeric_types) then true
  else if decide (type1 ∈ string_types ∧ type2 ∈ string_types) then true
  else false.

(** Truth value of an [Optional[str]] *)
Definition opt_truthy (o : option string) : bool :=
  match o with Some s => PyStr.truthy s | None => false end.

Definition incompatible_join_issue (file1 col1 type1 file2 col2 type2 : string)
  : ValidationIssue :=
  {| severity := CRITICAL;
     rule := "type_compatibility";
     message := "Jointure incompatible: " +:+ file1 +:+ "." +:+ col1 +:+ " (" +:+ type1
                +:+ ") avec " +:+ file2 +:+ "." +:+ col2 +:+ " (" +:+ type2 +:+ ")";
     suggestion := Some "Convertir l'un des types avec CAST()" |}.

(** The body of the loop over the matches of the join pattern *)
Definition check_join (required_files : list string)
    (m : string * string * string * string) : KG (list ValidationIssue) :=
  let '(alias1, col1, alias2, col2) := m in
  let file1 := _resolve_alias_to_file alias1 required_files in
  let file2 := _resolve_alias_to_file alias2 required_files in
  match file1, file2 with
  | Some f1, Some f2 =>
      if PyStr.truthy f1 && PyStr.truthy f2 then
        type1 ← _get_column_type f1 col1;
        type2 ← _get_column_type f2 col2;
        match type1, type2 with
        | Some t1, Some t2 =>
            if PyStr.truthy t1 && PyStr.truthy t2 && negb (_are_types_compatible t1 t2)
            then mret [incompatible_join_issue f1 col1 t1 f2 col2 t2]
            else mret []
        | _, _ => mret []
        end
      else mret []
  | _, _ => mret []
  end.

Definition _validate_join_type_compatibility (sql_query : string)
    (required_files : list string) : KG (list ValidationIssue) :=
  let matches := PyStr.findall_join sql_query in
  for_collect matches (check_join required_files).

Definition dangerous_keywords : list (string * string) :=
  [ ("DROP", "DROP détecté - opération destructrice");
    ("DELETE", "DELETE détecté - modification de données");
    ("UPDATE", "UPDATE détecté - modification de données");
    ("TRUNCATE", "TRUNCATE détecté - opération destructrice");
    ("INSERT", "INSERT détecté - modification de données") ].

Definition _validate_sql_safety (sql_query : string) : list ValidationIssue :=
  flat_map (λ '(keyword, msg),
    if PyStr.search_word keyword sql_query then
      [ {| severity := CRITICAL; rule := "sql_safety"; message := msg;
           suggestion :=
             Some "Seules les requêtes en lecture seule (SELECT) sont autorisées" |} ]
    else [])
    dangerous_keywords.

Definition _validate_semantic_coherence (sql_query : string)
    (required_files : list string) : list ValidationIssue :=
  match llm with
  | None => []
  | Some judge =>
      match judge sql_query (PyStr.join ", " required_files) with
      | None => []           (* except Exception: only logged *)
      | Some content =>
          let response_text := PyStr.strip content in
          if decide (PyStr.upper response_text ≠ "OK") then
            [ {| severity := WARNING; rule := "semantic_coherence";
                 message := "Judge Agent: " +:+ response_text;
                 suggestion := None |} ]
          else []
      end
  end.

Definition validate_execution_plan (sql_query : string) (required_files : list string)
    (required_columns : list (string * list string))
  : KG (bool * list ValidationIssue) :=
  let issues : list ValidationIssue := [] in
  found ← _validate_file_existence required_files;
  let issues := issues ++ found in
  found ← _validate_column_existence required_columns;
  let issues := issues ++ found in
  let issues := issues ++ _validate_sql_syntax sql_query in
  found ← _validate_join_type_compatibility sql_query required_files;
  let issues := issues ++ found in
  let issues := issues ++ _validate_sql_safety sql_query in
  let issues :=
    match llm with
    | Some _ => issues ++ _validate_semantic_coherence sql_query required_files
    | None => issues
    end in
  let has_critical := existsb is_critical issues in
  let validation_passed := negb has_critical in
  mret (validation_passed, issues).

End TrustLayer.

(** The character [\n] *)
Definition newline : string := String "010" EmptyString.

(** What the loops of [generate_audit_report] append for one issue *)
Definition issue_line (issue : ValidationIssue) : string :=
  "   [" +:+ rule issue +:+ "] " +:+ message issue.

Definition suggestion_lines (issue : ValidationIssue) : list string :=
  match suggestion issue with
  | Some text => if PyStr.truthy text then ["      Suggestion: " +:+ text] else []
  | None => []
  end.

(** The list [report] at the end of [generate_audit_report] *)
Definition audit_report_lines (issues : list ValidationIssue) : list string :=
  let report := ["=== TRUST LAYER - AUDIT REPORT ===" +:+ newline] in
  let critical := filter (λ i, severity i = CRITICAL) issues in
  let warnings := filter (λ i, severity i = WARNING) issues in
  let infos := filter (λ i, severity i = INFO) issues in
  let report := report ++ ["🚨 Erreurs critiques: " +:+ pretty (length critical)] in
  let report := report ++ ["⚠️  Avertissements: " +:+ pretty (length warnings)] in
  let report := report ++ ["ℹ️  Informations: " +:+ pretty (length infos) +:+ newline] in
  let report :=
    match critical with
    | [] => report
    | _ =>
        report ++ [newline +:+ "🚨 ERREURS CRITIQUES:"] ++
        flat_map (λ issue, issue_line issue :: suggestion_lines issue) critical
    end in
  let report :=
    match warnings with
    | [] => report
    | _ =>
        report ++ [newline +:+ "⚠️  AVERTISSEMENTS:"] ++
        flat_map (λ issue, issue_line issue :: suggestion_lines issue) warnings
    end in
  let report :=
    match infos with
    | [] => report
    | _ =>
        report ++ [newline +:+ "ℹ️  INFORMATIONS:"] ++
        flat_map (λ issue, [issue_line issue]) infos
    end in
  report.

(** [generate_audit_report] *)
Definition generate_audit_report (issues : list ValidationIssue) : string :=
  PyStr.join newline (audit_report_lines issues).

(* ===================================================================== *)
(** * ados_main.py                                                        *)
(* ===================================================================== *)

(** [ADOS.__init__], the construction of the knowledge graph:
    [self.dataframes = self.knowledge_graph.scan_data_products()] and
    [self.knowledge_graph.discover_relationships(self.dataframes)], on the
    object [LivingKnowledgeGraph(...)] has just made (the state [init]). *)
Definition build_knowledge_graph (parquet_files : list (string * DataFrame))
  : KG (list (string * DataFrame)) :=
  dataframes ← scan_data_products parquet_files;
  _ ← discover_relationships dataframes;
  mret dataframes.

(* ===================================================================== *)
(** * modules/intent_compiler.py                                          *)
(* ===================================================================== *)

(** [_planning_node], from [files = discovery.required_files] to the
    prompt: the computation of [join_path_info], the one part of the node
    that consults the knowledge graph.  No [try] stands around it, so what
    [get_join_path] raises leaves the node. *)
Definition join_path_info (files : list string)
  : KG (outcome (list (string * string * string * string))) :=
  if decide (1 < length files) then
    match head files, last files with
    | Some first, Some final =>          (* [files[0]], [files[-1]] *)
        found ← get_join_path first final;
        match found with
        | Ok (Some ((_ :: _) as path)) =>  (* [if path:] *)
            join_columns ← get_join_columns_for_path path;
            mret (Ok join_columns)
        | Ok _ => mret (Ok [])
        | Raise e => mret (Raise e)
        | OutOfFuel => mret OutOfFuel
        end
    | _, _ => mret (Raise IndexError)
    end
  else mret (Ok []).

(* ===================================================================== *)
(** * What the properties are stated with                                 *)
(* ===================================================================== *)

(** An edge between [u] and [v], in either direction *)
Definition adjacent (G : Nx.DiGraph) (u v : string) : Prop :=
  ∃ d, (u, v, d) ∈ Nx.edges G ∨ (v, u, d) ∈ Nx.edges G.

(** [u] and [v] lie in the same connected component of the undirected view *)
Definition connected (G : Nx.DiGraph) : relation string := rtc (adjacent G).

(** [l] lists the nodes of a walk from [a] to [b] along [R] *)
Inductive walk (R : relation string) : string → string → list string → Prop :=
| walk_end a : walk R a a [a]
| walk_step a x b l : R a x → walk R x b l → walk R a b (a :: l).

(** [l] is what following the parents in the search tree [m] from [x] to the
    root writes down *)
Inductive tree_path (m : gmap string (option string)) : string → list string → Prop :=
| tree_path_root x : m !! x = Some None → tree_path m x [x]
| tree_path_step x v l :
    m !! x = Some (Some v) → tree_path m v l → tree_path m x (x :: l).

(** [w] is listed among the neighbours of [v] *)
Definition nbr (adj : Nx.adjacency) (v w : string) : Prop :=
  ∃ nbrs, dict_get v adj = Some nbrs ∧ w ∈ keys nbrs.

(** What one pass over a list of neighbours, or over a level, has done:
    [new] are the names it has put into [seen], each under a parent taken
    from [parents]. *)
Definition grown (parent_of : string → string → Prop)
    (seen seen' : gmap string (option string)) (fringe fringe' : list string) : Prop :=
  ∃ new : list string,
    fringe' = fringe ++ new ∧
    dom seen' = dom seen ∪ list_to_set new ∧
    (∀ x, x ∈ new → (x ∉ dom seen) ∧ (∃ v, parent_of v x)) ∧
    (∀ x p, seen !! x = Some p → seen' !! x = Some p) ∧
    (∀ x p, seen' !! x = Some p →
            seen !! x = Some p ∨ ((x ∉ dom seen) ∧ (∃ v, p = Some v ∧ parent_of v x))).

(** The names not yet reached from either side *)
Definition unseen (adj : Nx.adjacency) (pred succ : gmap string (option string))
  : nat :=
  size (Nx.nbr_names adj ∖ dom pred) + size (Nx.nbr_names adj ∖ dom succ).

(** Every node of the search tree [seen] has its way back to [root]: the
    parents lead there in at most [size seen] steps, along edges. *)
Definition side_tree (adj : Nx.adjacency) (root : string)
    (seen : gmap string (option string)) : Prop :=
  ∀ x, x ∈ dom seen →
    ∃ l, tree_path seen x l ∧ length l ≤ size seen ∧ walk (nbr adj) x root l.

(** One side of the search: [seen] is a tree rooted at [root], the fringe
    is part of it, and every node of it outside the fringe has all its
    neighbours in. *)
Definition side_inv (adj : Nx.adjacency) (root : string)
    (seen : gmap string (option string)) (fringe : list string) : Prop :=
  root ∈ dom seen ∧
  side_tree adj root seen ∧
  (∀ v, v ∈ fringe → v ∈ keys adj ∧ v ∈ dom seen) ∧
  (∀ v, v ∈ dom seen → v ∈ fringe ∨ ∀ w, nbr adj v w → w ∈ dom seen).

(** What [compare_columns] adds to [self.relationships] for one pair of
    columns: nothing or one relationship *)
Definition pair_relationships (file1 file2 : string) (df1 df2 : DataFrame)
    (col1 col2 : string) : list Relationship :=
  relationships (exec (compare_columns file1 file2 df1 df2 col1 col2) init).

(** The pairs [(l[i], l[j])] with [i < j], in the order of the two outer loops *)
Fixpoint ordered_pairs {A} (l : list A) : list (A * A) :=
  match l with
  | [] => []
  | x :: l' => map (pair x) l' ++ ordered_pairs l'
  end.

(** The four names a relationship connects *)
Definition endpoints (rel : Relationship) : string * string * string * string :=
  (source_file rel, source_column rel, target_file rel, target_column rel).

(** The relationships found between the columns of two datasets *)
Definition dataset_pair_relationships (dataframes : list (string * DataFrame))
    (file1 file2 : string) : list Relationship :=
  let df1 := frame_of dataframes file1 in
  let df2 := frame_of dataframes file2 in
  flat_map (λ col1,
    flat_map (λ col2, pair_relationships file1 file2 df1 df2 col1 col2) (df_columns df2))
    (df_columns df1).

(** The two names have a significant keyword among their tokens, the tokens
    being the pieces between underscores and blanks of the lower-cased name *)
Definition shares_keyword (col1 col2 : string) : Prop :=
  ∃ kw, kw ∈ significant_keywords ∧
        kw ∈ PyStr.split_sep (PyStr.lower col1) ∧
        kw ∈ PyStr.split_sep (PyStr.lower col2).

(** The Jaccard overlap of two sets of values, [0.0] when one is empty *)
Definition jaccard (A B : gset Value) : PyFloat.float :=
  if decide (A = ∅ ∨ B = ∅) then PyFloat.zero
  else PyFloat.div_nat (size (A ∩ B)) (size (A ∪ B)).

Definition exact_name_match (file1 col1 file2 col2 : string) : Relationship :=
  {| source_file := file1; source_column := col1;
     target_file := file2; target_column := col2;
     relationship_type := "exact_name_match";
     confidence := PyFloat.lit_0_9 |}.

Definition join_key (file1 col1 file2 col2 : string) (overlap : PyFloat.float)
  : Relationship :=
  {| source_file := file1; source_column := col1;
     target_file := file2; target_column := col2;
     relationship_type := "join_key";
     confidence := PyFloat.min overlap PyFloat.lit_0_95 |}.

(** [m] leaves [self.relationships] longer by [out] *)
Definition appends (m : KG unit) (out : list Relationship) : Prop :=
  ∀ self, relationships (exec m self) = relationships self ++ out.

(** [m] only reads the knowledge graph *)
Definition reads {A} (m : KG A) : Prop := ∀ self, exec m self = self.

(** The issues of the six rules, in the order of the rules *)
Definition issues_in_rule_order (llm : option Judge) (q : string) (files : list string)
    (cols : list (string * list string)) (self : LivingKnowledgeGraph)
  : list ValidationIssue :=
  eval (_validate_file_existence files) self ++
  eval (_validate_column_existence cols) self ++
  _validate_sql_syntax q ++
  eval (_validate_join_type_compatibility q files) self ++
  _validate_sql_safety q ++
  match llm with
  | Some _ => _validate_semantic_coherence llm q files
  | None => []
  end.

(** A directed edge from [u] to [v] *)
Definition has_edge (G : Nx.DiGraph) (u v : string) : Prop :=
  ∃ d, (u, v, d) ∈ Nx.edges G.

(** The edge is stored under [u], and [v] has its own entry in [_succ] *)
Definition present (G : Nx.DiGraph) (u v : string) : Prop :=
  nbr (Nx._succ G) u v ∧ v ∈ keys (Nx._succ G).

(** What [_add_edge_to_graph] does to the graph for one relationship *)
Definition edge_attrs (rel : Relationship) : Nx.EdgeAttrs :=
  {| Nx.ea_source_column := source_column rel;
     Nx.ea_target_column := target_column rel;
     Nx.ea_type := relationship_type rel;
     Nx.ea_confidence := confidence rel |}.

Definition add_relationship_edge (G : Nx.DiGraph) (rel : Relationship) : Nx.DiGraph :=
  Nx.add_edge (source_file rel) (target_file rel) (edge_attrs rel) G.

(** [m] adds the edges of [out] to the graph, in that order, and leaves
    the metadata alone *)
Definition records (m : KG unit) (out : list Relationship) : Prop :=
  ∀ self,
    graph (exec m self) = foldl add_relationship_edge (graph self) out ∧
    metadata (exec m self) = metadata self.

(** The two datasets a relationship connects *)
Definition file_pair (rel : Relationship) : string * string :=
  (source_file rel, target_file rel).

(** Some relationship of [rels] connects [u] and [v], in either direction *)
Definition related (rels : list Relationship) (u v : string) : Prop :=
  ∃ rel, rel ∈ rels ∧ links u v rel = true.

(** The relationship read from the other end *)
Definition flip (rel : Relationship) : Relationship :=
  {| source_file := target_file rel; source_column := target_column rel;
     target_file := source_file rel; target_column := source_column rel;
     relationship_type := relationship_type rel;
     confidence := confidence rel |}.

(** The consecutive pairs of a path *)
Definition steps (path : list string) : list (string * string) :=
  zip path (tail path).

(** What the scan stores for one frame: the entry of [self.metadata] and
    the attributes of the node *)
Definition frame_metadata (file_name : string) (df : DataFrame)
  : gmap string ColumnMetadata :=
  foldl (λ cols col, <[col := column_metadata file_name col (df_getitem df col)]> cols)
        ∅ (df_columns df).

Definition node_attrs (df : DataFrame) : Nx.NodeAttrs :=
  {| Nx.na_type := "data_product";
     Nx.na_columns := df_columns df;
     Nx.na_shape := (df_len df, length (df_columns df)) |}.

(** Every declared type of the metadata is a string of ASCII characters,
    as the names of the pandas dtypes are *)
Definition ascii_dtypes (self : LivingKnowledgeGraph) : Prop :=
  map_Forall (λ _ cols,
    map_Forall (λ _ meta, PyStr.isascii (dtype meta) = true) cols)
    (metadata self).

(** [x] is at most [k] steps away from [root] *)
Fixpoint within (adj : Nx.adjacency) (root : string) (k : nat) (x : string) : Prop :=
  match k with
  | O => x = root
  | S k' => within adj root k' x ∨ ∃ y, within adj root k' y ∧ nbr adj y x
  end.

(** No node of the search tree [seen] is deeper than [k] *)
Definition depth_le (seen : gmap string (option string)) (k : nat) : Prop :=
  ∀ x l, tree_path seen x l → length l ≤ S k.

(** The search tree [seen] holds every node within [k] steps of [root] *)
Definition covers (adj : Nx.adjacency) (root : string)
    (seen : gmap string (option string)) (k : nat) : Prop :=
  ∀ x, within adj root k x → x ∈ dom seen.

(** * A small data mesh, used to run the code on *)
Module Example.

Definition ints (l : list Z) : Series :=
  {| s_dtype := "int64"; s_values := map (λ z, Some (VInt z)) l |}.

Definition texts (l : list (option string)) : Series :=
  {| s_dtype := "object"; s_values := map (fmap VStr) l |}.

Definition customers : DataFrame :=
  [ ("id", ints [1; 2; 3]%Z);
    ("name", texts [Some "ann"; Some "bob"; None]) ].

Definition orders : DataFrame :=
  [ ("customer_id", ints [1; 2; 3; 4; 5; 1]%Z);
    ("amount", {| s_dtype := "float64";
                  s_values := map (λ z, Some (VInt z)) [10; 20; 10; 30; 20; 10]%Z |});
    ("name", texts [Some "first"; Some "second"; None; None; None; None]) ].

Definition products : DataFrame :=
  [ ("sku", ints [7; 8]%Z);
    ("flag", {| s_dtype := "bool"; s_values := [None; None] |}) ].

(** The Parquet files of the directory, loaded *)
Definition parquet_files : list (string * DataFrame) :=
  [ ("customers", customers); ("orders", orders); ("products", products) ].

(** What [scan_data_products] returns for them ... *)
Definition dataframes : list (string * DataFrame) :=
  eval (scan_data_products parquet_files) init.

(** ... the knowledge graph after the scan ... *)
Definition scanned : LivingKnowledgeGraph :=
  exec (scan_data_products parquet_files) init.

(** ... and after the discovery *)
Definition discovered : LivingKnowledgeGraph :=
  exec (discover_relationships dataframes) scanned.

End Example.

(* ===================================================================== *)
(** * Facts about the literals                                            *)
(* ===================================================================== *)

Lemma lit_0_1_rounds : PyFloat.div_nat 1 10 = PyFloat.lit_0_1.
Proof. vm_compute. reflexivity. Qed.

Lemma lit_0_9_rounds : PyFloat.div_nat 9 10 = PyFloat.lit_0_9.
Proof. vm_compute. reflexivity. Qed.

Lemma lit_0_95_rounds : PyFloat.div_nat 95 100 = PyFloat.lit_0_95.
Proof. vm_compute. reflexivity. Qed.

(* ===================================================================== *)
(** * Facts about ordered dictionaries                                    *)
(* ===================================================================== *)

Section DictFacts.
Context {V : Type}.
Implicit Types (d : list (string * V)) (k : string) (v : V).

Lemma dict_get_set k k' v d :
  dict_get k (dict_set k' v d) = if decide (k = k') then Some v else dict_get k d.
Proof.
  induction d as [|[k0 v0] d IH]; simpl.
  - repeat case_decide; congruence.
  - destruct (decide (k' = k0)) as [->|Hne]; simpl.
    + repeat case_decide; congruence.
    + rewrite IH. repeat case_decide; congruence.
Qed.

Lemma dict_get_app k d1 d2 :
  dict_get k (d1 ++ d2) =
  match dict_get k d1 with Some v => Some v | None => dict_get k d2 end.
Proof.
  induction d1 as [|[k0 v0] d1 IH]; simpl; [done|].
  case_decide; [done|apply IH].
Qed.

Lemma dict_get_is_Some k d : is_Some (dict_get k d) ↔ k ∈ keys d.
Proof.
  unfold keys. induction d as [|[k0 v0] d IH]; simpl.
  - split; [intros [? ?]; discriminate|intros H; inversion H].
  - rewrite elem_of_cons. destruct (decide (k = k0)) as [->|Hne].
    + split; eauto.
    + rewrite IH. split; [auto|intros [?|?]; [congruence|done]].
Qed.

Lemma dict_get_None k d : dict_get k d = None ↔ k ∉ keys d.
Proof. rewrite <- dict_get_is_Some, eq_None_not_Some. done. Qed.

Lemma dict_has_true k d : dict_has k d = true ↔ k ∈ keys d.
Proof. unfold dict_has. rewrite bool_decide_eq_true. apply dict_get_is_Some. Qed.

Lemma dict_has_false k d : dict_has k d = false ↔ k ∉ keys d.
Proof. rewrite <- dict_has_true. destruct (dict_has k d); naive_solver. Qed.

Lemma keys_dict_set k v d x : x ∈ keys (dict_set k v d) ↔ x = k ∨ x ∈ keys d.
Proof.
  rewrite <- !dict_get_is_Some, dict_get_set.
  destruct (decide (x = k)) as [->|Hne]; [split; eauto|].
  split; [auto|intros [?|?]; [congruence|done]].
Qed.

Lemma dict_get_elem_of k v d : dict_get k d = Some v → (k, v) ∈ d.
Proof.
  induction d as [|[k0 v0] d IH]; simpl; [done|].
  destruct (decide (k = k0)) as [->|Hne].
  - intros [= ->]. left.
  - intros Hget. right. auto.
Qed.

Lemma dict_get_NoDup k v d : NoDup (keys d) → (k, v) ∈ d → dict_get k d = Some v.
Proof.
  unfold keys. induction d as [|[k0 v0] d IH]; simpl.
  - intros _ H. inversion H.
  - rewrite NoDup_cons, elem_of_cons. intros [Hk Hd] [[= -> ->]|Hin].
    + by rewrite decide_True.
    + rewrite decide_False; [auto|].
      intros ->. apply Hk. apply list_elem_of_fmap. by exists (k0, v).
Qed.

End DictFacts.

(* ===================================================================== *)
(** * The undirected view                                                 *)
(* ===================================================================== *)

Section Walks.
Context (R : relation string).

Lemma walk_rtc a b l : walk R a b l → rtc R a b.
Proof.
  induction 1 as [a|a x b l Hax Hwalk IH]; [apply rtc_refl|].
  by apply rtc_l with x.
Qed.

Lemma walk_snoc a x y l : walk R a x l → R x y → walk R a y (l ++ [y]).
Proof.
  induction 1 as [a|a x' b l Hax Hwalk IH]; intros Hxy; simpl.
  - apply walk_step with y; [done|constructor].
  - apply walk_step with x'; auto.
Qed.

Lemma walk_reverse `{!Symmetric R} a b l : walk R a b l → walk R b a (reverse l).
Proof.
  induction 1 as [a|a x b l Hax Hwalk IH]; [constructor|].
  rewrite reverse_cons. apply walk_snoc with x; [done|by symmetry].
Qed.

Lemma walk_app a w b l1 l2 :
  walk R a w l1 → walk R w b (w :: l2) → walk R a b (l1 ++ l2).
Proof.
  induction 1 as [a|a x w l Hax Hwalk IH]; intros Hwb; simpl; [done|].
  apply walk_step with x; auto.
Qed.

Lemma walk_head a b l : walk R a b l → ∃ l', l = a :: l'.
Proof. destruct 1; eauto. Qed.

Lemma walk_last a b l : walk R a b l → last l = Some b.
Proof.
  induction 1 as [a|a x b l Hax Hwalk IH]; [done|].
  destruct (walk_head _ _ _ Hwalk) as [l' ->]. by rewrite last_cons_cons.
Qed.

Lemma walk_subrel (R' : relation string) a b l :
  (∀ x y, R x y → R' x y) → walk R a b l → walk R' a b l.
Proof. intros HR. induction 1; econstructor; eauto. Qed.

End Walks.

Section UndirectedView.
Implicit Types (adj : Nx.adjacency) (G : Nx.DiGraph) (u v x y : string).

Lemma keys_adj_put u v d adj x :
  x ∈ keys (Nx.adj_put u v d adj) ↔ x = u ∨ x ∈ keys adj.
Proof.
  unfold Nx.adj_put. destruct (dict_get u adj) as [nbrs|] eqn:Hu.
  - rewrite keys_dict_set. done.
  - unfold keys. rewrite fmap_app, elem_of_app. simpl.
    rewrite list_elem_of_singleton. tauto.
Qed.

Lemma nbr_adj_put u v d adj x y :
  nbr (Nx.adj_put u v d adj) x y ↔ nbr adj x y ∨ (x = u ∧ y = v).
Proof.
  unfold nbr, Nx.adj_put. destruct (dict_get u adj) as [nbrs|] eqn:Hu.
  - setoid_rewrite dict_get_set. destruct (decide (x = u)) as [->|Hne].
    + split.
      * intros (? & [= <-] & Hy). apply keys_dict_set in Hy as [->|Hy]; eauto.
      * intros [(? & Hget & Hy)|[_ ->]].
        -- rewrite Hu in Hget. injection Hget as <-.
           eexists; split; [done|]. apply keys_dict_set. auto.
        -- eexists; split; [done|]. apply keys_dict_set. auto.
    + split; [auto|]. intros [?|[? _]]; [done|congruence].
  - setoid_rewrite dict_get_app. destruct (decide (x = u)) as [->|Hne].
    + rewrite Hu. simpl. rewrite decide_True by done. split.
      * intros (? & [= <-] & Hy). right. split; [done|].
        unfold keys in Hy. simpl in Hy. by apply list_elem_of_singleton in Hy.
      * intros [(? & [=] & _)|[_ ->]].
        eexists; split; [done|]. unfold keys; simpl. left.
    + simpl. rewrite decide_False by done.
      split.
      * intros (nbrs & Hget & Hy). left. exists nbrs. split; [|done].
        destruct (dict_get x adj); done.
      * intros [(nbrs & Hget & Hy)|[? _]]; [|congruence].
        exists nbrs. by rewrite Hget.
Qed.

Lemma nbr_fold_und_add_edge es adj x y :
  nbr (fold_left Nx.und_add_edge es adj) x y ↔
  nbr adj x y ∨ ∃ d, (x, y, d) ∈ es ∨ (y, x, d) ∈ es.
Proof.
  revert adj. induction es as [|[[u v] d] es IH]; intros adj; simpl.
  - split; [auto|]. intros [?|(? & [H|H])]; [done|inversion H..].
  - rewrite IH.
    change (Nx.und_add_edge adj (u, v, d))
      with (Nx.adj_put v u d (Nx.adj_put u v d adj)).
    rewrite !nbr_adj_put.
    setoid_rewrite elem_of_cons. split.
    + intros [[[?|[-> ->]]|[-> ->]]|(d' & [?|?])]; eauto 6.
    + intros [?|(d' & [[[= -> -> ->]|?]|[[= -> -> ->]|?]])]; eauto 6.
Qed.

Lemma keys_fold_und_add_edge es adj x :
  x ∈ keys adj → x ∈ keys (fold_left Nx.und_add_edge es adj).
Proof.
  revert adj. induction es as [|[[u v] d] es IH]; intros adj Hx; simpl; [done|].
  apply IH. unfold Nx.und_add_edge. rewrite !keys_adj_put. auto.
Qed.

Lemma nbr_closed_fold es adj :
  (∀ x y, nbr adj x y → y ∈ keys adj) →
  ∀ x y, nbr (fold_left Nx.und_add_edge es adj) x y →
         y ∈ keys (fold_left Nx.und_add_edge es adj).
Proof.
  revert adj. induction es as [|[[u v] d] es IH]; intros adj Hadj; simpl; [done|].
  apply IH. intros x y. unfold Nx.und_add_edge.
  rewrite !nbr_adj_put, !keys_adj_put.
  intros [[?|[-> ->]]|[-> ->]]; eauto.
Qed.

Lemma nbr_no_edges (nodes : list (string * option Nx.NodeAttrs)) x y :
  ¬ nbr (map (λ '(n, _), (n, [])) nodes) x y.
Proof.
  intros (nbrs & Hget & Hy). apply dict_get_elem_of in Hget.
  apply list_elem_of_fmap in Hget as ([n a] & [= -> ->] & _). inversion Hy.
Qed.

(** The neighbours in the undirected view are the ends of the directed
    edges, whichever way they point. *)
Lemma nbr_to_undirected G x y :
  nbr (Nx.g_adj (Nx.to_undirected G)) x y ↔ adjacent G x y.
Proof.
  unfold Nx.to_undirected, adjacent; simpl. rewrite nbr_fold_und_add_edge.
  split; [|auto]. intros [H|H]; [|done]. by apply nbr_no_edges in H.
Qed.

Lemma nbr_to_undirected_key G x y :
  nbr (Nx.g_adj (Nx.to_undirected G)) x y → y ∈ keys (Nx.g_adj (Nx.to_undirected G)).
Proof.
  apply nbr_closed_fold. intros x' y' H. by apply nbr_no_edges in H.
Qed.

Lemma node_to_undirected_key G x :
  Nx.g_has_node (Nx.to_undirected G) x = true →
  x ∈ keys (Nx.g_adj (Nx.to_undirected G)).
Proof.
  unfold Nx.g_has_node. rewrite dict_has_true. simpl. intros Hx.
  apply keys_fold_und_add_edge. unfold keys in *.
  apply list_elem_of_fmap in Hx as ([n a] & -> & Hin).
  apply list_elem_of_fmap. exists (n, []). split; [done|].
  apply list_elem_of_fmap. by exists (n, a).
Qed.

Lemma adjacent_sym G : Symmetric (adjacent G).
Proof. intros x y [d [H|H]]; exists d; auto. Qed.

Lemma connected_sym G : Symmetric (connected G).
Proof.
  pose proof (adjacent_sym G). apply (@rtc_equivalence _ (adjacent G) _).
Qed.

End UndirectedView.

(* ===================================================================== *)
(** * The bidirectional search                                            *)
(* ===================================================================== *)

Section Search.
Variable adj : Nx.adjacency.
Implicit Types (seen other pred succ : gmap string (option string)) (v w x : string).

Lemma grown_refl P seen fringe : grown P seen seen fringe fringe.
Proof.
  exists []. split; [by rewrite app_nil_r|]. split; [set_solver|].
  split; [|by auto]. intros x Hx. inversion Hx.
Qed.

Lemma grown_trans P seen1 seen2 seen3 f1 f2 f3 :
  grown P seen1 seen2 f1 f2 → grown P seen2 seen3 f2 f3 → grown P seen1 seen3 f1 f3.
Proof.
  intros (n1 & Hf1 & Hd1 & Hn1 & Ho1 & Hp1) (n2 & Hf2 & Hd2 & Hn2 & Ho2 & Hp2).
  exists (n1 ++ n2). repeat split.
  - by rewrite Hf2, Hf1, app_assoc.
  - rewrite Hd2, Hd1, list_to_set_app_L. set_solver.
  - apply elem_of_app in H as [Hx|Hx]; [by apply Hn1|].
    destruct (Hn2 x Hx) as [Hfresh Hpar]. rewrite Hd1 in Hfresh. set_solver.
  - apply elem_of_app in H as [Hx|Hx]; [by apply Hn1|by apply Hn2].
  - auto.
  - intros x p Hx. destruct (Hp2 x p Hx) as [Hx2|[Hfresh Hpar]]; [auto|].
    right. split; [|done]. rewrite Hd1 in Hfresh. set_solver.
Qed.

Lemma grown_weaken (P Q : string → string → Prop) seen seen' f f' :
  (∀ v x, P v x → Q v x) → grown P seen seen' f f' → grown Q seen seen' f f'.
Proof.
  intros HPQ (n & Hf & Hd & Hn & Ho & Hp). exists n.
  split; [done|]. split; [done|]. split; [|split; [done|]].
  - intros x Hx. destruct (Hn x Hx) as [? [v ?]]. eauto.
  - intros x p Hx. destruct (Hp x p Hx) as [?|[? (v & ? & ?)]]; eauto 6.
Qed.

Lemma scan_nbrs_spec v ws seen other fringe seen' fringe' found :
  Nx.scan_nbrs v ws seen other fringe = (seen', fringe', found) →
  grown (λ v' x, v' = v ∧ x ∈ ws) seen seen' fringe fringe' ∧
  match found with
  | Some w => w ∈ ws ∧ w ∈ dom seen' ∧ w ∈ dom other
  | None => ∀ w, w ∈ ws → w ∈ dom seen' ∧ w ∉ dom other
  end.
Proof.
  revert seen fringe. induction ws as [|w ws IH]; intros seen fringe; simpl.
  - intros [= <- <- <-]. split; [apply grown_refl|]. intros w Hw. inversion Hw.
  - assert (Hstep : ∀ s f,
      (if decide (is_Some (seen !! w)) then (seen, fringe)
       else (<[w:=Some v]> seen, fringe ++ [w])) = (s, f) →
      grown (λ v' x, v' = v ∧ x ∈ w :: ws) seen s fringe f ∧ w ∈ dom s).
    { intros s f. destruct (decide (is_Some (seen !! w))) as [Hin|Hout].
      - intros [= <- <-]. split; [apply grown_refl|by apply elem_of_dom].
      - intros [= <- <-].
        assert (w ∉ dom seen) as Hfresh by (by rewrite elem_of_dom).
        split; [|set_solver].
        exists [w]. split; [done|]. split; [rewrite dom_insert_L; set_solver|].
        split; [|split].
        + intros x ->%list_elem_of_singleton. split; [done|]. exists v. split; [done|left].
        + intros x p Hx. rewrite lookup_insert_ne; [done|].
          intros <-. apply Hout. eauto.
        + intros x p. rewrite lookup_insert. case_decide; subst.
          * intros [= <-]. right. split; [done|]. exists v. repeat split; left.
          * auto. }
    destruct (if decide (is_Some (seen !! w)) then _ else _) as [s f] eqn:Hsf.
    destruct (Hstep s f eq_refl) as [Hgrown Hw].
    destruct (decide (is_Some (other !! w))) as [Hfound|Hnot].
    + intros [= <- <- <-]. split; [done|]. split; [left|]. split; [done|].
      by apply elem_of_dom.
    + intros Hrec. destruct (IH _ _ Hrec) as [Hgrown' Hres]. split.
      * eapply grown_trans; [exact Hgrown|].
        eapply grown_weaken; [|exact Hgrown']. intros ? ? [-> ?]. split; [done|by right].
      * destruct found as [w'|].
        -- destruct Hres as (? & ? & ?). split; [by right|done].
        -- intros w' [->|Hin]%elem_of_cons; [|auto]. split.
           ++ destruct Hgrown' as (n & _ & Hd & _). rewrite Hd. set_solver.
           ++ by rewrite elem_of_dom.
Qed.

Lemma expand_level_spec level seen other fringe :
  (∀ v, v ∈ level → v ∈ keys adj) →
  ∃ seen' fringe' found,
    Nx.expand_level adj level seen other fringe = Ok (seen', fringe', found) ∧
    grown (λ v x, v ∈ level ∧ nbr adj v x) seen seen' fringe fringe' ∧
    match found with
    | Some w => w ∈ dom seen' ∧ w ∈ dom other
    | None => ∀ v w, v ∈ level → nbr adj v w → w ∈ dom seen' ∧ w ∉ dom other
    end.
Proof.
  revert seen fringe. induction level as [|v level IH]; intros seen fringe Hkeys; simpl.
  - do 3 eexists. split; [done|]. split; [apply grown_refl|].
    intros v w Hv. inversion Hv.
  - destruct (dict_get v adj) as [nbrs|] eqn:Hget.
    2:{ exfalso. apply dict_get_None in Hget. apply Hget, Hkeys. left. }
    destruct (Nx.scan_nbrs v (keys nbrs) seen other fringe) as [[s f] found] eqn:Hscan.
    apply scan_nbrs_spec in Hscan as [Hgrown Hres].
    assert (Hgrown1 : grown (λ v' x, v' ∈ v :: level ∧ nbr adj v' x) seen s fringe f).
    { eapply grown_weaken; [|exact Hgrown]. intros ? ? [-> ?]. split; [left|].
      by exists nbrs. }
    destruct found as [w|].
    + do 3 eexists. split; [done|]. split; [done|]. tauto.
    + destruct (IH s f) as (seen' & fringe' & found & -> & Hgrown' & Hres').
      { intros v' Hv'. apply Hkeys. by right. }
      do 3 eexists. split; [done|]. split.
      * eapply grown_trans; [exact Hgrown1|].
        eapply grown_weaken; [|exact Hgrown']. intros ? ? [? ?]. split; [by right|done].
      * destruct found as [w|]; [done|].
        intros v' w [->|Hin]%elem_of_cons Hnbr; [|eauto].
        destruct Hnbr as (nbrs' & Hget' & Hw). rewrite Hget in Hget'.
        injection Hget' as <-. destruct (Hres w Hw) as [Hs Ho]. split; [|done].
        destruct Hgrown' as (n & _ & Hd & _). rewrite Hd. set_solver.
Qed.

Hypothesis adj_closed : ∀ x y, nbr adj x y → y ∈ keys adj.
Hypothesis adj_sym : ∀ x y, nbr adj x y → nbr adj y x.

Lemma nbr_in_names v w : nbr adj v w → w ∈ Nx.nbr_names adj.
Proof.
  intros (nbrs & Hget & Hw). unfold Nx.nbr_names.
  apply elem_of_list_to_set, list_elem_of_In, in_flat_map.
  exists (v, nbrs). split; [|by apply list_elem_of_In].
  by apply list_elem_of_In, dict_get_elem_of.
Qed.

Lemma grown_unseen P seen seen' fringe' :
  (∀ v x, P v x → nbr adj v x) →
  grown P seen seen' [] fringe' → fringe' ≠ [] →
  size (Nx.nbr_names adj ∖ dom seen') < size (Nx.nbr_names adj ∖ dom seen).
Proof.
  intros HP (new & -> & Hd & Hfresh & _) Hne. simpl in Hne.
  destruct new as [|x new]; [done|].
  destruct (Hfresh x) as [Hx [v Hv]]; [left|].
  apply subset_size. rewrite Hd. apply HP, nbr_in_names in Hv. set_solver.
Qed.

Lemma tree_path_mono (m m' : gmap string (option string)) x l :
  (∀ y p, m !! y = Some p → m' !! y = Some p) → tree_path m x l → tree_path m' x l.
Proof. intros Hmono. induction 1; [apply tree_path_root|eapply tree_path_step]; eauto. Qed.

Lemma follow_tree_path fuel (m : gmap string (option string)) x l :
  tree_path m x l → length l ≤ fuel → Nx.follow fuel m (Some x) = Ok l.
Proof.
  intros Hpath. revert fuel.
  induction Hpath as [x Hx|x v l Hx Hpath IH]; intros [|fuel] Hlen; simpl in *; try lia.
  - rewrite Hx. by destruct fuel.
  - rewrite Hx, IH by lia. done.
Qed.

Lemma side_tree_grown root seen seen' (level fringe fringe' : list string) :
  side_tree adj root seen → (∀ v, v ∈ level → v ∈ dom seen) →
  grown (λ v x, v ∈ level ∧ nbr adj v x) seen seen' fringe fringe' →
  side_tree adj root seen'.
Proof.
  intros Htree Hlevel (new & _ & Hd & _ & Hold & Hparent) x Hx.
  assert (dom seen ⊆ dom seen') as Hsub by (rewrite Hd; set_solver).
  destruct (decide (x ∈ dom seen)) as [Hin|Hout].
  - destruct (Htree x Hin) as (l & Hpath & Hlen & Hwalk). exists l.
    split; [by eapply tree_path_mono|]. split; [|done].
    apply subseteq_size in Hsub. rewrite !size_dom in Hsub. lia.
  - pose proof Hx as [p Hp]%elem_of_dom.
    destruct (Hparent x p Hp) as [Hp'|[_ (v & -> & Hv & Hnbr)]].
    { exfalso. apply Hout, elem_of_dom. eauto. }
    destruct (Htree v (Hlevel v Hv)) as (l & Hpath & Hlen & Hwalk).
    exists (x :: l). split; [|split].
    + eapply tree_path_step; [done|]. by eapply tree_path_mono.
    + assert (dom seen ⊂ dom seen') as Hstrict by set_solver.
      apply subset_size in Hstrict. rewrite !size_dom in Hstrict. simpl. lia.
    + apply walk_step with v; [by apply adj_sym|done].
Qed.

Lemma side_inv_expand root seen seen' (level fringe' : list string) :
  side_inv adj root seen level →
  grown (λ v x, v ∈ level ∧ nbr adj v x) seen seen' [] fringe' →
  (∀ v w, v ∈ level → nbr adj v w → w ∈ dom seen') →
  side_inv adj root seen' fringe'.
Proof.
  intros (Hroot & Htree & Hfringe & Hclosed) Hgrown Hall.
  split; [|split; [|split]].
  - destruct Hgrown as (new & _ & Hd & _). rewrite Hd. set_solver.
  - eapply side_tree_grown; [done| |done]. intros v Hv. by apply Hfringe.
  - destruct Hgrown as (new & -> & Hd & Hfresh & _). simpl.
    intros v Hv. split.
    + destruct (Hfresh v Hv) as [_ (v' & _ & Hnbr)]. eauto.
    + rewrite Hd. set_solver.
  - destruct Hgrown as (new & -> & Hd & Hfresh & _). simpl.
    intros v. rewrite Hd at 1.
    intros [Hv|Hv%elem_of_list_to_set]%elem_of_union; [|by left].
    right. intros w Hw.
    destruct (Hclosed v Hv) as [Hlevel|Hin]; [eauto|].
    rewrite Hd. set_solver.
Qed.

Lemma side_inv_closed root seen x :
  side_inv adj root seen [] → rtc (nbr adj) root x → x ∈ dom seen.
Proof.
  intros (Hroot & _ & _ & Hclosed) Hrtc.
  apply (rtc_ind_r (R := nbr adj) (λ y, y ∈ dom seen) root);
    [done| |done].
  intros y z _ Hyz Hy. destruct (Hclosed _ Hy) as [Hin|Hall]; [inversion Hin|eauto].
Qed.

(** The loop ends.  When it ends with a meeting node, that node is in both
    search trees; when it ends with no path, there is none. *)
Lemma search_loop_spec fuel source target pred succ ff rf :
  side_inv adj source pred ff → side_inv adj target succ rf → dom pred ## dom succ →
  (ff ≠ [] → rf ≠ [] → unseen adj pred succ < fuel) →
  match Nx.search_loop fuel adj pred succ ff rf with
  | Ok (pred', succ', w) =>
      w ∈ dom pred' ∧ w ∈ dom succ' ∧
      side_tree adj source pred' ∧ side_tree adj target succ'
  | Raise NetworkXNoPath => ¬ rtc (nbr adj) source target
  | _ => False
  end.
Proof.
  assert (Hsym : Symmetric (rtc (nbr adj))).
  { assert (Symmetric (nbr adj)) by exact adj_sym. apply rtc_equivalence; done. }
  assert (Hstop_f : ∀ pred succ rf,
    side_inv adj source pred [] → side_inv adj target succ rf → dom pred ## dom succ →
    ¬ rtc (nbr adj) source target).
  { intros pred0 succ0 rf0 Hf Hr Hdisj Hst.
    pose proof (side_inv_closed _ _ _ Hf Hst). destruct Hr as (? & _). set_solver. }
  assert (Hstop_r : ∀ pred succ ff,
    side_inv adj source pred ff → side_inv adj target succ [] → dom pred ## dom succ →
    ¬ rtc (nbr adj) source target).
  { intros pred0 succ0 ff0 Hf Hr Hdisj Hst. symmetry in Hst.
    pose proof (side_inv_closed _ _ _ Hr Hst). destruct Hf as (? & _). set_solver. }
  revert pred succ ff rf.
  induction fuel as [|fuel IH]; intros pred succ ff rf Hf Hr Hdisj Hfuel.
  - destruct ff as [|v ff], rf as [|v' rf]; simpl; eauto.
    specialize (Hfuel ltac:(done) ltac:(done)). lia.
  - destruct ff as [|v ff]; [destruct rf; simpl; eauto|].
    destruct rf as [|v' rf]; [simpl; eauto|].
    specialize (Hfuel ltac:(done) ltac:(done)).
    cbn [Nx.search_loop].
    destruct (decide (length (v :: ff) ≤ length (v' :: rf))%nat) as [_|_].
    + destruct (expand_level_spec (v :: ff) pred succ [])
        as (pred' & ff' & found & -> & Hgrown & Hres).
      { intros x Hx. by apply Hf. }
      cbn [obind]. destruct found as [w|].
      * destruct Hres as [Hw1 Hw2]. split; [done|]. split; [done|]. split; [|apply Hr].
        eapply side_tree_grown; [apply Hf| |exact Hgrown]. intros x Hx. by apply Hf.
      * apply IH.
        -- eapply side_inv_expand; [exact Hf|exact Hgrown|]. intros; by eapply Hres.
        -- done.
        -- destruct Hgrown as (new & _ & Hd & Hfresh & _). rewrite Hd.
           apply disjoint_union_l. split; [done|].
           intros x Hx%elem_of_list_to_set Hx'.
           destruct (Hfresh x Hx) as [_ (y & Hy & Hnbr)].
           by destruct (Hres y x Hy Hnbr).
        -- intros Hne _. unfold unseen in *.
           assert (size (Nx.nbr_names adj ∖ dom pred') <
                   size (Nx.nbr_names adj ∖ dom pred)); [|lia].
           eapply grown_unseen; [|exact Hgrown|exact Hne]. by intros ? ? [_ ?].
    + destruct (expand_level_spec (v' :: rf) succ pred [])
        as (succ' & rf' & found & -> & Hgrown & Hres).
      { intros x Hx. by apply Hr. }
      cbn [obind]. destruct found as [w|].
      * destruct Hres as [Hw1 Hw2]. split; [done|]. split; [done|]. split; [apply Hf|].
        eapply side_tree_grown; [apply Hr| |exact Hgrown]. intros x Hx. by apply Hr.
      * apply IH.
        -- done.
        -- eapply side_inv_expand; [exact Hr|exact Hgrown|]. intros; by eapply Hres.
        -- destruct Hgrown as (new & _ & Hd & Hfresh & _). rewrite Hd.
           apply disjoint_union_r. split; [done|].
           intros x Hx' Hx%elem_of_list_to_set.
           destruct (Hfresh x Hx) as [_ (y & Hy & Hnbr)].
           by destruct (Hres y x Hy Hnbr).
        -- intros _ Hne. unfold unseen in *.
           assert (size (Nx.nbr_names adj ∖ dom succ') <
                   size (Nx.nbr_names adj ∖ dom succ)); [|lia].
           eapply grown_unseen; [|exact Hgrown|exact Hne]. by intros ? ? [_ ?].
Qed.

End Search.

Section JoinPath.
Implicit Types (G : Nx.DiGraph) (self : LivingKnowledgeGraph) (a b : string).

Lemma rtc_nbr_connected G a b :
  rtc (nbr (Nx.g_adj (Nx.to_undirected G))) a b ↔ connected G a b.
Proof.
  unfold connected.
  split; apply rtc_subrel; intros x y; apply nbr_to_undirected.
Qed.

Lemma unseen_bound adj (pred succ : gmap string (option string)) :
  unseen adj pred succ < Nx.search_fuel adj.
Proof.
  unfold unseen, Nx.search_fuel.
  assert (∀ X : gset string, size (Nx.nbr_names adj ∖ X) ≤ size (Nx.nbr_names adj))
    as Hle.
  { intros X. apply subseteq_size. set_solver. }
  pose proof (Hle (dom pred)). pose proof (Hle (dom succ)). lia.
Qed.

Lemma side_tree_start adj root : side_tree adj root {[root := None]}.
Proof.
  intros x Hx. rewrite dom_singleton_L in Hx. apply elem_of_singleton in Hx as ->.
  exists [root]. split; [|split].
  - apply tree_path_root, lookup_singleton_eq.
  - by rewrite map_size_singleton.
  - constructor.
Qed.

Lemma side_inv_start adj root :
  root ∈ keys adj → side_inv adj root {[root := None]} [root].
Proof.
  intros Hroot. split; [|split; [|split]].
  - rewrite dom_singleton_L. set_solver.
  - apply side_tree_start.
  - intros v ->%list_elem_of_singleton. rewrite dom_singleton_L. set_solver.
  - rewrite dom_singleton_L. intros v ->%elem_of_singleton. left. left.
Qed.

Lemma nbr_to_undirected_sym G x y :
  nbr (Nx.g_adj (Nx.to_undirected G)) x y → nbr (Nx.g_adj (Nx.to_undirected G)) y x.
Proof. rewrite !nbr_to_undirected. apply adjacent_sym. Qed.

(** The search between two nodes of the undirected view ends: with a
    meeting node that lies in both search trees, or with no path when the
    two are not connected. *)
Lemma _bidirectional_pred_succ_spec G a b :
  Nx.has_node G a = true → Nx.has_node G b = true →
  match Nx._bidirectional_pred_succ (Nx.to_undirected G) a b with
  | Ok (pred, succ, w) =>
      w ∈ dom pred ∧ w ∈ dom succ ∧
      side_tree (Nx.g_adj (Nx.to_undirected G)) a pred ∧
      side_tree (Nx.g_adj (Nx.to_undirected G)) b succ
  | Raise NetworkXNoPath => ¬ connected G a b
  | _ => False
  end.
Proof.
  intros Ha Hb. unfold Nx._bidirectional_pred_succ.
  destruct (decide (b = a)) as [->|Hab].
  { rewrite dom_singleton_L. repeat split; try set_solver; apply side_tree_start. }
  set (adj := Nx.g_adj (Nx.to_undirected G)).
  pose proof (search_loop_spec adj (nbr_to_undirected_key G) (nbr_to_undirected_sym G)
                (Nx.search_fuel adj) a b {[a := None]} {[b := None]} [a] [b]) as Hspec.
  assert (Hgoal :
    match Nx.search_loop (Nx.search_fuel adj) adj {[a := None]} {[b := None]} [a] [b] with
    | Ok (pred', succ', w) =>
        w ∈ dom pred' ∧ w ∈ dom succ' ∧ side_tree adj a pred' ∧ side_tree adj b succ'
    | Raise NetworkXNoPath => ¬ rtc (nbr adj) a b
    | _ => False
    end).
  { apply Hspec.
    - by apply side_inv_start, node_to_undirected_key.
    - by apply side_inv_start, node_to_undirected_key.
    - rewrite !dom_singleton_L. set_solver.
    - intros _ _. apply unseen_bound. }
  destruct (Nx.search_loop _ _ _ _ _ _) as [[[pred succ] w]|e|]; [done| |done].
  destruct e; try done. by rewrite <- rtc_nbr_connected.
Qed.

Lemma has_node_to_undirected G a :
  Nx.g_has_node (Nx.to_undirected G) a = Nx.has_node G a.
Proof. done. Qed.

(** [nx.shortest_path] on the undirected view, for two nodes of the graph:
    it returns a walk between them, or raises [NetworkXNoPath] when they
    are not connected; nothing else happens. *)
Lemma shortest_path_spec G a b :
  Nx.has_node G a = true → Nx.has_node G b = true →
  match Nx.shortest_path (Nx.to_undirected G) a b with
  | Ok path => walk (adjacent G) a b path
  | Raise NetworkXNoPath => ¬ connected G a b
  | _ => False
  end.
Proof.
  intros Ha Hb. unfold Nx.shortest_path, Nx.bidirectional_shortest_path.
  rewrite !has_node_to_undirected, Ha, Hb. simpl.
  pose proof (_bidirectional_pred_succ_spec G a b Ha Hb) as Hspec.
  destruct (Nx._bidirectional_pred_succ _ a b) as [[[pred succ] w]|e|];
    [|done|done].
  destruct Hspec as (Hw1 & Hw2 & Hpred & Hsucc). simpl.
  destruct (Hpred w Hw1) as (l1 & Hpath1 & Hlen1 & Hwalk1).
  destruct (Hsucc w Hw2) as (l2 & Hpath2 & Hlen2 & Hwalk2).
  rewrite (follow_tree_path _ _ _ _ Hpath1 Hlen1). simpl.
  assert (Symmetric (nbr (Nx.g_adj (Nx.to_undirected G)))) as Hsym
    by (intros x y; apply nbr_to_undirected_sym).
  apply walk_reverse in Hwalk1; [|done].
  rewrite (walk_last _ _ _ _ Hwalk1).
  assert (∀ l, walk (nbr (Nx.g_adj (Nx.to_undirected G))) a b l → walk (adjacent G) a b l)
    as Hview.
  { intros l. apply walk_subrel. intros x y. apply nbr_to_undirected. }
  inversion Hpath2 as [x Hx|x v l2' Hx Hpath2']; subst.
  - rewrite Hx. destruct (size succ); simpl; rewrite app_nil_r;
      inversion Hwalk2 as [|? ? ? ? ? Hrest]; subst; try (by apply Hview);
      inversion Hrest.
  - rewrite Hx. simpl in Hlen2.
    rewrite (follow_tree_path _ _ _ _ Hpath2') by lia. simpl.
    apply Hview. by eapply walk_app.
Qed.

Lemma shortest_path_self G a :
  Nx.has_node G a = true → Nx.shortest_path (Nx.to_undirected G) a a = Ok [a].
Proof.
  intros Ha. unfold Nx.shortest_path, Nx.bidirectional_shortest_path.
  rewrite has_node_to_undirected, Ha. simpl.
  unfold Nx._bidirectional_pred_succ. rewrite decide_True by done. simpl.
  rewrite map_size_singleton. simpl. rewrite lookup_singleton_eq. simpl.
  rewrite lookup_singleton_eq. done.
Qed.

Lemma shortest_path_missing_node G a b :
  Nx.has_node G a = false ∨ Nx.has_node G b = false →
  Nx.shortest_path (Nx.to_undirected G) a b = Raise NodeNotFound.
Proof.
  unfold Nx.shortest_path, Nx.bidirectional_shortest_path.
  rewrite !has_node_to_undirected. intros [->| ->]; simpl; [done|].
  by destruct (Nx.has_node G a).
Qed.

Lemma shortest_path_disconnected G a b :
  Nx.has_node G a = true → Nx.has_node G b = true → ¬ connected G a b →
  Nx.shortest_path (Nx.to_undirected G) a b = Raise NetworkXNoPath.
Proof.
  intros Ha Hb Hnot. pose proof (shortest_path_spec G a b Ha Hb) as Hspec.
  destruct (Nx.shortest_path _ a b) as [path|e|]; [|by destruct e|done].
  exfalso. apply Hnot. unfold connected. by eapply walk_rtc.
Qed.

Lemma shortest_path_no_path G a b :
  Nx.shortest_path (Nx.to_undirected G) a b = Raise NetworkXNoPath →
  Nx.has_node G a = true ∧ Nx.has_node G b = true ∧ ¬ connected G a b.
Proof.
  intros Hraise.
  destruct (Nx.has_node G a) eqn:Ha; last first.
  { rewrite shortest_path_missing_node in Hraise by auto. done. }
  destruct (Nx.has_node G b) eqn:Hb; last first.
  { rewrite shortest_path_missing_node in Hraise by auto. done. }
  pose proof (shortest_path_spec G a b Ha Hb) as Hspec.
  by rewrite Hraise in Hspec.
Qed.

End JoinPath.

(* ===================================================================== *)
(** * Relationship discovery                                              *)
(* ===================================================================== *)

Section Discovery.

Lemma exec_bind {A B} (m : KG A) (k : A → KG B) self :
  exec (m ≫= k) self = exec (k (eval m self)) (exec m self).
Proof. unfold exec, eval, mbind, KG_bind. by destruct (m self). Qed.

Lemma eval_bind {A B} (m : KG A) (k : A → KG B) self :
  eval (m ≫= k) self = eval (k (eval m self)) (exec m self).
Proof. unfold exec, eval, mbind, KG_bind. by destruct (m self). Qed.

Lemma appends_ret : appends (mret tt) [].
Proof. intros self. by rewrite app_nil_r. Qed.

Lemma appends_record rel : appends (record_relationship rel) [rel].
Proof. intros self. done. Qed.

Lemma appends_for_each {A} (l : list A) (body : A → KG unit) out :
  (∀ x, appends (body x) (out x)) → appends (for_each l body) (flat_map out l).
Proof.
  intros Hbody. induction l as [|x l IH]; intros self; simpl.
  - by rewrite app_nil_r.
  - rewrite exec_bind, IH, Hbody. by rewrite app_assoc.
Qed.

Lemma appends_compare_columns file1 file2 df1 df2 col1 col2 :
  appends (compare_columns file1 file2 df1 df2 col1 col2)
          (pair_relationships file1 file2 df1 df2 col1 col2).
Proof.
  unfold pair_relationships, compare_columns.
  repeat case_match; (apply appends_record || apply appends_ret).
Qed.

Lemma flat_map_enumerate_drop {A B} (h : A → A → list B) (l : list A) :
  flat_map (λ '(i, x), flat_map (h x) (drop (S i) l)) (enumerate l) =
  flat_map (λ '(x, y), h x y) (ordered_pairs l).
Proof.
  unfold enumerate.
  enough (∀ pre,
    flat_map (λ '(i, x), flat_map (h x) (drop (S i) (pre ++ l)))
             (imap (λ i x, (length pre + i, x)) l) =
    flat_map (λ '(x, y), h x y) (ordered_pairs l)) as Hgen.
  { apply (Hgen []). }
  induction l as [|x l IH]; intros pre; simpl; [done|].
  rewrite Nat.add_0_r, flat_map_app. f_equal.
  - rewrite (cons_middle x pre l), app_assoc.
    replace (S (length pre)) with (length (pre ++ [x]))
      by (rewrite length_app; simpl; lia).
    rewrite drop_app_length. clear IH.
    induction l as [|y l IHl]; simpl; [done|]. by rewrite <- IHl.
  - rewrite <- (IH (pre ++ [x])), <- app_assoc. simpl.
    f_equal. apply imap_ext. intros i y _. simpl.
    rewrite length_app. simpl. f_equal. lia.
Qed.

Lemma discover_relationships_eval dfs self :
  eval (discover_relationships dfs) self =
  flat_map (λ '(file1, file2), dataset_pair_relationships dfs file1 file2)
           (ordered_pairs (keys dfs)).
Proof.
  unfold discover_relationships. rewrite !eval_bind.
  change (eval (gets relationships) ?s) with (relationships s).
  rewrite (appends_for_each _ _
    (λ '(i, file1), flat_map (dataset_pair_relationships dfs file1)
                             (drop (S i) (keys dfs)))).
  - simpl. apply (flat_map_enumerate_drop (dataset_pair_relationships dfs)).
  - intros [i file1]. apply appends_for_each. intros file2.
    unfold dataset_pair_relationships.
    apply appends_for_each. intros col1. apply appends_for_each. intros col2.
    apply appends_compare_columns.
Qed.

Lemma discover_relationships_stored dfs self :
  relationships (exec (discover_relationships dfs) self) =
  eval (discover_relationships dfs) self.
Proof. unfold discover_relationships. by rewrite !eval_bind, !exec_bind. Qed.

(** ** One pair of columns *)

Lemma pair_relationships_exact file1 file2 df1 df2 col :
  pair_relationships file1 file2 df1 df2 col col =
  [exact_name_match file1 col file2 col].
Proof.
  unfold pair_relationships, compare_columns. by rewrite decide_True.
Qed.

Lemma pair_relationships_differ file1 file2 df1 df2 col1 col2 :
  col1 ≠ col2 →
  pair_relationships file1 file2 df1 df2 col1 col2 =
  if _is_potential_join_key col1 col2 then
    let overlap := _calculate_value_overlap (df_getitem df1 col1) (df_getitem df2 col2) in
    if PyFloat.gtb overlap PyFloat.lit_0_1
    then [join_key file1 col1 file2 col2 overlap] else []
  else [].
Proof.
  intros Hne. unfold pair_relationships, compare_columns.
  rewrite decide_False by done. by repeat case_match.
Qed.

Lemma pair_relationships_endpoints file1 file2 df1 df2 col1 col2 rel :
  rel ∈ pair_relationships file1 file2 df1 df2 col1 col2 →
  endpoints rel = (file1, col1, file2, col2).
Proof.
  destruct (decide (col1 = col2)) as [->|Hne].
  - rewrite pair_relationships_exact. by intros ->%list_elem_of_singleton.
  - rewrite pair_relationships_differ by done. simpl.
    repeat case_match; try (intros H'; by inversion H').
    by intros ->%list_elem_of_singleton.
Qed.

Lemma is_potential_join_key_spec col1 col2 :
  _is_potential_join_key col1 col2 = true ↔ shares_keyword col1 col2.
Proof.
  unfold _is_potential_join_key, shares_keyword.
  rewrite bool_decide_eq_true. split.
  - intros Hpos. apply size_pos_elem_of in Hpos as [kw Hkw].
    exists kw. set_solver.
  - intros (kw & H1 & H2 & H3).
    destruct (decide (size (list_to_set (PyStr.split_sep (PyStr.lower col1))
             ∩ list_to_set (PyStr.split_sep (PyStr.lower col2))
             ∩ significant_keywords : gset string) = 0)) as [Hz|Hnz]; [|lia].
    apply size_empty_inv in Hz. set_solver.
Qed.

(** ** The value overlap *)

Lemma calculate_value_overlap_jaccard series1 series2 :
  _calculate_value_overlap series1 series2 =
  jaccard (distinct_values series1) (distinct_values series2).
Proof.
  unfold _calculate_value_overlap, jaccard.
  destruct (decide (_ ∨ _)) as [|Hne]; [done|].
  destruct (decide (0 < _)) as [|Hz]; [done|]. exfalso.
  assert (size (distinct_values series1 ∪ distinct_values series2) = 0) as Hsz by lia.
  apply size_empty_inv in Hsz. apply Hne. left. set_solver.
Qed.

Lemma jaccard_sym A B : jaccard A B = jaccard B A.
Proof.
  unfold jaccard. rewrite (comm_L (∩) A B), (comm_L (∪) A B).
  destruct (decide (A = ∅ ∨ B = ∅)), (decide (B = ∅ ∨ A = ∅)); tauto.
Qed.

Lemma distinct_values_empty series :
  distinct_values series = ∅ ↔ Forall (λ cell, cell = None) (s_values series).
Proof.
  unfold distinct_values, dropna. destruct series as [type cells]. simpl.
  induction cells as [|[v|] cells IH]; simpl.
  - split; [constructor|done].
  - split; [set_solver|]. intros H. inversion H. done.
  - rewrite IH. split; [by constructor|]. intros H. by inversion H.
Qed.

(** ** Picking one pair out of the nested loops *)

Lemma filter_none {B} (P : B → Prop) `{!∀ b, Decision (P b)} (l : list B) :
  (∀ b, b ∈ l → ¬ P b) → filter P l = [].
Proof.
  induction l as [|b l IH]; intros Hl; [done|].
  rewrite filter_cons_False by (apply Hl; left).
  apply IH. intros b' Hb'. apply Hl. by right.
Qed.

Lemma filter_all {B} (P : B → Prop) `{!∀ b, Decision (P b)} (l : list B) :
  (∀ b, b ∈ l → P b) → filter P l = l.
Proof.
  induction l as [|b l IH]; intros Hl; [done|].
  rewrite filter_cons_True by (apply Hl; left).
  f_equal. apply IH. intros b' Hb'. apply Hl. by right.
Qed.

Lemma filter_flat_map_none {A B} (P : B → Prop) `{!∀ b, Decision (P b)}
    (f : A → list B) (l : list A) :
  (∀ y b, y ∈ l → b ∈ f y → ¬ P b) → filter P (flat_map f l) = [].
Proof.
  intros Hl. apply filter_none. intros b Hb%list_elem_of_In%in_flat_map.
  destruct Hb as (y & Hy%list_elem_of_In & Hb%list_elem_of_In). eauto.
Qed.

Lemma filter_flat_map_one {A B} (P : B → Prop) `{!∀ b, Decision (P b)}
    (f : A → list B) (l : list A) (x : A) :
  NoDup l → x ∈ l →
  (∀ y b, y ∈ l → y ≠ x → b ∈ f y → ¬ P b) →
  filter P (flat_map f l) = filter P (f x).
Proof.
  induction l as [|y l IH]; intros Hnd Hx Hother; [inversion Hx|].
  apply NoDup_cons in Hnd as [Hy Hnd]. simpl. rewrite filter_app.
  apply elem_of_cons in Hx as [->|Hx].
  - rewrite (filter_flat_map_none P f l), app_nil_r; [done|].
    intros z b Hz. apply Hother; [by right|]. by intros ->.
  - rewrite (filter_none P (f y)), IH; [done..| |].
    + intros z b Hz. apply Hother. by right.
    + intros b. apply Hother; [left|]. by intros ->.
Qed.

(** ** The enumeration of dataset pairs *)

Lemma elem_of_ordered_pairs_inv {A} (l : list A) x y :
  (x, y) ∈ ordered_pairs l → x ∈ l ∧ y ∈ l.
Proof.
  induction l as [|z l IH]; simpl; [intros H; inversion H|].
  intros [Hin|Hin]%elem_of_app.
  - apply list_elem_of_fmap in Hin as (y' & [= -> ->] & Hy). split; [left|by right].
  - destruct (IH Hin). split; by right.
Qed.

Lemma elem_of_ordered_pairs {A} (pre mid post : list A) x y :
  (x, y) ∈ ordered_pairs (pre ++ x :: mid ++ y :: post).
Proof.
  induction pre as [|z pre IH]; simpl.
  - apply elem_of_app. left. apply list_elem_of_fmap. exists y. split; [done|].
    apply elem_of_app. right. left.
  - apply elem_of_app. by right.
Qed.

Lemma NoDup_ordered_pairs {A} (l : list A) : NoDup l → NoDup (ordered_pairs l).
Proof.
  induction l as [|x l IH]; simpl; [constructor|].
  intros [Hx Hl]%NoDup_cons. apply NoDup_app. split; [|split; [|auto]].
  - apply NoDup_fmap_2; [|done]. by intros ? ? [=].
  - intros [a b] (b' & [= -> ->] & _)%list_elem_of_fmap Hin.
    by apply elem_of_ordered_pairs_inv in Hin as [? _].
Qed.

Lemma ordered_pairs_one_way {A} (l : list A) x y :
  NoDup l → (x, y) ∈ ordered_pairs l → (y, x) ∉ ordered_pairs l.
Proof.
  induction l as [|z l IH]; simpl; [intros _ Hin; inversion Hin|].
  intros [Hz Hl]%NoDup_cons [Hxy|Hxy]%elem_of_app [Hyx|Hyx]%elem_of_app.
  - apply list_elem_of_fmap in Hxy as (y' & [= -> ->] & Hy).
    apply list_elem_of_fmap in Hyx as (x' & [= -> ->] & _). done.
  - apply list_elem_of_fmap in Hxy as (y' & [= -> ->] & _).
    by apply elem_of_ordered_pairs_inv in Hyx as [_ ?].
  - apply list_elem_of_fmap in Hyx as (x' & [= -> ->] & _).
    by apply elem_of_ordered_pairs_inv in Hxy as [_ ?].
  - by apply (IH Hl Hxy).
Qed.

Lemma frame_of_lookup dfs pre file df post :
  dfs = pre ++ (file, df) :: post → NoDup (keys dfs) → frame_of dfs file = df.
Proof.
  intros -> Hnd. unfold frame_of. erewrite dict_get_NoDup; [done|done|].
  apply elem_of_app. right. left.
Qed.

(** The relationships between the columns [col1] of [file1] and [col2] of
    [file2], when [file1] comes before [file2], are those of that one
    pair of columns. *)
Lemma discover_relationships_pair dfs self pre mid post file1 df1 file2 df2 col1 col2 :
  dfs = pre ++ (file1, df1) :: mid ++ (file2, df2) :: post →
  NoDup (keys dfs) → NoDup (df_columns df1) → NoDup (df_columns df2) →
  col1 ∈ df_columns df1 → col2 ∈ df_columns df2 →
  filter (λ rel, endpoints rel = (file1, col1, file2, col2))
         (eval (discover_relationships dfs) self) =
  pair_relationships file1 file2 df1 df2 col1 col2.
Proof.
  intros Hdfs Hnd Hnd1 Hnd2 Hcol1 Hcol2.
  rewrite discover_relationships_eval.
  rewrite (filter_flat_map_one _ _ _ (file1, file2)).
  - unfold dataset_pair_relationships.
    rewrite (frame_of_lookup dfs pre file1 df1 (mid ++ (file2, df2) :: post)) by done.
    rewrite (frame_of_lookup dfs (pre ++ (file1, df1) :: mid) file2 df2 post);
      [|by rewrite Hdfs, <- app_assoc|done].
    rewrite (filter_flat_map_one _ _ _ col1); [|done..|].
    + rewrite (filter_flat_map_one _ _ _ col2); [|done..|].
      * apply filter_all. intros rel. apply pair_relationships_endpoints.
      * intros y rel _ Hy Hrel%pair_relationships_endpoints. congruence.
    + intros y rel _ Hy Hrel%list_elem_of_In%in_flat_map.
      destruct Hrel as (z & _ & Hrel%list_elem_of_In%pair_relationships_endpoints).
      congruence.
  - apply NoDup_ordered_pairs, Hnd.
  - unfold keys. rewrite Hdfs, fmap_app, fmap_cons, fmap_app, fmap_cons. simpl.
    apply elem_of_ordered_pairs.
  - intros [f1 f2] rel _ Hne Hrel%list_elem_of_In%in_flat_map.
    destruct Hrel as (c1 & _ & Hrel%in_flat_map).
    destruct Hrel as (c2 & _ & Hrel%list_elem_of_In%pair_relationships_endpoints).
    congruence.
Qed.

End Discovery.

(** A relationship goes from the earlier dataset to the later one *)
Lemma discover_relationships_direction dfs self rel :
  rel ∈ eval (discover_relationships dfs) self →
  (source_file rel, target_file rel) ∈ ordered_pairs (keys dfs).
Proof.
  rewrite discover_relationships_eval.
  intros ([file1 file2] & Hpair & Hrel)%list_elem_of_In%in_flat_map.
  apply in_flat_map in Hrel as (col1 & _ & Hrel).
  apply in_flat_map in Hrel as (col2 & _ & Hrel%list_elem_of_In).
  apply pair_relationships_endpoints in Hrel. unfold endpoints in Hrel.
  injection Hrel as -> _ -> _. by apply list_elem_of_In.
Qed.

Lemma elem_of_discover_relationships dfs self rel :
  rel ∈ eval (discover_relationships dfs) self →
  ∃ file1 file2 df1 df2 col1 col2,
    rel ∈ pair_relationships file1 file2 df1 df2 col1 col2.
Proof.
  rewrite discover_relationships_eval.
  intros ([file1 file2] & _ & Hrel)%list_elem_of_In%in_flat_map.
  apply in_flat_map in Hrel as (col1 & _ & Hrel).
  apply in_flat_map in Hrel as (col2 & _ & Hrel%list_elem_of_In).
  eauto 8.
Qed.

(* ===================================================================== *)
(** * The validation rules                                                *)
(* ===================================================================== *)

Section Validation.
Variable llm : option Judge.

Lemma reads_ret {A} (a : A) : reads (mret a).
Proof. done. Qed.

Lemma reads_gets {A} (f : LivingKnowledgeGraph → A) : reads (gets f).
Proof. done. Qed.

Lemma reads_bind {A B} (m : KG A) (k : A → KG B) :
  reads m → (∀ a, reads (k a)) → reads (m ≫= k).
Proof. intros Hm Hk self. by rewrite exec_bind, Hm, Hk. Qed.

Lemma eval_bind_reads {A B} (m : KG A) (k : A → KG B) self :
  reads m → eval (m ≫= k) self = eval (k (eval m self)) self.
Proof. intros Hm. by rewrite eval_bind, Hm. Qed.

Lemma reads_for_collect {A B} (l : list A) (body : A → KG (list B)) :
  (∀ x, reads (body x)) → reads (for_collect l body).
Proof.
  intros Hbody. induction l as [|x l IH]; simpl; [apply reads_ret|].
  apply reads_bind; [done|]. intros here.
  apply reads_bind; [done|]. intros rest. apply reads_ret.
Qed.

Lemma eval_for_collect {A B} (l : list A) (body : A → KG (list B)) self :
  (∀ x, reads (body x)) →
  eval (for_collect l body) self = flat_map (λ x, eval (body x) self) l.
Proof.
  intros Hbody. induction l as [|x l IH]; simpl; [done|].
  rewrite eval_bind_reads by done.
  rewrite eval_bind_reads by by apply reads_for_collect.
  by rewrite IH.
Qed.

Lemma reads_validate_file_existence files : reads (_validate_file_existence files).
Proof. apply reads_bind; [apply reads_gets|]. intros md. apply reads_ret. Qed.

Lemma reads_column_existence_body (entry : string * list string) :
  reads (let '(file, columns) := entry in
         md ← gets metadata;
         match md !! file with
         | None => mret []
         | Some cols =>
             let available_columns : gset string := dom cols in
             mret (flat_map (λ col,
                     if decide (col ∈ available_columns) then []
                     else [missing_column_issue file col available_columns])
                     columns)
         end).
Proof.
  destruct entry as [file columns]. apply reads_bind; [apply reads_gets|].
  intros md. destruct (md !! file); apply reads_ret.
Qed.

Lemma reads_validate_column_existence cols : reads (_validate_column_existence cols).
Proof. apply reads_for_collect. intros x. apply reads_column_existence_body. Qed.

Lemma reads_get_column_type file column : reads (_get_column_type file column).
Proof. apply reads_bind; [apply reads_gets|]. intros md. apply reads_ret. Qed.

Lemma reads_check_join files m : reads (check_join files m).
Proof.
  destruct m as [[[alias1 col1] alias2] col2]. unfold check_join.
  repeat case_match; try apply reads_ret.
  apply reads_bind; [apply reads_get_column_type|]. intros type1.
  apply reads_bind; [apply reads_get_column_type|]. intros type2.
  repeat case_match; apply reads_ret.
Qed.

Lemma reads_validate_join_type_compatibility q files :
  reads (_validate_join_type_compatibility q files).
Proof. apply reads_for_collect. intros m. apply reads_check_join. Qed.

Lemma reads_validate_execution_plan q files cols :
  reads (validate_execution_plan llm q files cols).
Proof.
  unfold validate_execution_plan.
  apply reads_bind; [apply reads_validate_file_existence|]. intros found1.
  apply reads_bind; [apply reads_validate_column_existence|]. intros found2.
  apply reads_bind; [apply reads_validate_join_type_compatibility|]. intros found4.
  apply reads_ret.
Qed.

Lemma eval_validate_execution_plan q files cols self :
  eval (validate_execution_plan llm q files cols) self =
  (negb (existsb is_critical (issues_in_rule_order llm q files cols self)),
   issues_in_rule_order llm q files cols self).
Proof.
  unfold validate_execution_plan, issues_in_rule_order.
  rewrite eval_bind_reads by apply reads_validate_file_existence.
  rewrite eval_bind_reads by apply reads_validate_column_existence.
  rewrite eval_bind_reads by apply reads_validate_join_type_compatibility.
  destruct llm; simpl; rewrite <- ?app_assoc; try done.
  by rewrite app_nil_r.
Qed.

End Validation.

Section ValidationRules.
Implicit Types (self : LivingKnowledgeGraph).

Lemma eval_validate_file_existence files self :
  eval (_validate_file_existence files) self =
  flat_map (λ file,
    if decide (file ∈ dom (metadata self)) then []
    else [ {| severity := CRITICAL;
              rule := "file_existence";
              message := "Fichier '" +:+ file +:+ "' introuvable";
              suggestion := Some ("Fichiers disponibles: " +:+
                                  PyStr.join ", " (elements (dom (metadata self)))) |} ])
    files.
Proof. done. Qed.

Lemma eval_validate_column_existence cols self :
  eval (_validate_column_existence cols) self =
  flat_map (λ '(file, columns),
    match metadata self !! file with
    | None => []
    | Some known =>
        flat_map (λ col,
          if decide (col ∈ dom known) then []
          else [missing_column_issue file col (dom known)]) columns
    end) cols.
Proof.
  unfold _validate_column_existence.
  rewrite eval_for_collect by (intros x; apply reads_column_existence_body).
  induction cols as [|[file columns] cols IH]; simpl; [done|].
  rewrite IH. f_equal. rewrite eval_bind_reads by apply reads_gets.
  change (eval (gets metadata) self) with (metadata self).
  by destruct (metadata self !! file).
Qed.

Lemma eval_validate_join_type_compatibility q files self :
  eval (_validate_join_type_compatibility q files) self =
  flat_map (λ m, eval (check_join files m) self) (PyStr.findall_join q).
Proof. apply eval_for_collect. intros m. apply reads_check_join. Qed.

Lemma eval_check_join files alias1 col1 alias2 col2 file1 file2 self :
  _resolve_alias_to_file alias1 files = Some file1 →
  _resolve_alias_to_file alias2 files = Some file2 →
  file1 ≠ EmptyString → file2 ≠ EmptyString →
  eval (check_join files (alias1, col1, alias2, col2)) self =
  match eval (_get_column_type file1 col1) self,
        eval (_get_column_type file2 col2) self with
  | Some type1, Some type2 =>
      if PyStr.truthy type1 && PyStr.truthy type2
         && negb (_are_types_compatible type1 type2)
      then [incompatible_join_issue file1 col1 type1 file2 col2 type2]
      else []
  | _, _ => []
  end.
Proof.
  intros Hfile1 Hfile2 Hne1 Hne2. unfold check_join. rewrite Hfile1, Hfile2.
  destruct file1 as [|c1 file1]; [done|]. destruct file2 as [|c2 file2]; [done|].
  simpl. rewrite eval_bind_reads by apply reads_get_column_type.
  rewrite eval_bind_reads by apply reads_get_column_type.
  destruct (eval (_get_column_type _ col1) self) as [type1|]; [|done].
  destruct (eval (_get_column_type _ col2) self) as [type2|]; [|done].
  by destruct (_ && _ && _).
Qed.

Lemma truthy_true s : PyStr.truthy s = true ↔ s ≠ EmptyString.
Proof. destruct s; simpl; split; congruence. Qed.


Lemma numeric_types_spec t :
  t ∈ numeric_types ↔
  t = "int64" ∨ t = "int32" ∨ t = "float64" ∨ t = "float32" ∨ t = "int" ∨ t = "float".
Proof. unfold numeric_types. set_solver. Qed.

Lemma string_types_spec t :
  t ∈ string_types ↔ t = "object" ∨ t = "string" ∨ t = "str".
Proof. unfold string_types. set_solver. Qed.

Lemma type_buckets_apart t1 t2 :
  t1 ∈ numeric_types → t2 ∈ string_types →
  t1 ≠ t2 ∧ t1 ≠ EmptyString ∧ t2 ≠ EmptyString.
Proof.
  rewrite numeric_types_spec, string_types_spec.
  intros H1 H2. repeat destruct H1 as [H1|H1]; repeat destruct H2 as [H2|H2];
    subst; repeat split; discriminate.
Qed.

Lemma are_types_compatible_spec type1 type2 :
  _are_types_compatible type1 type2 = true ↔
  PyStr.lower type1 = PyStr.lower type2 ∨
  (PyStr.lower type1 ∈ numeric_types ∧ PyStr.lower type2 ∈ numeric_types) ∨
  (PyStr.lower type1 ∈ string_types ∧ PyStr.lower type2 ∈ string_types).
Proof.
  unfold _are_types_compatible. repeat case_decide; split; try tauto; done.
Qed.

End ValidationRules.

Lemma Forall_flat_map {A B} (P : B → Prop) (f : A → list B) (l : list A) :
  (∀ x, Forall P (f x)) → Forall P (flat_map f l).
Proof.
  intros Hf. induction l as [|x l IH]; simpl; [constructor|].
  apply Forall_app. auto.
Qed.

Lemma existsb_is_critical issues :
  negb (existsb is_critical issues) = true ↔
  ∀ issue, issue ∈ issues → severity issue ≠ CRITICAL.
Proof.
  rewrite negb_true_iff, <- not_true_iff_false, existsb_exists. split.
  - intros Hnone issue Hin Hcrit. apply Hnone. exists issue.
    split; [by apply list_elem_of_In|]. by apply bool_decide_eq_true.
  - intros Hall (issue & Hin%list_elem_of_In & Hcrit%bool_decide_eq_true).
    by apply (Hall issue).
Qed.

Lemma check_join_rule files m self :
  Forall (λ issue, rule issue = "type_compatibility") (eval (check_join files m) self).
Proof.
  destruct m as [[[alias1 col1] alias2] col2].
  destruct (_resolve_alias_to_file alias1 files) as [file1|] eqn:Hfile1; last first.
  { unfold check_join. rewrite Hfile1. constructor. }
  destruct (_resolve_alias_to_file alias2 files) as [file2|] eqn:Hfile2; last first.
  { unfold check_join. rewrite Hfile1, Hfile2. constructor. }
  destruct (decide (file1 = EmptyString)) as [->|Hne1].
  { unfold check_join. rewrite Hfile1, Hfile2. constructor. }
  destruct (decide (file2 = EmptyString)) as [->|Hne2].
  { unfold check_join. rewrite Hfile1, Hfile2, andb_false_r. constructor. }
  rewrite (eval_check_join files alias1 col1 alias2 col2 file1 file2) by done.
  repeat case_match; repeat constructor.
Qed.

(* ===================================================================== *)
(** * The example, run                                                  *)
(* ===================================================================== *)

Lemma example_relationships :
  eval (discover_relationships Example.dataframes) Example.scanned =
  [ join_key "customers" "id" "orders" "customer_id" (PyFloat.div_nat 3 5);
    exact_name_match "customers" "name" "orders" "name" ].
Proof. vm_compute. reflexivity. Qed.

Lemma example_edges :
  Nx.edges (graph Example.discovered) =
  [ ("customers", "orders",
     {| Nx.ea_source_column := "name"; Nx.ea_target_column := "name";
        Nx.ea_type := "exact_name_match"; Nx.ea_confidence := PyFloat.lit_0_9 |}) ].
Proof. vm_compute. reflexivity. Qed.

Lemma example_products_apart :
  ¬ connected (graph Example.discovered) "customers" "products".
Proof.
  intros Hconn.
  assert (∀ x, connected (graph Example.discovered) "customers" x →
               x = "customers" ∨ x = "orders") as Hreach.
  { intros x Hx.
    apply (rtc_ind_r (R := adjacent (graph Example.discovered))
             (λ y, y = "customers" ∨ y = "orders") "customers"); [by left| |exact Hx].
    intros y z _ [d Hyz] _. rewrite example_edges in Hyz.
    destruct Hyz as [Hyz|Hyz]; apply list_elem_of_singleton in Hyz;
      injection Hyz as -> -> _; auto. }
  destruct (Hreach _ Hconn); discriminate.
Qed.

(* ===================================================================== *)
(** * The claims                                                          *)
(* ===================================================================== *)

(** ** C1 *)

(** C1 (the code falls short of it).  The graph is a [DiGraph]: a second
    relationship between the same two datasets replaces the attributes of
    the edge that is there.  On the example the discovery returns two
    relationships between [customers] and [orders], and the graph ends with
    one edge, which carries the columns of the last one only.  Nor are the
    edges reset with the list: a later discovery that finds nothing leaves
    the old edge in the graph. *)
Lemma discover_relationships_overwrites_parallel_edge :
  eval (discover_relationships Example.dataframes) Example.scanned =
    [ join_key "customers" "id" "orders" "customer_id" (PyFloat.div_nat 3 5);
      exact_name_match "customers" "name" "orders" "name" ] ∧
  relationships Example.discovered =
    eval (discover_relationships Example.dataframes) Example.scanned ∧
  Nx.number_of_edges (graph Example.discovered) = 1 ∧
  Nx.edges (graph Example.discovered) =
    [ ("customers", "orders",
       {| Nx.ea_source_column := "name"; Nx.ea_target_column := "name";
          Nx.ea_type := "exact_name_match"; Nx.ea_confidence := PyFloat.lit_0_9 |}) ] ∧
  eval (discover_relationships []) Example.discovered = [] ∧
  Nx.number_of_edges (graph (exec (discover_relationships []) Example.discovered)) = 1.
Proof. repeat split; vm_compute; reflexivity. Qed.

(** ** C2 *)




(** ** C3 *)

(** C3.  Two datasets [file1] and [file2], [file1] the earlier key of
    [dataframes], and a column name [col] that both have: whatever the
    cells of the two columns are, the relationships that discovery returns
    from [file1.col] to [file2.col] are exactly one, of kind
    [exact_name_match] and confidence [0.9]; no [join_key] relationship
    stands beside it, and none goes the other way, from [file2.col] to
    [file1.col].  (The keys of a [dict] do not repeat, nor do the column
    labels of a frame read from a Parquet file.) *)
Theorem discover_exact_name_match dfs self pre mid post file1 df1 file2 df2 col :
  dfs = pre ++ (file1, df1) :: mid ++ (file2, df2) :: post →
  NoDup (keys dfs) → NoDup (df_columns df1) → NoDup (df_columns df2) →
  col ∈ df_columns df1 → col ∈ df_columns df2 →
  filter (λ rel, endpoints rel = (file1, col, file2, col))
         (eval (discover_relationships dfs) self) =
  [ {| source_file := file1; source_column := col;
       target_file := file2; target_column := col;
       relationship_type := "exact_name_match";
       confidence := PyFloat.lit_0_9 |} ] ∧
  filter (λ rel, endpoints rel = (file2, col, file1, col))
         (eval (discover_relationships dfs) self) = [].
Proof.
  intros Hdfs Hnd Hnd1 Hnd2 Hcol1 Hcol2. split.
  - rewrite (discover_relationships_pair dfs self pre mid post file1 df1 file2 df2)
      by done.
    apply pair_relationships_exact.
  - apply filter_none. intros rel Hrel%discover_relationships_direction Hends.
    unfold endpoints in Hends. injection Hends as Hsrc _ Htgt _.
    rewrite Hsrc, Htgt in Hrel. revert Hrel.
    apply ordered_pairs_one_way; [done|].
    unfold keys. rewrite Hdfs, fmap_app, fmap_cons, fmap_app, fmap_cons. simpl.
    apply elem_of_ordered_pairs.
Qed.

(** C3 on the example: [customers.name] and [orders.name] *)
Lemma discover_exact_name_match_witness :
  filter (λ rel, endpoints rel = ("customers", "name", "orders", "name"))
         (eval (discover_relationships Example.dataframes) Example.scanned) =
  [ exact_name_match "customers" "name" "orders" "name" ] ∧
  filter (λ rel, endpoints rel = ("orders", "name", "customers", "name"))
         (eval (discover_relationships Example.dataframes) Example.scanned) = [].
Proof.
  apply (discover_exact_name_match Example.dataframes Example.scanned
           [] [] [("products", Example.products)]
           "customers" Example.customers "orders" Example.orders "name").
  - reflexivity.
  - compute_done.
  - compute_done.
  - compute_done.
  - compute_done.
  - compute_done.
Defined.

(** ** C4 *)

(** C4.  Two columns with different names that share a significant keyword:
    the overlap the code computes is the Jaccard overlap of the two sets of
    distinct non-null cells; a [join_key] relationship with confidence
    [min(overlap, 0.95)] is returned for the pair exactly when the overlap
    is above [0.1]; when one of the columns has no non-null cell the overlap
    is [0.0] and nothing is returned; and the overlap does not depend on the
    order of the two columns. *)
Theorem discover_join_key dfs self pre mid post file1 df1 file2 df2 col1 col2 :
  dfs = pre ++ (file1, df1) :: mid ++ (file2, df2) :: post →
  NoDup (keys dfs) → NoDup (df_columns df1) → NoDup (df_columns df2) →
  col1 ∈ df_columns df1 → col2 ∈ df_columns df2 →
  col1 ≠ col2 → shares_keyword col1 col2 →
  let series1 := df_getitem df1 col1 in
  let series2 := df_getitem df2 col2 in
  let overlap := jaccard (distinct_values series1) (distinct_values series2) in
  let found := filter (λ rel, endpoints rel = (file1, col1, file2, col2))
                      (eval (discover_relationships dfs) self) in
  _calculate_value_overlap series1 series2 = overlap ∧
  found = (if PyFloat.gtb overlap PyFloat.lit_0_1 then
             [ {| source_file := file1; source_column := col1;
                  target_file := file2; target_column := col2;
                  relationship_type := "join_key";
                  confidence := PyFloat.min overlap PyFloat.lit_0_95 |} ]
           else []) ∧
  (Forall (λ cell, cell = None) (s_values series1) ∨
   Forall (λ cell, cell = None) (s_values series2) →
   overlap = PyFloat.zero ∧ found = []) ∧
  _calculate_value_overlap series2 series1 = overlap.
Proof.
  intros Hdfs Hnd Hnd1 Hnd2 Hcol1 Hcol2 Hne Hshare series1 series2 overlap found.
  assert (found = if PyFloat.gtb overlap PyFloat.lit_0_1 then
                    [join_key file1 col1 file2 col2 overlap] else []) as Hfound.
  { unfold found.
    rewrite (discover_relationships_pair dfs self pre mid post file1 df1 file2 df2) by done.
    rewrite pair_relationships_differ by done.
    apply is_potential_join_key_spec in Hshare. rewrite Hshare. simpl.
    by rewrite calculate_value_overlap_jaccard. }
  split; [apply calculate_value_overlap_jaccard|]. split; [exact Hfound|]. split.
  - intros Hnull.
    assert (overlap = PyFloat.zero) as Hzero.
    { unfold overlap, jaccard. rewrite decide_True; [done|].
      destruct Hnull as [H1|H2]; [left|right]; by apply distinct_values_empty. }
    split; [done|]. by rewrite Hfound, Hzero.
  - rewrite calculate_value_overlap_jaccard. apply jaccard_sym.
Qed.

(** C4 on the example: the ids of [customers] are three of the five
    customer ids of [orders] *)
Lemma discover_join_key_witness :
  shares_keyword "id" "customer_id" ∧
  _calculate_value_overlap (df_getitem Example.customers "id")
                           (df_getitem Example.orders "customer_id") = PyFloat.div_nat 3 5 ∧
  filter (λ rel, endpoints rel = ("customers", "id", "orders", "customer_id"))
         (eval (discover_relationships Example.dataframes) Example.scanned) =
  [ join_key "customers" "id" "orders" "customer_id" (PyFloat.div_nat 3 5) ].
Proof.
  assert (shares_keyword "id" "customer_id") as Hshare
    by (apply is_potential_join_key_spec; vm_compute; reflexivity).
  split; [exact Hshare|].
  destruct (discover_join_key Example.dataframes Example.scanned
              [] [] [("products", Example.products)]
              "customers" Example.customers "orders" Example.orders "id" "customer_id")
    as (Hoverlap & Hfound & _ & _);
    [reflexivity|compute_done..|exact Hshare|].
  split.
  - rewrite Hoverlap. vm_compute. reflexivity.
  - rewrite Hfound. vm_compute. reflexivity.
Defined.

(** ** C5 *)




(** ** C6 *)

(** C6.  For a node [a] of the graph, [get_join_path(a, a)] returns [[a]];
    for two nodes of the graph that no chain of edges connects, whichever
    way the edges point, [get_join_path] returns [None] and raises
    nothing. *)
Theorem get_join_path_self_and_disconnected self a b :
  Nx.has_node (graph self) a = true →
  eval (get_join_path a a) self = Ok (Some [a]) ∧
  (Nx.has_node (graph self) b = true → ¬ connected (graph self) a b →
   eval (get_join_path a b) self = Ok None).
Proof.
  intros Ha. unfold get_join_path, eval. simpl. split.
  - by rewrite shortest_path_self.
  - intros Hb Hnot. by rewrite shortest_path_disconnected.
Qed.

(** C6 on the example: [products] is a node with no edge *)
Lemma get_join_path_self_and_disconnected_witness :
  eval (get_join_path "customers" "customers") Example.discovered
    = Ok (Some ["customers"]) ∧
  eval (get_join_path "customers" "products") Example.discovered = Ok None.
Proof.
  destruct (get_join_path_self_and_disconnected Example.discovered
              "customers" "products") as [Hself Hapart]; [reflexivity|].
  split; [exact Hself|].
  apply Hapart; [reflexivity|exact example_products_apart].
Defined.

(** ** C7 *)

(** C7.  [validate_execution_plan] returns the issues of rule 1, then those
    of rule 2, and so on to rule 5, and those of the judge last when one is
    configured; each rule is run whatever the others found, and within the
    rules that walk a list (the required files, the required columns, the
    matches of the join pattern) the issues follow that list.  [passed] is
    true exactly when no returned issue is critical. *)
Theorem validate_execution_plan_rule_order llm q files cols self :
  let result := eval (validate_execution_plan llm q files cols) self in
  let rule1 := eval (_validate_file_existence files) self in
  let rule2 := eval (_validate_column_existence cols) self in
  let rule3 := _validate_sql_syntax q in
  let rule4 := eval (_validate_join_type_compatibility q files) self in
  let rule5 := _validate_sql_safety q in
  let rule6 := match llm with
               | Some _ => _validate_semantic_coherence llm q files
               | None => []
               end in
  result.2 = rule1 ++ rule2 ++ rule3 ++ rule4 ++ rule5 ++ rule6 ∧
  (result.1 = true ↔ ∀ issue, issue ∈ result.2 → severity issue ≠ CRITICAL) ∧
  Forall (λ issue, rule issue = "file_existence") rule1 ∧
  Forall (λ issue, rule issue = "column_existence") rule2 ∧
  Forall (λ issue, rule issue = "sql_syntax") rule3 ∧
  Forall (λ issue, rule issue = "type_compatibility") rule4 ∧
  Forall (λ issue, rule issue = "sql_safety") rule5 ∧
  Forall (λ issue, rule issue = "semantic_coherence") rule6 ∧
  (∀ files1 files2,
     eval (_validate_file_existence (files1 ++ files2)) self =
     eval (_validate_file_existence files1) self ++
     eval (_validate_file_existence files2) self) ∧
  (∀ cols1 cols2,
     eval (_validate_column_existence (cols1 ++ cols2)) self =
     eval (_validate_column_existence cols1) self ++
     eval (_validate_column_existence cols2) self) ∧
  rule4 = flat_map (λ m, eval (check_join files m) self) (PyStr.findall_join q) ∧
  message <$> rule3 `sublist_of`
    [ "Requête SQL invalide: SELECT manquant";
      "Requête SQL invalide: FROM manquant";
      "Guillemets simples non appariés détectés" ] ∧
  message <$> rule5 =
    (filter (λ entry, PyStr.search_word entry.1 q = true) dangerous_keywords).*2.
Proof.
  intros result rule1 rule2 rule3 rule4 rule5 rule6.
  assert (result = (negb (existsb is_critical
                            (rule1 ++ rule2 ++ rule3 ++ rule4 ++ rule5 ++ rule6)),
                    rule1 ++ rule2 ++ rule3 ++ rule4 ++ rule5 ++ rule6)) as ->
    by apply eval_validate_execution_plan.
  split; [done|]. split; [apply existsb_is_critical|].
  split; [|split; [|split; [|split; [|split; [|split]]]]].
  - unfold rule1. rewrite eval_validate_file_existence. apply Forall_flat_map.
    intros file. case_decide; repeat constructor.
  - unfold rule2. rewrite eval_validate_column_existence. apply Forall_flat_map.
    intros [file columns]. destruct (metadata self !! file); [|constructor].
    apply Forall_flat_map. intros col. case_decide; repeat constructor.
  - unfold rule3, _validate_sql_syntax.
    repeat apply Forall_app_2; repeat case_match; repeat constructor.
  - unfold rule4. rewrite eval_validate_join_type_compatibility.
    apply Forall_flat_map. intros m. apply check_join_rule.
  - unfold rule5, _validate_sql_safety, dangerous_keywords. simpl.
    repeat apply Forall_app_2; repeat case_match; repeat constructor.
  - unfold rule6, _validate_semantic_coherence. repeat case_match; repeat constructor.
  - split; [|split; [|split; [|split]]].
    + intros files1 files2. rewrite !eval_validate_file_existence. apply flat_map_app.
    + intros cols1 cols2. rewrite !eval_validate_column_existence. apply flat_map_app.
    + apply eval_validate_join_type_compatibility.
    + unfold rule3, _validate_sql_syntax.
      destruct (PyStr.search_word "SELECT" q), (PyStr.search_word "FROM" q);
        case_decide; simpl; repeat first [apply sublist_nil | apply sublist_skip
                                         | apply sublist_cons].
    + unfold rule5, _validate_sql_safety, dangerous_keywords.
      rewrite !filter_cons, filter_nil. cbn.
      destruct (PyStr.search_word "DROP" q), (PyStr.search_word "DELETE" q),
        (PyStr.search_word "UPDATE" q), (PyStr.search_word "TRUNCATE" q),
        (PyStr.search_word "INSERT" q); reflexivity.
Qed.

(** ** C8 *)

(** C8.  Every issue of the column rule is about a column that is missing
    from a dataset the metadata has; an entry of [required_columns] for a
    dataset the metadata does not have adds nothing to the issues, and that
    dataset, when it is among the required files, is reported by the file
    rule. *)
Theorem column_existence_skips_unknown_datasets self required_columns :
  Forall (λ issue,
            ∃ file columns known col,
              (file, columns) ∈ required_columns ∧ col ∈ columns ∧
              metadata self !! file = Some known ∧ (col ∉ dom known) ∧
              issue = missing_column_issue file col (dom known))
         (eval (_validate_column_existence required_columns) self) ∧
  (∀ before file columns after,
     required_columns = before ++ (file, columns) :: after →
     metadata self !! file = None →
     eval (_validate_column_existence required_columns) self =
     eval (_validate_column_existence (before ++ after)) self) ∧
  (∀ required_files file,
     file ∈ required_files → metadata self !! file = None →
     ∃ issue, issue ∈ eval (_validate_file_existence required_files) self ∧
              severity issue = CRITICAL ∧ rule issue = "file_existence" ∧
              message issue = "Fichier '" +:+ file +:+ "' introuvable").
Proof.
  split; [|split].
  - rewrite eval_validate_column_existence. apply Forall_forall.
    intros issue ([file columns] & Hentry & Hissue)%list_elem_of_In%in_flat_map.
    destruct (metadata self !! file) as [known|] eqn:Hknown; [|done].
    apply in_flat_map in Hissue as (col & Hcol & Hissue).
    destruct (decide (col ∈ dom known)) as [|Hmissing]; [done|].
    destruct Hissue as [<-|[]].
    exists file, columns, known, col. by rewrite <- !list_elem_of_In in *.
  - intros before file columns after -> Hunknown.
    rewrite !eval_validate_column_existence, !flat_map_app. simpl.
    by rewrite Hunknown.
  - intros required_files file Hfile Hunknown.
    rewrite eval_validate_file_existence. eexists. split.
    + apply list_elem_of_In, in_flat_map. exists file.
      split; [by apply list_elem_of_In|].
      rewrite decide_False; [left; reflexivity|].
      rewrite elem_of_dom, Hunknown. by intros [? ?].
    + done.
Qed.

(** C8 on the example: [ghosts] is no dataset, [customers] has no
    [ghost_col] *)
Lemma column_existence_skips_unknown_datasets_witness :
  eval (_validate_column_existence
          [("ghosts", ["id"]); ("customers", ["id"; "ghost_col"])]) Example.scanned =
    [ missing_column_issue "customers" "ghost_col" {[ "id"; "name" ]} ] ∧
  eval (_validate_column_existence [("customers", ["id"; "ghost_col"])]) Example.scanned =
    [ missing_column_issue "customers" "ghost_col" {[ "id"; "name" ]} ].
Proof.
  destruct (column_existence_skips_unknown_datasets Example.scanned
              [("ghosts", ["id"]); ("customers", ["id"; "ghost_col"])])
    as (_ & Hskip & _).
  rewrite (Hskip [] "ghosts" ["id"] [("customers", ["id"; "ghost_col"])]
             eq_refl eq_refl).
  split; vm_compute; reflexivity.
Defined.

(** ** C9 *)

(** C9.  [validate_execution_plan] only reads the knowledge graph: the
    state after the call is the state before it, and so are its metadata,
    its relationships and its graph; the pair [(passed, issues)] is all the
    call gives. *)
Theorem validate_execution_plan_reads_only llm q files cols self :
  let after := exec (validate_execution_plan llm q files cols) self in
  after = self ∧
  metadata after = metadata self ∧
  relationships after = relationships self ∧
  graph after = graph self ∧
  validate_execution_plan llm q files cols self =
    (eval (validate_execution_plan llm q files cols) self, self).
Proof.
  intros after.
  assert (after = self) as Hsame by apply reads_validate_execution_plan.
  rewrite Hsame. repeat split.
  unfold after, exec, eval in *.
  destruct (validate_execution_plan llm q files cols self) as [result self'].
  simpl in *. by subst.
Qed.

(** ** C10 *)

(** C10.  When [file1] or [file2] is not a node of the graph,
    [get_join_path] raises [NodeNotFound]: the handler catches
    [NetworkXNoPath] only.  And [None] is returned only for two nodes of the
    graph that are not connected. *)
Theorem get_join_path_missing_node self a b :
  (Nx.has_node (graph self) a = false ∨ Nx.has_node (graph self) b = false →
   eval (get_join_path a b) self = Raise NodeNotFound) ∧
  (eval (get_join_path a b) self = Ok None →
   Nx.has_node (graph self) a = true ∧ Nx.has_node (graph self) b = true ∧
   ¬ connected (graph self) a b).
Proof.
  unfold get_join_path, eval. simpl. split.
  - intros Hmissing. by rewrite shortest_path_missing_node.
  - intros Hnone. apply shortest_path_no_path.
    destruct (Nx.shortest_path _ a b) as [path|e|]; [done| |done].
    by destruct e.
Qed.

(** C10 on the example: [suppliers] is no node of the graph *)
Lemma get_join_path_missing_node_witness :
  eval (get_join_path "customers" "suppliers") Example.discovered = Raise NodeNotFound ∧
  eval (get_join_path "suppliers" "suppliers") Example.discovered = Raise NodeNotFound.
Proof.
  split.
  - apply (get_join_path_missing_node Example.discovered "customers" "suppliers").
    right. reflexivity.
  - apply (get_join_path_missing_node Example.discovered "suppliers" "suppliers").
    left. reflexivity.
Defined.

(* ===================================================================== *)
(** * More about ordered dictionaries *)
(* ===================================================================== *)

(** Where [dict_set] writes: in place when the key is there, at the end
    when it is not. *)
Section DictMore.
Context {V : Type}.
Implicit Types (d : list (string * V)) (k : string) (v : V).

Lemma dict_get_split k v d :
  dict_get k d = Some v →
  ∃ d1 d2, d = d1 ++ (k, v) :: d2 ∧ (k ∉ keys d1) ∧
           ∀ v', dict_set k v' d = d1 ++ (k, v') :: d2.
Proof.
  induction d as [|[k' w] d IH]; simpl; [done|].
  destruct (decide (k = k')) as [->|Hne].
  - intros [= ->]. exists [], d. split; [done|]. split; [set_solver|]. done.
  - intros Hget. destruct (IH Hget) as (d1 & d2 & -> & Hk & Hset).
    exists ((k', w) :: d1), d2. split; [done|]. split.
    + unfold keys in *. simpl. set_solver.
    + intros v'. simpl. by rewrite Hset.
Qed.

Lemma dict_set_absent k v d : dict_get k d = None → dict_set k v d = d ++ [(k, v)].
Proof.
  induction d as [|[k' w] d IH]; simpl; [done|].
  destruct (decide (k = k')); [done|]. intros H. by rewrite IH.
Qed.

Lemma keys_dict_set_present k v d :
  is_Some (dict_get k d) → keys (dict_set k v d) = keys d.
Proof.
  intros [w Hw]. destruct (dict_get_split _ _ _ Hw) as (d1 & d2 & -> & _ & Hset).
  rewrite Hset. unfold keys. by rewrite !fmap_app.
Qed.

Lemma length_dict_set k v d :
  length (dict_set k v d) = if dict_has k d then length d else S (length d).
Proof.
  unfold dict_has. case_bool_decide as H.
  - destruct H as [w Hw]. destruct (dict_get_split _ _ _ Hw) as (d1 & d2 & -> & _ & Hset).
    rewrite Hset. by rewrite !length_app.
  - rewrite dict_set_absent.
    + rewrite length_app. simpl. lia.
    + destruct (dict_get k d); [|done]. exfalso. apply H. eauto.
Qed.

End DictMore.

(** Two writes: the later one wins on one key, and they commute on two
    keys of which one is there already. *)
Section DictAlgebra.
Context {V : Type}.
Implicit Types (d : list (string * V)) (k : string) (v : V).

Lemma dict_set_set k v v' d : dict_set k v (dict_set k v' d) = dict_set k v d.
Proof.
  induction d as [|[k0 w] d IH]; simpl.
  - by rewrite decide_True.
  - destruct (decide (k = k0)) as [->|Hne]; simpl.
    + by rewrite decide_True.
    + rewrite decide_False by done. by rewrite IH.
Qed.

Lemma dict_set_comm k k' v v' d :
  k ≠ k' → k ∈ keys d →
  dict_set k v (dict_set k' v' d) = dict_set k' v' (dict_set k v d).
Proof.
  intros Hne. induction d as [|[k0 w] d IH]; [by intros H; inversion H|].
  intros Hin. simpl.
  destruct (decide (k' = k0)) as [->|Hne']; destruct (decide (k = k0)) as [->|Hne''];
    simpl; try done.
  - by rewrite decide_False, decide_True by done.
  - by rewrite decide_True, decide_False by done.
  - rewrite !decide_False by done. rewrite IH; [done|].
    unfold keys in Hin. simpl in Hin. apply elem_of_cons in Hin as [?|?]; done.
Qed.

Lemma dict_set_app_present k v d d' :
  k ∈ keys d → dict_set k v (d ++ d') = dict_set k v d ++ d'.
Proof.
  induction d as [|[k0 w] d IH]; [by intros H; inversion H|].
  intros Hin. simpl. destruct (decide (k = k0)) as [->|Hne]; [done|].
  rewrite IH; [done|].
  unfold keys in Hin. simpl in Hin. apply elem_of_cons in Hin as [?|?]; done.
Qed.

End DictAlgebra.

(* ===================================================================== *)
(** * The edges of the directed graph *)
(* ===================================================================== *)

(** [add_edge] adds one edge and keeps the others, whatever the state of
    the two dictionaries of the graph. *)
Section Edges.
Implicit Types (adj : Nx.adjacency) (G : Nx.DiGraph) (u v x y : string).

Lemma has_edge_succ G x y :
  has_edge G x y ↔ ∃ nbrs, (x, nbrs) ∈ Nx._succ G ∧ y ∈ keys nbrs.
Proof.
  unfold has_edge, Nx.edges. split.
  - intros (d & ([u nbrs] & Hin & Hd)%list_elem_of_In%in_flat_map).
    apply in_map_iff in Hd as ([v d'] & [= -> -> ->] & Hv).
    exists nbrs. split; [by apply list_elem_of_In|].
    apply list_elem_of_fmap. exists (y, d). split; [done|]. by apply list_elem_of_In.
  - intros (nbrs & Hin & ([v d] & -> & Hv)%list_elem_of_fmap).
    exists d. apply list_elem_of_In, in_flat_map. exists (x, nbrs).
    split; [by apply list_elem_of_In|]. apply in_map_iff. exists (v, d).
    split; [done|]. by apply list_elem_of_In.
Qed.

Lemma has_edge_ensure_node n G x y :
  has_edge (Nx.ensure_node n G) x y ↔ has_edge G x y.
Proof.
  rewrite !has_edge_succ. unfold Nx.ensure_node. destruct (dict_has n (Nx._succ G)); [done|].
  simpl. setoid_rewrite elem_of_app. setoid_rewrite list_elem_of_singleton. split.
  - intros (nbrs & [?|[= -> ->]] & Hy); [eauto|]. inversion Hy.
  - intros (nbrs & ? & ?); eauto.
Qed.

Lemma has_edge_adj_put u v d adj x y :
  (∃ nbrs, (x, nbrs) ∈ Nx.adj_put u v d adj ∧ y ∈ keys nbrs) ↔
  (∃ nbrs, (x, nbrs) ∈ adj ∧ y ∈ keys nbrs) ∨ (x = u ∧ y = v).
Proof.
  unfold Nx.adj_put. destruct (dict_get u adj) as [old|] eqn:Hu.
  - destruct (dict_get_split _ _ _ Hu) as (d1 & d2 & -> & _ & Hset). rewrite Hset.
    setoid_rewrite elem_of_app. setoid_rewrite elem_of_cons. split.
    + intros (nbrs & [?|[[= -> ->]|?]] & Hy); eauto 6.
      apply keys_dict_set in Hy as [->|Hy]; eauto 8.
    + intros [(nbrs & [?|[[= -> ->]|?]] & Hy)|[-> ->]]; eauto 6.
      * exists (dict_set v d old). split; [auto|]. apply keys_dict_set. auto.
      * exists (dict_set v d old). split; [auto|]. apply keys_dict_set. auto.
  - setoid_rewrite elem_of_app. setoid_rewrite list_elem_of_singleton. split.
    + intros (nbrs & [?|[= -> ->]] & Hy); eauto.
      right. split; [done|]. unfold keys in Hy. simpl in Hy.
      by apply list_elem_of_singleton in Hy.
    + intros [(nbrs & ? & ?)|[-> ->]]; eauto.
      exists [(v, d)]. split; [auto|]. unfold keys. simpl. left.
Qed.

Lemma has_edge_add_edge u v d G x y :
  has_edge (Nx.add_edge u v d G) x y ↔ has_edge G x y ∨ (x = u ∧ y = v).
Proof.
  rewrite has_edge_succ. unfold Nx.add_edge. simpl. rewrite has_edge_adj_put.
  rewrite <- has_edge_succ, !has_edge_ensure_node. done.
Qed.

Lemma has_edge_foldl rels G x y :
  has_edge (foldl add_relationship_edge G rels) x y ↔
  has_edge G x y ∨ ∃ rel, rel ∈ rels ∧ source_file rel = x ∧ target_file rel = y.
Proof.
  revert G. induction rels as [|rel rels IH]; intros G; simpl.
  - split; [auto|]. intros [?|(? & H & _)]; [done|inversion H].
  - rewrite IH. unfold add_relationship_edge. rewrite has_edge_add_edge.
    setoid_rewrite elem_of_cons. split.
    + intros [[?|[-> ->]]|(r & ? & ?)]; eauto 6.
    + intros [?|(r & [->|?] & <- & <-)]; eauto 8.
Qed.

Lemma adjacent_has_edge G x y : adjacent G x y ↔ has_edge G x y ∨ has_edge G y x.
Proof. unfold adjacent, has_edge. split; [intros [d [?|?]]|intros [[d ?]|[d ?]]]; eauto. Qed.

(** Nodes are never removed *)
Lemma has_node_ensure_node n G x :
  Nx.has_node (Nx.ensure_node n G) x = true →
  Nx.has_node G x = true ∨ x = n.
Proof.
  unfold Nx.ensure_node, Nx.has_node. destruct (dict_has n (Nx._succ G)); [auto|].
  simpl. rewrite !dict_has_true. unfold keys. rewrite fmap_app, elem_of_app. simpl.
  rewrite list_elem_of_singleton. tauto.
Qed.

Lemma has_node_ensure_node_mono n G x :
  Nx.has_node G x = true → Nx.has_node (Nx.ensure_node n G) x = true.
Proof.
  unfold Nx.ensure_node, Nx.has_node. destruct (dict_has n (Nx._succ G)); [auto|].
  simpl. rewrite !dict_has_true. unfold keys. rewrite fmap_app, elem_of_app. auto.
Qed.

Lemma has_node_add_edge_mono u v d G x :
  Nx.has_node G x = true → Nx.has_node (Nx.add_edge u v d G) x = true.
Proof.
  intros H. unfold Nx.add_edge.
  change (Nx.has_node (Nx.ensure_node v (Nx.ensure_node u G)) x = true).
  by do 2 apply has_node_ensure_node_mono.
Qed.

Lemma has_node_add_edge u v d G x :
  Nx.has_node (Nx.add_edge u v d G) x = true →
  Nx.has_node G x = true ∨ x = u ∨ x = v.
Proof.
  unfold Nx.add_edge.
  change (Nx.has_node (Nx.ensure_node v (Nx.ensure_node u G)) x = true → 
          Nx.has_node G x = true ∨ x = u ∨ x = v).
  intros [[?|?]%has_node_ensure_node|?]%has_node_ensure_node; auto.
Qed.

End Edges.

(** The number of edges goes up by one when the edge is new and stays
    when the edge is overwritten. *)
Section EdgeCount.
Implicit Types (adj : Nx.adjacency) (G : Nx.DiGraph) (u v x y : string).

Lemma edges_ensure_node n G : Nx.edges (Nx.ensure_node n G) = Nx.edges G.
Proof.
  unfold Nx.ensure_node, Nx.edges. destruct (dict_has n (Nx._succ G)); [done|].
  simpl. rewrite flat_map_app. simpl. by rewrite app_nil_r.
Qed.

Lemma nbr_ensure_node n G x y :
  nbr (Nx._succ (Nx.ensure_node n G)) x y ↔ nbr (Nx._succ G) x y.
Proof.
  unfold Nx.ensure_node. destruct (dict_has n (Nx._succ G)) eqn:Hn; [done|].
  apply dict_has_false, dict_get_None in Hn.
  unfold nbr. simpl. setoid_rewrite dict_get_app. split.
  - intros (nbrs & Hget & Hy). destruct (dict_get x (Nx._succ G)) as [old|] eqn:Hx.
    + injection Hget as <-. eauto.
    + simpl in Hget. case_decide; [|done]. injection Hget as <-. inversion Hy.
  - intros (nbrs & -> & Hy). eauto.
Qed.

Lemma nbr_add_edge u v d G x y :
  nbr (Nx._succ (Nx.add_edge u v d G)) x y ↔ nbr (Nx._succ G) x y ∨ (x = u ∧ y = v).
Proof.
  unfold Nx.add_edge. simpl. by rewrite nbr_adj_put, !nbr_ensure_node.
Qed.

Lemma nbr_has_edge G x y : nbr (Nx._succ G) x y → has_edge G x y.
Proof.
  intros (nbrs & Hget%dict_get_elem_of & Hy). apply has_edge_succ. eauto.
Qed.

Lemma number_of_edges_adj_put u v d (nodes : list (string * option Nx.NodeAttrs)) adj :
  u ∈ keys adj →
  ∃ k, Nx.number_of_edges {| Nx._node := nodes; Nx._succ := Nx.adj_put u v d adj |} =
       Nx.number_of_edges {| Nx._node := nodes; Nx._succ := adj |} + k ∧
       (nbr adj u v ∧ k = 0 ∨ ¬ nbr adj u v ∧ k = 1).
Proof.
  intros Hu. apply dict_get_is_Some in Hu as [old Hu].
  unfold Nx.number_of_edges, Nx.edges, Nx.adj_put. simpl. rewrite Hu.
  destruct (dict_get_split _ _ _ Hu) as (d1 & d2 & Hadj & _ & Hset).
  rewrite Hset.
  assert (dict_has v old = true ↔ nbr adj u v) as Hiff.
  { rewrite dict_has_true. unfold nbr. rewrite Hu. split; [eauto|].
    by intros (? & [= <-] & ?). }
  assert (∀ new : list (string * Nx.EdgeAttrs),
    length (flat_map (λ '(u0, nbrs), map (λ '(v0, d0), (u0, v0, d0)) nbrs)
              (d1 ++ (u, new) :: d2)) + length old =
    length (flat_map (λ '(u0, nbrs), map (λ '(v0, d0), (u0, v0, d0)) nbrs) adj)
    + length new) as Hlen.
  { intros new. rewrite Hadj, !flat_map_app. simpl.
    rewrite !length_app, !length_map. lia. }
  specialize (Hlen (dict_set v d old)). rewrite length_dict_set in Hlen.
  destruct (dict_has v old) eqn:Hv.
  - exists 0. split; [lia|]. left. split; [by apply Hiff|done].
  - exists 1. split; [lia|]. right. split; [|done]. intros H%Hiff. done.
Qed.

Lemma ensure_node_key n G : n ∈ keys (Nx._succ (Nx.ensure_node n G)).
Proof.
  unfold Nx.ensure_node. destruct (dict_has n (Nx._succ G)) eqn:Hn.
  - by apply dict_has_true.
  - simpl. unfold keys. rewrite fmap_app. set_solver.
Qed.

Lemma ensure_node_keys_mono n G x :
  x ∈ keys (Nx._succ G) → x ∈ keys (Nx._succ (Nx.ensure_node n G)).
Proof.
  unfold Nx.ensure_node. destruct (dict_has n (Nx._succ G)); [done|].
  simpl. unfold keys. rewrite fmap_app. set_solver.
Qed.

Lemma number_of_edges_add_edge u v d G :
  ∃ k, Nx.number_of_edges (Nx.add_edge u v d G) = Nx.number_of_edges G + k ∧
       (nbr (Nx._succ G) u v ∧ k = 0 ∨ ¬ nbr (Nx._succ G) u v ∧ k = 1).
Proof.
  unfold Nx.add_edge.
  destruct (number_of_edges_adj_put u v d
              (Nx._node (Nx.ensure_node v (Nx.ensure_node u G)))
              (Nx._succ (Nx.ensure_node v (Nx.ensure_node u G)))) as (k & Hk & Hcase).
  { apply ensure_node_keys_mono, ensure_node_key. }
  exists k. split.
  - simpl. rewrite Hk. f_equal. unfold Nx.number_of_edges.
    change (Nx.edges {| Nx._node := ?n; Nx._succ := ?s |})
      with (flat_map (λ '(u, nbrs), map (λ '(v, d), (u, v, d)) nbrs) s).
    change (flat_map _ (Nx._succ ?G)) with (Nx.edges G).
    by rewrite !edges_ensure_node.
  - by rewrite !nbr_ensure_node in Hcase.
Qed.

Lemma number_of_edges_foldl (rels : list Relationship) G (seen : gset (string * string)) :
  (∀ x y, nbr (Nx._succ G) x y ↔ (x, y) ∈ seen) →
  Nx.number_of_edges G = size seen →
  (∀ x y, nbr (Nx._succ (foldl add_relationship_edge G rels)) x y ↔
          (x, y) ∈ seen ∪ list_to_set (file_pair <$> rels)) ∧
  Nx.number_of_edges (foldl add_relationship_edge G rels) =
  size (seen ∪ list_to_set (file_pair <$> rels)).
Proof.
  revert G seen. induction rels as [|rel rels IH]; intros G seen Hnbr Hsize; simpl.
  - rewrite (right_id_L ∅ (∪) seen). done.
  - specialize (IH (add_relationship_edge G rel) (seen ∪ {[file_pair rel]})).
    rewrite <- (assoc_L (∪)) in IH. apply IH.
    + intros x y. unfold add_relationship_edge. rewrite nbr_add_edge, Hnbr.
      unfold file_pair. rewrite elem_of_union, elem_of_singleton.
      split; (intros [?|?]; [by left|right]); naive_solver.
    + unfold add_relationship_edge.
      destruct (number_of_edges_add_edge (source_file rel) (target_file rel)
                  (edge_attrs rel) G) as (k & -> & [[H ->]|[H ->]]).
      * apply Hnbr in H. rewrite Hsize.
        replace (seen ∪ {[file_pair rel]}) with seen; [lia|]. unfold file_pair. set_solver.
      * rewrite size_union, size_singleton; [lia|].
        rewrite Hnbr in H. unfold file_pair. set_solver.
Qed.

Lemma size_list_to_set_le `{Countable A} (l : list A) :
  size (list_to_set l : gset A) ≤ length l.
Proof.
  induction l as [|x l IH]; simpl.
  { change (size (∅ : gset A) ≤ 0). by rewrite size_empty. }
  rewrite size_union_alt, size_singleton.
  assert (size (list_to_set l ∖ {[x]} : gset A) ≤ size (list_to_set l : gset A)).
  { apply subseteq_size. set_solver. }
  lia.
Qed.

End EdgeCount.

(** Writing an edge twice is writing it once, and an edge that is in
    the graph can be rewritten before or after any other [add_edge]. *)
Section AddEdgeAlgebra.
Implicit Types (adj : Nx.adjacency) (G : Nx.DiGraph) (u v x y : string).

Lemma ensure_node_present n G : n ∈ keys (Nx._succ G) → Nx.ensure_node n G = G.
Proof. intros H. unfold Nx.ensure_node. by rewrite (proj2 (dict_has_true _ _) H). Qed.

Lemma nbr_key adj u v : nbr adj u v → u ∈ keys adj.
Proof. intros (nbrs & Hget & _). apply dict_get_is_Some. eauto. Qed.

Lemma add_edge_present u v d G :
  present G u v →
  Nx.add_edge u v d G =
  {| Nx._node := Nx._node G; Nx._succ := Nx.adj_put u v d (Nx._succ G) |}.
Proof.
  intros [Hnbr Hv]. unfold Nx.add_edge.
  rewrite (ensure_node_present u) by by eapply nbr_key.
  by rewrite (ensure_node_present v).
Qed.

Lemma present_add_edge u v d G : present (Nx.add_edge u v d G) u v.
Proof.
  split.
  - apply nbr_add_edge. auto.
  - unfold Nx.add_edge. simpl. apply keys_adj_put. right. apply ensure_node_key.
Qed.

Lemma present_add_edge_mono u v d G x y :
  present G x y → present (Nx.add_edge u v d G) x y.
Proof.
  intros [Hnbr Hy]. split.
  - apply nbr_add_edge. auto.
  - unfold Nx.add_edge. simpl. apply keys_adj_put. right.
    by do 2 apply ensure_node_keys_mono.
Qed.

Lemma adj_put_put u v d d' adj :
  u ∈ keys adj →
  Nx.adj_put u v d (Nx.adj_put u v d' adj) = Nx.adj_put u v d adj.
Proof.
  intros [nbrs Hget]%dict_get_is_Some. unfold Nx.adj_put. rewrite Hget.
  rewrite dict_get_set, decide_True by done.
  by rewrite !dict_set_set.
Qed.

Lemma add_edge_twice u v d d' G :
  Nx.add_edge u v d (Nx.add_edge u v d' G) = Nx.add_edge u v d G.
Proof.
  rewrite (add_edge_present u v d) by apply present_add_edge.
  unfold Nx.add_edge. simpl. f_equal.
  apply adj_put_put, ensure_node_keys_mono, ensure_node_key.
Qed.

Lemma adj_put_comm u v d u' v' d' adj :
  nbr adj u v → u' ∈ keys adj → (u, v) ≠ (u', v') →
  Nx.adj_put u v d (Nx.adj_put u' v' d' adj) =
  Nx.adj_put u' v' d' (Nx.adj_put u v d adj).
Proof.
  intros (nbrs & Hget & Hv) [nbrs' Hget']%dict_get_is_Some Hne.
  unfold Nx.adj_put. rewrite Hget, Hget'.
  destruct (decide (u = u')) as [<-|Hu].
  - rewrite Hget in Hget'. injection Hget' as <-.
    rewrite !dict_get_set, !decide_True by done. rewrite !dict_set_set.
    f_equal. apply dict_set_comm; [congruence|done].
  - rewrite !dict_get_set, !decide_False by done. rewrite Hget, Hget'.
    apply dict_set_comm; [done|]. apply dict_get_is_Some. eauto.
Qed.

Lemma ensure_node_adj_put n u v d G :
  u ∈ keys (Nx._succ G) →
  Nx.ensure_node n {| Nx._node := Nx._node G;
                      Nx._succ := Nx.adj_put u v d (Nx._succ G) |} =
  {| Nx._node := Nx._node (Nx.ensure_node n G);
     Nx._succ := Nx.adj_put u v d (Nx._succ (Nx.ensure_node n G)) |}.
Proof.
  intros Hu. unfold Nx.ensure_node. simpl.
  assert (dict_has n (Nx.adj_put u v d (Nx._succ G)) = dict_has n (Nx._succ G)) as ->.
  { apply eq_true_iff_eq. rewrite !dict_has_true, keys_adj_put.
    split; [intros [->|?]; done|auto]. }
  destruct (dict_has n (Nx._succ G)); [done|]. simpl. f_equal.
  apply dict_get_is_Some in Hu as [nbrs Hget].
  unfold Nx.adj_put. rewrite dict_get_app, Hget.
  symmetry. apply dict_set_app_present. apply dict_get_is_Some. eauto.
Qed.

Lemma add_edge_comm u v d u' v' d' G :
  present G u v → (u, v) ≠ (u', v') →
  Nx.add_edge u v d (Nx.add_edge u' v' d' G) =
  Nx.add_edge u' v' d' (Nx.add_edge u v d G).
Proof.
  intros Hp Hne.
  rewrite (add_edge_present u v d (Nx.add_edge u' v' d' G))
    by by apply present_add_edge_mono.
  rewrite (add_edge_present u v d G) by done.
  destruct Hp as [Hnbr Hv]. pose proof (nbr_key _ _ _ Hnbr) as Hu.
  unfold Nx.add_edge at 3.
  rewrite (ensure_node_adj_put u' u v d G) by done.
  rewrite (ensure_node_adj_put v' u v d (Nx.ensure_node u' G))
    by by apply ensure_node_keys_mono.
  unfold Nx.add_edge. simpl. f_equal.
  apply adj_put_comm; [| |done].
  - by rewrite !nbr_ensure_node.
  - apply ensure_node_keys_mono, ensure_node_key.
Qed.

End AddEdgeAlgebra.

(* ===================================================================== *)
(** * What discovery does to the graph *)
(* ===================================================================== *)

(** The loops of the discovery, seen from the graph: one [add_edge] for
    each relationship, in the order of [self.relationships]. *)
Section Records.

Lemma records_ret : records (mret tt) [].
Proof. intros self. done. Qed.

Lemma records_record rel : records (record_relationship rel) [rel].
Proof. intros self. done. Qed.

Lemma records_for_each {A} (l : list A) (body : A → KG unit) out :
  (∀ x, records (body x) (out x)) → records (for_each l body) (flat_map out l).
Proof.
  intros Hbody. induction l as [|x l IH]; intros self; simpl; [done|].
  rewrite exec_bind. destruct (IH (exec (body x) self)) as [-> ->].
  destruct (Hbody x self) as [-> ->]. by rewrite foldl_app.
Qed.

Lemma records_compare_columns file1 file2 df1 df2 col1 col2 :
  records (compare_columns file1 file2 df1 df2 col1 col2)
          (pair_relationships file1 file2 df1 df2 col1 col2).
Proof.
  unfold pair_relationships, compare_columns.
  repeat case_match; (apply records_record || apply records_ret).
Qed.

Lemma discover_relationships_exec dfs self :
  graph (exec (discover_relationships dfs) self) =
    foldl add_relationship_edge (graph self) (eval (discover_relationships dfs) self) ∧
  metadata (exec (discover_relationships dfs) self) = metadata self.
Proof.
  rewrite discover_relationships_eval.
  unfold discover_relationships. rewrite !exec_bind.
  change (exec (gets relationships) ?s) with s.
  set (loops := for_each _ _).
  assert (records loops
    (flat_map (λ '(file1, file2), dataset_pair_relationships dfs file1 file2)
              (ordered_pairs (keys dfs)))) as Hrec.
  { rewrite <- (flat_map_enumerate_drop (dataset_pair_relationships dfs)).
    apply (records_for_each _ _
      (λ '(i, file1), flat_map (dataset_pair_relationships dfs file1)
                               (drop (S i) (keys dfs)))).
    intros [i file1]. apply records_for_each. intros file2.
    unfold dataset_pair_relationships.
    apply records_for_each. intros col1. apply records_for_each. intros col2.
    apply records_compare_columns. }
  destruct (Hrec (exec (modify (set_relationships [])) self)) as [-> ->]. done.
Qed.

End Records.

(** Where a relationship comes from, and what swapping the two datasets
    does to it. *)
Section DiscoveryMore.

Lemma elem_of_discover_relationships_iff dfs self rel :
  rel ∈ eval (discover_relationships dfs) self ↔
  ∃ file1 file2 col1 col2,
    (file1, file2) ∈ ordered_pairs (keys dfs) ∧
    col1 ∈ df_columns (frame_of dfs file1) ∧
    col2 ∈ df_columns (frame_of dfs file2) ∧
    rel ∈ pair_relationships file1 file2 (frame_of dfs file1) (frame_of dfs file2)
                             col1 col2.
Proof.
  rewrite discover_relationships_eval. split.
  - intros ([file1 file2] & Hpair & Hrel)%list_elem_of_In%in_flat_map.
    apply in_flat_map in Hrel as (col1 & Hc1 & Hrel).
    apply in_flat_map in Hrel as (col2 & Hc2 & Hrel).
    exists file1, file2, col1, col2. by rewrite <- !list_elem_of_In in *.
  - intros (file1 & file2 & col1 & col2 & Hpair & Hc1 & Hc2 & Hrel).
    apply list_elem_of_In, in_flat_map. exists (file1, file2).
    split; [by apply list_elem_of_In|].
    apply in_flat_map. exists col1. split; [by apply list_elem_of_In|].
    apply in_flat_map. exists col2. split; by apply list_elem_of_In.
Qed.

Lemma is_potential_join_key_sym col1 col2 :
  _is_potential_join_key col1 col2 = _is_potential_join_key col2 col1.
Proof.
  unfold _is_potential_join_key. f_equal.
  by rewrite (comm_L (∩) (list_to_set (PyStr.split_sep (PyStr.lower col1)))).
Qed.

Lemma calculate_value_overlap_sym s1 s2 :
  _calculate_value_overlap s1 s2 = _calculate_value_overlap s2 s1.
Proof. rewrite !calculate_value_overlap_jaccard. apply jaccard_sym. Qed.

Lemma pair_relationships_flip file1 file2 df1 df2 col1 col2 :
  flip <$> pair_relationships file1 file2 df1 df2 col1 col2 =
  pair_relationships file2 file1 df2 df1 col2 col1.
Proof.
  destruct (decide (col1 = col2)) as [->|Hne].
  - by rewrite !pair_relationships_exact.
  - rewrite !pair_relationships_differ by done. simpl.
    rewrite (is_potential_join_key_sym col2 col1).
    rewrite (calculate_value_overlap_sym (df_getitem df2 col2)).
    by repeat case_match.
Qed.

Lemma pair_relationships_confidence file1 file2 df1 df2 col1 col2 rel :
  rel ∈ pair_relationships file1 file2 df1 df2 col1 col2 →
  PyFloat.ltb PyFloat.lit_0_1 (confidence rel) = true ∧
  PyFloat.ltb PyFloat.lit_0_95 (confidence rel) = false.
Proof.
  destruct (decide (col1 = col2)) as [->|Hne].
  - rewrite pair_relationships_exact. intros ->%list_elem_of_singleton.
    split; vm_compute; reflexivity.
  - rewrite pair_relationships_differ by done. simpl.
    destruct (_is_potential_join_key col1 col2); [|by intros H; inversion H].
    destruct (PyFloat.gtb _ _) eqn:Hgt; [|by intros H; inversion H].
    intros ->%list_elem_of_singleton. simpl. unfold PyFloat.min.
    destruct (PyFloat.ltb PyFloat.lit_0_95 _) eqn:Hlt.
    + split; vm_compute; reflexivity.
    + split; [exact Hgt|exact Hlt].
Qed.

Lemma pair_relationships_kind file1 file2 df1 df2 col1 col2 rel :
  rel ∈ pair_relationships file1 file2 df1 df2 col1 col2 →
  (relationship_type rel = "exact_name_match" ∧ col1 = col2 ∧
   confidence rel = PyFloat.lit_0_9) ∨
  (relationship_type rel = "join_key" ∧ col1 ≠ col2 ∧ shares_keyword col1 col2).
Proof.
  destruct (decide (col1 = col2)) as [->|Hne].
  - rewrite pair_relationships_exact. intros ->%list_elem_of_singleton. by left.
  - rewrite pair_relationships_differ by done. simpl.
    destruct (_is_potential_join_key col1 col2) eqn:Hkey; [|by intros H; inversion H].
    destruct (PyFloat.gtb _ _) eqn:Hgt; [|by intros H; inversion H].
    intros ->%list_elem_of_singleton. right.
    split; [done|]. split; [done|]. by apply is_potential_join_key_spec.
Qed.

Lemma ordered_pairs_distinct {A} (l : list A) x y :
  NoDup l → (x, y) ∈ ordered_pairs l → x ≠ y.
Proof.
  intros Hnd Hxy ->. by apply (ordered_pairs_one_way l y y).
Qed.

Lemma ordered_pairs_total {A} (l : list A) x y :
  x ∈ l → y ∈ l → x ≠ y → (x, y) ∈ ordered_pairs l ∨ (y, x) ∈ ordered_pairs l.
Proof.
  induction l as [|z l IH]; [by intros H; inversion H|].
  intros Hx Hy Hne. simpl. rewrite !elem_of_app, !list_elem_of_fmap.
  apply elem_of_cons in Hx as [->|Hx]; apply elem_of_cons in Hy as [->|Hy].
  - done.
  - left. left. eauto.
  - right. left. eauto.
  - destruct (IH Hx Hy Hne); auto.
Qed.

Lemma dict_get_Permutation {V} (d d' : list (string * V)) k :
  NoDup (keys d) → d ≡ₚ d' → dict_get k d' = dict_get k d.
Proof.
  intros Hnd Hperm.
  assert (NoDup (keys d')) as Hnd'. { unfold keys in *. by rewrite <- Hperm. }
  destruct (dict_get k d) as [v|] eqn:Hget.
  - apply dict_get_NoDup; [done|]. rewrite <- Hperm. by apply dict_get_elem_of.
  - apply dict_get_None. apply dict_get_None in Hget. unfold keys in *.
    by rewrite <- Hperm.
Qed.

End DiscoveryMore.

(** Adding the edges of a list of relationships a second time changes
    nothing. *)
Section Idempotence.

Lemma present_foldl rels G x y :
  present G x y → present (foldl add_relationship_edge G rels) x y.
Proof.
  revert G. induction rels as [|rel rels IH]; intros G Hp; simpl; [done|].
  apply IH. by apply present_add_edge_mono.
Qed.

Lemma foldl_add_comm rels rel G :
  present G (source_file rel) (target_file rel) →
  file_pair rel ∉ file_pair <$> rels →
  foldl add_relationship_edge (add_relationship_edge G rel) rels =
  add_relationship_edge (foldl add_relationship_edge G rels) rel.
Proof.
  revert G. induction rels as [|r rels IH]; intros G Hp Hnot; simpl; [done|].
  rewrite fmap_cons, not_elem_of_cons in Hnot. destruct Hnot as [Hne Hnot].
  rewrite <- IH; [|by apply present_add_edge_mono|done]. f_equal.
  unfold add_relationship_edge. symmetry. apply add_edge_comm; [done|].
  unfold file_pair in Hne. done.
Qed.

Lemma foldl_add_absorb rels rel G :
  present G (source_file rel) (target_file rel) →
  file_pair rel ∈ file_pair <$> rels →
  foldl add_relationship_edge (add_relationship_edge G rel) rels =
  foldl add_relationship_edge G rels.
Proof.
  revert G. induction rels as [|r rels IH]; intros G Hp Hin; simpl.
  { inversion Hin. }
  destruct (decide (file_pair rel = file_pair r)) as [Heq|Hne].
  - f_equal. unfold add_relationship_edge. unfold file_pair in Heq.
    injection Heq as -> ->. apply add_edge_twice.
  - rewrite fmap_cons in Hin. apply elem_of_cons in Hin as [?|Hin]; [done|].
    rewrite <- (IH (add_relationship_edge G r)); [|by apply present_add_edge_mono|done].
    f_equal. unfold add_relationship_edge. symmetry. apply add_edge_comm; [done|].
    unfold file_pair in Hne. done.
Qed.

Lemma foldl_add_idemp rels G :
  foldl add_relationship_edge (foldl add_relationship_edge G rels) rels =
  foldl add_relationship_edge G rels.
Proof.
  revert G. induction rels as [|rel rels IH]; intros G; simpl; [done|].
  set (K := add_relationship_edge G rel).
  assert (present K (source_file rel) (target_file rel)) as HK
    by apply present_add_edge.
  assert (present (foldl add_relationship_edge K rels)
                  (source_file rel) (target_file rel)) as HF
    by by apply present_foldl.
  destruct (decide (file_pair rel ∈ file_pair <$> rels)) as [Hin|Hnot].
  - rewrite foldl_add_absorb by done. apply IH.
  - rewrite foldl_add_comm by done. rewrite IH.
    rewrite <- foldl_add_comm by done. f_equal.
    unfold K, add_relationship_edge. apply add_edge_twice.
Qed.

Lemma LivingKnowledgeGraph_eq (s s' : LivingKnowledgeGraph) :
  graph s = graph s' → metadata s = metadata s' → relationships s = relationships s' →
  s = s'.
Proof. destruct s, s'. simpl. by intros -> -> ->. Qed.

End Idempotence.

(* ===================================================================== *)
(** * What the scan does *)
(* ===================================================================== *)

(** The scan, one file of the listing after the other. *)
Section Scan.
Implicit Types (files : list (string * DataFrame)) (self : LivingKnowledgeGraph).

Lemma set_metadata_id self : set_metadata (metadata self) self = self.
Proof. by destruct self. Qed.

Lemma exec_column_loop file_name df cols self known :
  metadata self !! file_name = Some known →
  exec (for_each cols (λ col,
          modify (λ self,
            set_metadata
              (<[file_name :=
                   <[col := column_metadata file_name col (df_getitem df col)]>
                     (default ∅ (metadata self !! file_name))]>
                 (metadata self))
              self))) self =
  set_metadata
    (<[file_name :=
         foldl (λ cols col,
                  <[col := column_metadata file_name col (df_getitem df col)]> cols)
               known cols]> (metadata self)) self.
Proof.
  revert self known. induction cols as [|col cols IH]; intros self known Hknown; simpl.
  - rewrite insert_id by done. by rewrite set_metadata_id.
  - rewrite exec_bind.
    change (exec (modify ?f) self) with (f self).
    erewrite IH.
    2:{ simpl. apply lookup_insert_eq. }
    simpl. rewrite Hknown. simpl. unfold set_metadata. simpl.
    by rewrite insert_insert_eq.
Qed.

Lemma scan_data_products_snoc files file_name df :
  scan_data_products (files ++ [(file_name, df)]) =
  (dataframes ← scan_data_products files;
   let dataframes := dict_set file_name df dataframes in
   _ ← modify (λ self, set_metadata (<[file_name := ∅]> (metadata self)) self);
   _ ← for_each (df_columns df) (λ col,
         modify (λ self,
           set_metadata
             (<[file_name :=
                  <[col := column_metadata file_name col (df_getitem df col)]>
                    (default ∅ (metadata self !! file_name))]>
                (metadata self))
             self));
   _ ← modify (λ self,
         set_graph
           (Nx.add_node file_name
              {| Nx.na_type := "data_product";
                 Nx.na_columns := df_columns df;
                 Nx.na_shape := (df_len df, length (df_columns df)) |}
              (graph self))
           self);
   mret dataframes).
Proof. unfold scan_data_products. by rewrite foldl_app. Qed.

Lemma eval_scan_snoc files file_name df self :
  eval (scan_data_products (files ++ [(file_name, df)])) self =
  dict_set file_name df (eval (scan_data_products files) self).
Proof.
  rewrite scan_data_products_snoc. rewrite eval_bind. cbv zeta.
  by rewrite !eval_bind.
Qed.

Lemma exec_scan_snoc files file_name df self :
  exec (scan_data_products (files ++ [(file_name, df)])) self =
  set_graph
    (Nx.add_node file_name (node_attrs df) (graph (exec (scan_data_products files) self)))
    (set_metadata
       (<[file_name := frame_metadata file_name df]>
          (metadata (exec (scan_data_products files) self)))
       (exec (scan_data_products files) self)).
Proof.
  rewrite scan_data_products_snoc. rewrite exec_bind. cbv zeta.
  set (s := exec (scan_data_products files) self).
  rewrite exec_bind. change (exec (modify ?f) s) with (f s).
  rewrite exec_bind.
  erewrite exec_column_loop.
  2:{ simpl. apply lookup_insert_eq. }
  rewrite exec_bind. simpl. unfold exec. simpl.
  unfold set_graph, set_metadata, frame_metadata, node_attrs. simpl.
  by rewrite insert_insert_eq.
Qed.

Lemma eval_scan_state files self self' :
  eval (scan_data_products files) self = eval (scan_data_products files) self'.
Proof.
  induction files as [|[f df] files IH] using rev_ind; [done|].
  by rewrite !eval_scan_snoc, IH.
Qed.

Lemma dict_get_scan files self file_name :
  dict_get file_name (eval (scan_data_products files) self) =
  dict_get file_name (reverse files).
Proof.
  induction files as [|[f df] files IH] using rev_ind; [done|].
  rewrite eval_scan_snoc, dict_get_set, reverse_snoc. simpl.
  by destruct (decide (file_name = f)).
Qed.

Lemma keys_scan files self x :
  x ∈ keys (eval (scan_data_products files) self) ↔ x ∈ keys files.
Proof.
  rewrite <- !dict_get_is_Some, dict_get_scan, !dict_get_is_Some.
  unfold keys. by rewrite fmap_reverse, elem_of_reverse.
Qed.

Lemma NoDup_keys_dict_set {V} k (v : V) d :
  NoDup (keys d) → NoDup (keys (dict_set k v d)).
Proof.
  intros Hnd. destruct (dict_get k d) as [w|] eqn:Hget.
  - by rewrite keys_dict_set_present.
  - rewrite dict_set_absent by done. unfold keys in *. rewrite fmap_app. simpl.
    apply NoDup_app. split; [done|]. split; [|apply NoDup_singleton].
    intros x Hx ->%list_elem_of_singleton. by apply dict_get_None in Hget.
Qed.

Lemma NoDup_keys_scan files self :
  NoDup (keys (eval (scan_data_products files) self)).
Proof.
  induction files as [|[f df] files IH] using rev_ind; [constructor|].
  rewrite eval_scan_snoc. by apply NoDup_keys_dict_set.
Qed.

Lemma relationships_scan files self :
  relationships (exec (scan_data_products files) self) = relationships self.
Proof.
  induction files as [|[f df] files IH] using rev_ind; [done|].
  by rewrite exec_scan_snoc.
Qed.

Lemma edges_add_node n attr G : Nx.edges (Nx.add_node n attr G) = Nx.edges G.
Proof.
  unfold Nx.add_node, Nx.edges. destruct (dict_has n (Nx._succ G)); [done|].
  simpl. rewrite flat_map_app. simpl. by rewrite app_nil_r.
Qed.

Lemma edges_scan files self :
  Nx.edges (graph (exec (scan_data_products files) self)) = Nx.edges (graph self).
Proof.
  induction files as [|[f df] files IH] using rev_ind; [done|].
  rewrite exec_scan_snoc. simpl. by rewrite edges_add_node.
Qed.

Lemma has_node_add_node n attr G x :
  Nx.has_node (Nx.add_node n attr G) x = true ↔ Nx.has_node G x = true ∨ x = n.
Proof.
  unfold Nx.add_node, Nx.has_node. destruct (dict_has n (Nx._succ G)); simpl.
  - rewrite !dict_has_true, keys_dict_set. tauto.
  - rewrite !dict_has_true. unfold keys. rewrite fmap_app, elem_of_app. simpl.
    by rewrite list_elem_of_singleton.
Qed.

Lemma has_node_scan files self x :
  Nx.has_node (graph (exec (scan_data_products files) self)) x = true ↔
  Nx.has_node (graph self) x = true ∨ x ∈ keys files.
Proof.
  induction files as [|[f df] files IH] using rev_ind.
  - simpl. split; [auto|]. intros [?|H]; [done|inversion H].
  - rewrite exec_scan_snoc. simpl. rewrite has_node_add_node, IH.
    unfold keys. rewrite fmap_app, elem_of_app. simpl.
    rewrite list_elem_of_singleton. tauto.
Qed.

Lemma metadata_scan files self file_name :
  metadata (exec (scan_data_products files) self) !! file_name =
  match dict_get file_name (eval (scan_data_products files) self) with
  | Some df => Some (frame_metadata file_name df)
  | None => metadata self !! file_name
  end.
Proof.
  induction files as [|[f df] files IH] using rev_ind; [done|].
  rewrite exec_scan_snoc, eval_scan_snoc, dict_get_set. simpl.
  destruct (decide (file_name = f)) as [->|Hne].
  - by rewrite lookup_insert_eq.
  - by rewrite lookup_insert_ne.
Qed.

Lemma frame_metadata_lookup file_name df col :
  frame_metadata file_name df !! col =
  if decide (col ∈ df_columns df)
  then Some (column_metadata file_name col (df_getitem df col)) else None.
Proof.
  unfold frame_metadata.
  enough (∀ (cols : list string) (known : gmap string ColumnMetadata),
    foldl (λ m c, <[c := column_metadata file_name c (df_getitem df c)]> m) known cols
      !! col =
    if decide (col ∈ cols)
    then Some (column_metadata file_name col (df_getitem df col))
    else known !! col) as Hgen.
  { rewrite Hgen. by case_decide. }
  induction cols as [|c cols IH]; intros known; simpl.
  - destruct (decide (col ∈ [])) as [H|_]; [inversion H|done].
  - rewrite IH. destruct (decide (col ∈ cols)) as [Hin|Hnot].
    + rewrite decide_True; [done|]. by right.
    + destruct (decide (col = c)) as [->|Hne].
      * rewrite lookup_insert_eq. rewrite decide_True; [done|]. by left.
      * rewrite lookup_insert_ne by done. rewrite decide_False; [done|].
        intros [?|?]%elem_of_cons; done.
Qed.

Lemma dom_frame_metadata file_name df :
  dom (frame_metadata file_name df) = list_to_set (df_columns df).
Proof.
  apply set_eq. intros col. rewrite elem_of_dom, frame_metadata_lookup, elem_of_list_to_set.
  case_decide; split; try done; try eauto; by intros [? ?].
Qed.

End Scan.

(* ===================================================================== *)
(** * The join columns of a path *)
(* ===================================================================== *)

(** The loop over [range(len(path) - 1)] is a loop over the steps of the
    path. *)
Section JoinColumns.
Implicit Types (path : list string) (self : LivingKnowledgeGraph).

Lemma walk_steps (R : relation string) a b path :
  walk R a b path → ∀ x y, (x, y) ∈ steps path → R x y.
Proof.
  induction 1 as [a|a x b l HR Hwalk IH]; intros u v Huv.
  - inversion Huv.
  - destruct (walk_head _ _ _ _ Hwalk) as [l' ->].
    unfold steps in Huv. simpl in Huv.
    apply elem_of_cons in Huv as [[= -> ->]|Huv]; [done|]. by apply IH.
Qed.

Lemma get_join_columns_for_path_eval path self :
  eval (get_join_columns_for_path path) self =
  flat_map (λ '(file1, file2),
    match List.find (links file1 file2) (relationships self) with
    | Some rel => [endpoints rel]
    | None => []
    end) (steps path).
Proof.
  unfold get_join_columns_for_path, eval. simpl.
  induction path as [|a [|b rest] IH]; [done..|].
  change (steps (a :: b :: rest)) with ((a, b) :: steps (b :: rest)).
  simpl flat_map at 2. rewrite <- IH.
  replace (length (a :: b :: rest) - 1) with (S (length rest)) by (simpl; lia).
  replace (length (b :: rest) - 1) with (length rest) by (simpl; lia).
  simpl seq. simpl flat_map at 1. f_equal.
  rewrite <- seq_shift, flat_map_concat_map, map_map, <- flat_map_concat_map.
  done.
Qed.

Lemma find_links file1 file2 rels :
  match List.find (links file1 file2) rels with
  | Some rel => rel ∈ rels ∧ links file1 file2 rel = true
  | None => ¬ related rels file1 file2
  end.
Proof.
  destruct (List.find _ _) as [rel|] eqn:Hfind.
  - apply find_some in Hfind as [Hin Hlinks]. by apply list_elem_of_In in Hin.
  - intros (rel & Hin%list_elem_of_In & Hlinks).
    by rewrite (find_none _ _ Hfind rel Hin) in Hlinks.
Qed.

Lemma links_spec file1 file2 rel :
  links file1 file2 rel = true ↔
  (source_file rel = file1 ∧ target_file rel = file2) ∨
  (source_file rel = file2 ∧ target_file rel = file1).
Proof.
  unfold links. rewrite orb_true_iff, !bool_decide_eq_true. done.
Qed.

Lemma join_columns_cover_steps path self :
  (∀ file1 file2, (file1, file2) ∈ steps path →
                  related (relationships self) file1 file2) →
  Forall2 (λ '(file1, file2) t,
             ∃ rel, rel ∈ relationships self ∧ links file1 file2 rel = true ∧
                    t = endpoints rel)
          (steps path) (eval (get_join_columns_for_path path) self).
Proof.
  rewrite get_join_columns_for_path_eval.
  induction (steps path) as [|[f1 f2] l IH]; intros Hall; simpl; [constructor|].
  pose proof (find_links f1 f2 (relationships self)) as Hfind.
  destruct (List.find _ _) as [rel|].
  - destruct Hfind as [Hin Hlinks]. simpl. constructor; [eauto|].
    apply IH. intros x y Hxy. apply Hall. by right.
  - exfalso. apply Hfind, Hall. left.
Qed.

End JoinColumns.

(* ===================================================================== *)
(** * The join path is a shortest one *)
(* ===================================================================== *)

(** Each side of the search has reached every node within as many steps
    as it has expanded levels, and holds no node deeper than that; as long
    as the two sides are disjoint, the two ends are further apart than the
    two depths together. *)
Section Shortest.
Variable adj : Nx.adjacency.
Implicit Types (seen other pred succ : gmap string (option string)) (v w x : string).

Hypothesis adj_closed : ∀ x y, nbr adj x y → y ∈ keys adj.
Hypothesis adj_sym : ∀ x y, nbr adj x y → nbr adj y x.

Lemma within_mono root k k' x : k ≤ k' → within adj root k x → within adj root k' x.
Proof.
  induction 1 as [|k' _ IH]; [done|]. intros H. left. by apply IH.
Qed.

Lemma within_prepend a x' k b :
  nbr adj a x' → within adj x' k b → within adj a (S k) b.
Proof.
  intros Hnbr. revert b. induction k as [|k IH]; intros b; simpl.
  - intros ->. right. by exists a.
  - intros [H|(y & Hy & Hyb)].
    + left. by apply IH.
    + right. exists y. split; [by apply IH|done].
Qed.

Lemma walk_within a b l : walk (nbr adj) a b l → within adj a (length l - 1) b.
Proof.
  induction 1 as [a|a x b l HR Hwalk IH]; [done|].
  destruct (walk_head _ _ _ _ Hwalk) as [l' ->]. simpl in *.
  rewrite Nat.sub_0_r in IH. by apply within_prepend with x.
Qed.

Lemma within_meet a b k k' :
  within adj a (k + k') b → ∃ x, within adj a k x ∧ within adj b k' x.
Proof.
  revert b. induction k' as [|k' IH]; intros b.
  - rewrite Nat.add_0_r. intros H. by exists b.
  - rewrite Nat.add_succ_r. simpl. intros [H|(y & Hy & Hyb)].
    + destruct (IH b H) as (x & Hx1 & Hx2). exists x. split; [done|]. by left.
    + destruct (IH y Hy) as (x & Hx1 & Hx2). exists x. split; [done|].
      apply within_prepend with y; [by apply adj_sym|done].
Qed.

Lemma tree_path_det (m : gmap string (option string)) x l l' :
  tree_path m x l → tree_path m x l' → l = l'.
Proof.
  intros H. revert l'. induction H as [x Hx|x v l Hx Hpath IH]; intros l' H'.
  - inversion H' as [? Hx'|? ? ? Hx']; subst; [done|congruence].
  - inversion H' as [? Hx'|? v' l'' Hx' Hpath']; subst; [congruence|].
    rewrite Hx in Hx'. injection Hx' as <-. f_equal. by apply IH.
Qed.

Lemma tree_path_dom (m : gmap string (option string)) x l :
  tree_path m x l → x ∈ dom m.
Proof. intros H. apply elem_of_dom. inversion H; eauto. Qed.

Lemma depth_le_grown root seen seen' (level fringe fringe' : list string) k :
  side_tree adj root seen → (∀ v, v ∈ level → v ∈ dom seen) →
  grown (λ v x, v ∈ level ∧ nbr adj v x) seen seen' fringe fringe' →
  depth_le seen k → depth_le seen' (S k).
Proof.
  intros Htree Hlevel (new & _ & Hd & _ & Hold & Hparent) Hdepth x l Hpath.
  assert (∀ y, y ∈ dom seen → ∀ l', tree_path seen' y l' → length l' ≤ S k) as Hin.
  { intros y Hy l' Hl'. destruct (Htree y Hy) as (l0 & Hpath0 & _ & _).
    rewrite (tree_path_det seen' y l' l0); [by eapply Hdepth|done|].
    by eapply tree_path_mono. }
  destruct (decide (x ∈ dom seen)) as [Hx|Hx].
  - specialize (Hin x Hx l Hpath). lia.
  - inversion Hpath as [? Hroot|? v l' Hstep Hpath']; subst.
    + destruct (Hparent x None Hroot) as [H|[_ (v & ? & _)]]; [|done].
      exfalso. apply Hx, elem_of_dom. eauto.
    + destruct (Hparent x (Some v) Hstep) as [H|[_ (v' & [= <-] & Hv & _)]].
      { exfalso. apply Hx, elem_of_dom. eauto. }
      specialize (Hin v (Hlevel v Hv) l' Hpath'). simpl. lia.
Qed.

Lemma depth_le_mono seen k k' : k ≤ k' → depth_le seen k → depth_le seen k'.
Proof. intros Hle H x l Hpath. specialize (H x l Hpath). lia. Qed.

Lemma covers_expand root seen seen' (level fringe' : list string) k :
  side_inv adj root seen level →
  grown (λ v x, v ∈ level ∧ nbr adj v x) seen seen' [] fringe' →
  (∀ v w, v ∈ level → nbr adj v w → w ∈ dom seen') →
  covers adj root seen k → covers adj root seen' (S k).
Proof.
  intros (Hroot & _ & _ & Hclosed) (new & _ & Hd & _) Hall Hcov x.
  assert (dom seen ⊆ dom seen') as Hsub by (rewrite Hd; set_solver).
  simpl. intros [H|(y & Hy & Hyx)].
  - apply Hsub. by apply Hcov.
  - specialize (Hcov y Hy). destruct (Hclosed y Hcov) as [Hlevel|Hin].
    + by apply (Hall y).
    + apply Hsub. by apply Hin.
Qed.

(** When the two searches meet, no walk between the two ends is shorter
    than the two branches of the search trees put together. *)
Lemma search_loop_shortest fuel source target pred succ ff rf k k' :
  side_inv adj source pred ff → side_inv adj target succ rf → dom pred ## dom succ →
  depth_le pred k → depth_le succ k' →
  covers adj source pred k → covers adj target succ k' →
  ∀ pred' succ' w,
    Nx.search_loop fuel adj pred succ ff rf = Ok (pred', succ', w) →
    ∀ l1 l2 l, tree_path pred' w l1 → tree_path succ' w l2 →
               walk (nbr adj) source target l →
               length l1 + length l2 ≤ S (length l).
Proof.
  assert (Hfar : ∀ pred succ k k' l,
    dom pred ## dom succ → covers adj source pred k → covers adj target succ k' →
    walk (nbr adj) source target l → k + k' + 2 ≤ length l).
  { intros pred0 succ0 k0 k0' l Hdisj Hc1 Hc2 Hwalk.
    destruct (decide (k0 + k0' + 2 ≤ length l)) as [|Hshort]; [done|]. exfalso.
    apply walk_within in Hwalk.
    apply (within_mono _ _ (k0 + k0')) in Hwalk; [|lia].
    destruct (within_meet _ _ _ _ Hwalk) as (x & Hx1 & Hx2).
    apply Hc1 in Hx1. apply Hc2 in Hx2. set_solver. }
  revert pred succ ff rf k k'.
  induction fuel as [|fuel IH];
    intros pred succ ff rf k k' Hf Hr Hdisj Hd1 Hd2 Hc1 Hc2 pred' succ' w.
  - destruct ff as [|v ff], rf as [|v' rf]; simpl; done.
  - destruct ff as [|v ff]; [destruct rf; simpl; done|].
    destruct rf as [|v' rf]; [simpl; done|].
    cbn [Nx.search_loop].
    destruct (decide (length (v :: ff) ≤ length (v' :: rf))%nat) as [_|_].
    + destruct (expand_level_spec adj (v :: ff) pred succ [])
        as (pred1 & ff' & found & -> & Hgrown & Hres).
      { intros x Hx. by apply Hf. }
      cbn [obind].
      assert (depth_le pred1 (S k)) as Hd1'.
      { eapply depth_le_grown; [apply Hf| |exact Hgrown|done].
        intros x Hx. by apply Hf. }
      destruct found as [w1|].
      * intros [= <- <- <-] l1 l2 l Hl1 Hl2 Hwalk.
        specialize (Hd1' _ _ Hl1). specialize (Hd2 _ _ Hl2).
        pose proof (Hfar _ _ _ _ _ Hdisj Hc1 Hc2 Hwalk). lia.
      * apply (IH _ _ _ _ (S k) k').
        -- eapply (side_inv_expand adj adj_closed adj_sym); [exact Hf|exact Hgrown|].
           intros; by eapply Hres.
        -- done.
        -- destruct Hgrown as (new & _ & Hd & Hfresh & _). rewrite Hd.
           apply disjoint_union_l. split; [done|].
           intros x Hx%elem_of_list_to_set Hx'.
           destruct (Hfresh x Hx) as [_ (y & Hy & Hnbr)].
           by destruct (Hres y x Hy Hnbr).
        -- done.
        -- done.
        -- eapply covers_expand; [exact Hf|exact Hgrown| |done].
           intros; by eapply Hres.
        -- done.
    + destruct (expand_level_spec adj (v' :: rf) succ pred [])
        as (succ1 & rf' & found & -> & Hgrown & Hres).
      { intros x Hx. by apply Hr. }
      cbn [obind].
      assert (depth_le succ1 (S k')) as Hd2'.
      { eapply depth_le_grown; [apply Hr| |exact Hgrown|done].
        intros x Hx. by apply Hr. }
      destruct found as [w1|].
      * intros [= <- <- <-] l1 l2 l Hl1 Hl2 Hwalk.
        specialize (Hd1 _ _ Hl1). specialize (Hd2' _ _ Hl2).
        pose proof (Hfar _ _ _ _ _ Hdisj Hc1 Hc2 Hwalk). lia.
      * apply (IH _ _ _ _ k (S k')).
        -- done.
        -- eapply (side_inv_expand adj adj_closed adj_sym); [exact Hr|exact Hgrown|].
           intros; by eapply Hres.
        -- destruct Hgrown as (new & _ & Hd & Hfresh & _). rewrite Hd.
           apply disjoint_union_r. split; [done|].
           intros x Hx' Hx%elem_of_list_to_set.
           destruct (Hfresh x Hx) as [_ (y & Hy & Hnbr)].
           by destruct (Hres y x Hy Hnbr).
        -- done.
        -- done.
        -- done.
        -- eapply covers_expand; [exact Hr|exact Hgrown| |done].
           intros; by eapply Hres.
Qed.

End Shortest.

Section ShortestPath.
Implicit Types (G : Nx.DiGraph) (self : LivingKnowledgeGraph) (a b : string).

Lemma depth_le_start root : depth_le {[root := None]} 0.
Proof.
  intros x l Hpath. inversion Hpath as [? Hx|? v l' Hx _]; subst; [done|].
  apply lookup_singleton_Some in Hx as [_ [=]].
Qed.

Lemma covers_start adj root : covers adj root {[root := None]} 0.
Proof. intros x ->. rewrite dom_singleton_L. set_solver. Qed.

Lemma shortest_path_shortest G a b path :
  Nx.shortest_path (Nx.to_undirected G) a b = Ok path →
  ∀ l, walk (adjacent G) a b l → length path ≤ length l.
Proof.
  intros Hpath l Hwalk.
  destruct (Nx.has_node G a) eqn:Ha; last first.
  { rewrite shortest_path_missing_node in Hpath by auto. done. }
  destruct (Nx.has_node G b) eqn:Hb; last first.
  { rewrite shortest_path_missing_node in Hpath by auto. done. }
  destruct (decide (b = a)) as [->|Hab].
  { rewrite shortest_path_self in Hpath by done. injection Hpath as <-.
    destruct (walk_head _ _ _ _ Hwalk) as [l' ->]. simpl. lia. }
  set (adj := Nx.g_adj (Nx.to_undirected G)).
  assert (walk (nbr adj) a b l) as Hwalk'.
  { revert Hwalk. apply walk_subrel. intros x y. apply nbr_to_undirected. }
  revert Hpath. unfold Nx.shortest_path, Nx.bidirectional_shortest_path.
  rewrite !has_node_to_undirected, Ha, Hb. simpl.
  pose proof (_bidirectional_pred_succ_spec G a b Ha Hb) as Hspec.
  destruct (Nx._bidirectional_pred_succ _ a b) as [[[pred succ] w]|e|] eqn:Hsearch;
    [|done|done].
  destruct Hspec as (Hw1 & Hw2 & Hpred & Hsucc). simpl.
  destruct (Hpred w Hw1) as (l1 & Hpath1 & Hlen1 & Hwalk1).
  destruct (Hsucc w Hw2) as (l2 & Hpath2 & Hlen2 & Hwalk2).
  assert (length l1 + length l2 ≤ S (length l)) as Hshort.
  { unfold Nx._bidirectional_pred_succ in Hsearch.
    rewrite decide_False in Hsearch by done.
    eapply (search_loop_shortest adj (nbr_to_undirected_key G) (nbr_to_undirected_sym G)
              _ a b {[a := None]} {[b := None]} [a] [b] 0 0);
      [| | | | | | |exact Hsearch|exact Hpath1|exact Hpath2|exact Hwalk'].
    - by apply side_inv_start, node_to_undirected_key.
    - by apply side_inv_start, node_to_undirected_key.
    - rewrite !dom_singleton_L. set_solver.
    - apply depth_le_start.
    - apply depth_le_start.
    - apply covers_start.
    - apply covers_start. }
  rewrite (follow_tree_path _ _ _ _ Hpath1 Hlen1). simpl.
  assert (Symmetric (nbr adj)) as Hsym
    by (intros x y; apply nbr_to_undirected_sym).
  apply walk_reverse in Hwalk1; [|done].
  rewrite (walk_last _ _ _ _ Hwalk1).
  inversion Hpath2 as [x Hx|x v l2' Hx Hpath2']; subst.
  - rewrite Hx. destruct (size succ); simpl; intros [= <-];
      rewrite app_nil_r, length_reverse; simpl in Hshort; lia.
  - rewrite Hx. simpl in Hlen2.
    rewrite (follow_tree_path _ _ _ _ Hpath2') by lia. simpl. intros [= <-].
    rewrite length_app, length_reverse. simpl in Hshort. lia.
Qed.

(** [get_join_path] between two nodes of the graph: a shortest walk, or
    [None] when nothing connects them *)
Lemma get_join_path_cases self a b :
  Nx.has_node (graph self) a = true → Nx.has_node (graph self) b = true →
  (∃ path, eval (get_join_path a b) self = Ok (Some path) ∧
           walk (adjacent (graph self)) a b path ∧
           ∀ l, walk (adjacent (graph self)) a b l → length path ≤ length l) ∨
  (eval (get_join_path a b) self = Ok None ∧ ¬ connected (graph self) a b).
Proof.
  intros Ha Hb.
  pose proof (shortest_path_spec (graph self) a b Ha Hb) as Hspec.
  pose proof (shortest_path_shortest (graph self) a b) as Hshort.
  unfold get_join_path, eval. simpl.
  destruct (Nx.shortest_path _ a b) as [path|[]|]; try done.
  - left. exists path. split; [done|]. split; [done|]. by apply Hshort.
  - by right.
Qed.

End ShortestPath.

(* ===================================================================== *)
(** * The knowledge graph built at start-up *)
(* ===================================================================== *)

(** The scan starts from the empty graph and adds nodes only, so the
    edges after the discovery are those of the relationships. *)
Section Build.
Implicit Types (files : list (string * DataFrame)).

Lemma build_knowledge_graph_exec files self :
  exec (build_knowledge_graph files) self =
  exec (discover_relationships (eval (scan_data_products files) self))
       (exec (scan_data_products files) self).
Proof. unfold build_knowledge_graph. by rewrite !exec_bind. Qed.

Lemma build_knowledge_graph_eval files self :
  eval (build_knowledge_graph files) self = eval (scan_data_products files) self.
Proof. unfold build_knowledge_graph. by rewrite !eval_bind. Qed.

Lemma has_node_foldl_mono rels G x :
  Nx.has_node G x = true → Nx.has_node (foldl add_relationship_edge G rels) x = true.
Proof.
  revert G. induction rels as [|rel rels IH]; intros G HG; simpl; [done|].
  apply IH. by apply has_node_add_edge_mono.
Qed.

Lemma has_node_foldl rels G x :
  Nx.has_node (foldl add_relationship_edge G rels) x = true →
  Nx.has_node G x = true ∨
  ∃ rel, rel ∈ rels ∧ (x = source_file rel ∨ x = target_file rel).
Proof.
  revert G. induction rels as [|rel rels IH]; intros G; simpl; [auto|].
  intros [[?|[->| ->]]%has_node_add_edge|(r & ? & ?)]%IH; [auto| | |].
  - right. exists rel. split; [left|auto].
  - right. exists rel. split; [left|auto].
  - right. exists r. split; [by right|done].
Qed.

Lemma build_relationships files :
  relationships (exec (build_knowledge_graph files) init) =
  eval (discover_relationships (eval (scan_data_products files) init))
       (exec (scan_data_products files) init).
Proof. by rewrite build_knowledge_graph_exec, discover_relationships_stored. Qed.

Lemma build_has_edge files u v :
  has_edge (graph (exec (build_knowledge_graph files) init)) u v ↔
  ∃ rel, rel ∈ relationships (exec (build_knowledge_graph files) init) ∧
         source_file rel = u ∧ target_file rel = v.
Proof.
  rewrite build_knowledge_graph_exec.
  destruct (discover_relationships_exec (eval (scan_data_products files) init)
              (exec (scan_data_products files) init)) as [-> _].
  rewrite discover_relationships_stored, has_edge_foldl.
  split; [|auto]. intros [[d Hd]|?]; [|done].
  rewrite edges_scan in Hd. inversion Hd.
Qed.

Lemma build_adjacent files u v :
  adjacent (graph (exec (build_knowledge_graph files) init)) u v ↔
  related (relationships (exec (build_knowledge_graph files) init)) u v.
Proof.
  rewrite adjacent_has_edge, !build_has_edge. unfold related.
  setoid_rewrite links_spec. naive_solver.
Qed.

Lemma build_has_node files x :
  Nx.has_node (graph (exec (build_knowledge_graph files) init)) x = true ↔
  x ∈ keys files.
Proof.
  rewrite build_knowledge_graph_exec.
  destruct (discover_relationships_exec (eval (scan_data_products files) init)
              (exec (scan_data_products files) init)) as [-> _].
  split.
  - intros [[?|?]%has_node_scan|(rel & Hrel & Hx)]%has_node_foldl; [done|done|].
    apply discover_relationships_direction, elem_of_ordered_pairs_inv in Hrel.
    rewrite !keys_scan in Hrel. destruct Hx as [->| ->]; tauto.
  - intros Hx. apply has_node_foldl_mono, has_node_scan. by right.
Qed.

Lemma build_metadata files :
  metadata (exec (build_knowledge_graph files) init) =
  metadata (exec (scan_data_products files) init).
Proof.
  rewrite build_knowledge_graph_exec.
  by destruct (discover_relationships_exec (eval (scan_data_products files) init)
                 (exec (scan_data_products files) init)) as [_ ->].
Qed.

End Build.

(* ===================================================================== *)
(** * The verdict of the validation *)
(* ===================================================================== *)

Lemma flat_map_nil_iff {A B} (f : A → list B) (l : list A) :
  flat_map f l = [] ↔ ∀ x, x ∈ l → f x = [].
Proof.
  induction l as [|x l IH]; simpl.
  - split; [|done]. intros _ x Hx. inversion Hx.
  - rewrite app_nil, IH. setoid_rewrite elem_of_cons. naive_solver.
Qed.

(** Which rules can fail a plan: all issues of the rules 1, 2, 4 and 5
    are critical, those of the judge never are. *)
Section Severities.
Implicit Types (self : LivingKnowledgeGraph) (q : string) (files : list string).

Lemma no_critical_app (l1 l2 : list ValidationIssue) :
  (∀ issue, issue ∈ l1 ++ l2 → severity issue ≠ CRITICAL) ↔
  (∀ issue, issue ∈ l1 → severity issue ≠ CRITICAL) ∧
  (∀ issue, issue ∈ l2 → severity issue ≠ CRITICAL).
Proof. setoid_rewrite elem_of_app. naive_solver. Qed.

Lemma no_critical_all_critical (l : list ValidationIssue) :
  Forall (λ issue, severity issue = CRITICAL) l →
  (∀ issue, issue ∈ l → severity issue ≠ CRITICAL) ↔ l = [].
Proof.
  intros Hall. split.
  - destruct l as [|issue l]; [done|]. intros Hnone. exfalso.
    apply (Hnone issue); [left|]. by inversion Hall.
  - intros -> issue H. inversion H.
Qed.

Lemma file_existence_critical files self :
  Forall (λ issue, severity issue = CRITICAL)
         (eval (_validate_file_existence files) self).
Proof.
  rewrite eval_validate_file_existence. apply Forall_flat_map. intros file.
  case_decide; repeat constructor.
Qed.

Lemma column_existence_critical cols self :
  Forall (λ issue, severity issue = CRITICAL)
         (eval (_validate_column_existence cols) self).
Proof.
  rewrite eval_validate_column_existence. apply Forall_flat_map. intros [file columns].
  destruct (metadata self !! file); [|constructor].
  apply Forall_flat_map. intros col. case_decide; repeat constructor.
Qed.

Lemma check_join_cases files alias1 col1 alias2 col2 self :
  eval (check_join files (alias1, col1, alias2, col2)) self =
  match _resolve_alias_to_file alias1 files, _resolve_alias_to_file alias2 files with
  | Some file1, Some file2 =>
      match eval (_get_column_type file1 col1) self,
            eval (_get_column_type file2 col2) self with
      | Some type1, Some type2 =>
          if PyStr.truthy file1 && PyStr.truthy file2 &&
             PyStr.truthy type1 && PyStr.truthy type2 &&
             negb (_are_types_compatible type1 type2)
          then [incompatible_join_issue file1 col1 type1 file2 col2 type2]
          else []
      | _, _ => []
      end
  | _, _ => []
  end.
Proof.
  destruct (_resolve_alias_to_file alias1 files) as [file1|] eqn:Hfile1; last first.
  { unfold check_join. by rewrite Hfile1. }
  destruct (_resolve_alias_to_file alias2 files) as [file2|] eqn:Hfile2; last first.
  { unfold check_join. by rewrite Hfile1, Hfile2. }
  destruct (decide (file1 = EmptyString)) as [->|Hne1].
  { unfold check_join. rewrite Hfile1, Hfile2. simpl. by repeat case_match. }
  destruct (decide (file2 = EmptyString)) as [->|Hne2].
  { unfold check_join. rewrite Hfile1, Hfile2, andb_false_r. simpl.
    by repeat case_match. }
  rewrite (eval_check_join files alias1 col1 alias2 col2 file1 file2) by done.
  apply truthy_true in Hne1, Hne2. rewrite Hne1, Hne2. done.
Qed.

Lemma check_join_critical files m self :
  Forall (λ issue, severity issue = CRITICAL) (eval (check_join files m) self).
Proof.
  destruct m as [[[alias1 col1] alias2] col2]. rewrite check_join_cases.
  repeat case_match; repeat constructor.
Qed.

Lemma join_type_compatibility_critical q files self :
  Forall (λ issue, severity issue = CRITICAL)
         (eval (_validate_join_type_compatibility q files) self).
Proof.
  rewrite eval_validate_join_type_compatibility. apply Forall_flat_map.
  intros m. apply check_join_critical.
Qed.

Lemma sql_safety_critical q :
  Forall (λ issue, severity issue = CRITICAL ∧ rule issue = "sql_safety")
         (_validate_sql_safety q).
Proof.
  unfold _validate_sql_safety. apply Forall_flat_map. intros [kw msg].
  case_match; repeat constructor.
Qed.

Lemma sql_safety_nil q :
  _validate_sql_safety q = [] ↔
  ∀ kw, kw ∈ dangerous_keywords.*1 → PyStr.search_word kw q = false.
Proof.
  unfold _validate_sql_safety. rewrite flat_map_nil_iff. split.
  - intros Hnone kw ([kw' msg] & -> & Hin)%list_elem_of_fmap.
    specialize (Hnone _ Hin). simpl in *. by destruct (PyStr.search_word kw' q).
  - intros Hall [kw msg] Hin. rewrite Hall; [done|].
    apply list_elem_of_fmap. by exists (kw, msg).
Qed.

Lemma sql_syntax_no_critical q :
  (∀ issue, issue ∈ _validate_sql_syntax q → severity issue ≠ CRITICAL) ↔
  PyStr.search_word "SELECT" q = true ∧ PyStr.search_word "FROM" q = true.
Proof.
  unfold _validate_sql_syntax.
  destruct (PyStr.search_word "SELECT" q), (PyStr.search_word "FROM" q);
    case_decide; simpl; split;
    try (intros [? ?]; discriminate);
    try (intros _; split; reflexivity);
    try (intros _ issue Hin; repeat (apply elem_of_cons in Hin as [->|Hin]);
         try discriminate; by inversion Hin);
    intros Hnone; exfalso; (eapply Hnone; [left|reflexivity]).
Qed.

Lemma semantic_coherence_warning llm q files :
  Forall (λ issue, severity issue = WARNING ∧ rule issue = "semantic_coherence")
         (_validate_semantic_coherence llm q files) ∧
  length (_validate_semantic_coherence llm q files) ≤ 1.
Proof.
  unfold _validate_semantic_coherence. destruct llm as [judge|]; [|by split; [constructor|simpl; lia]].
  destruct (judge _ _); [|by split; [constructor|simpl; lia]].
  case_decide; split; repeat constructor.
Qed.

End Severities.

Section Verdict.
Implicit Types (self : LivingKnowledgeGraph) (q : string) (files : list string).

Lemma passed_iff_rules_silent llm q files cols self :
  (eval (validate_execution_plan llm q files cols) self).1 = true ↔
  eval (_validate_file_existence files) self = [] ∧
  eval (_validate_column_existence cols) self = [] ∧
  (PyStr.search_word "SELECT" q = true ∧ PyStr.search_word "FROM" q = true) ∧
  eval (_validate_join_type_compatibility q files) self = [] ∧
  _validate_sql_safety q = [].
Proof.
  rewrite eval_validate_execution_plan. simpl. rewrite existsb_is_critical.
  unfold issues_in_rule_order. rewrite !no_critical_app.
  rewrite (no_critical_all_critical _ (file_existence_critical files self)).
  rewrite (no_critical_all_critical _ (column_existence_critical cols self)).
  rewrite sql_syntax_no_critical.
  rewrite (no_critical_all_critical _ (join_type_compatibility_critical q files self)).
  rewrite (no_critical_all_critical (_validate_sql_safety q)); last first.
  { eapply Forall_impl; [apply sql_safety_critical|]. by intros ? [? _]. }
  assert (∀ issue,
    issue ∈ match llm with
            | Some _ => _validate_semantic_coherence llm q files
            | None => []
            end → severity issue ≠ CRITICAL) as Hjudge.
  { intros issue Hin. destruct llm as [judge|]; [|inversion Hin].
    destruct (semantic_coherence_warning (Some judge) q files) as [Hall _].
    rewrite Forall_forall in Hall. destruct (Hall _ Hin) as [-> _]. done. }
  tauto.
Qed.

End Verdict.

(** A word that stands between two non-word characters is found by the
    search for the keyword it spells. *)
Section Strings.

Lemma lower_upper_char c : PyStr.lower_char (PyStr.upper_char c) = PyStr.lower_char c.
Proof. destruct c as [[] [] [] [] [] [] [] []]; reflexivity. Qed.

Lemma lower_upper s : PyStr.lower (PyStr.upper s) = PyStr.lower s.
Proof.
  unfold PyStr.lower, PyStr.upper. induction s as [|c s IH]; simpl; [done|].
  by rewrite lower_upper_char, IH.
Qed.

Lemma prefix_ci_upper kw w rest :
  PyStr.upper w = kw → PyStr.prefix_ci kw (w +:+ rest) = Some rest.
Proof.
  intros <-. unfold PyStr.upper. induction w as [|c w IH]; simpl.
  - by destruct rest.
  - by rewrite Ascii.eqb_refl.
Qed.

Lemma at_word_end_rev_app pre acc acc' :
  pre ≠ EmptyString →
  PyStr.at_word_end (String.rev_app pre acc) =
  PyStr.at_word_end (String.rev_app pre acc').
Proof.
  revert acc acc'. induction pre as [|d pre IH]; intros acc acc' Hne; [done|].
  simpl. destruct pre as [|d' pre']; [done|]. by apply IH.
Qed.

Lemma at_word_end_rev_cons c pre :
  pre ≠ EmptyString →
  PyStr.at_word_end (String.rev (String c pre)) = PyStr.at_word_end (String.rev pre).
Proof. intros Hne. unfold String.rev. simpl. by apply at_word_end_rev_app. Qed.

Lemma search_from_intro kw pre rest prev :
  (pre = EmptyString → prev = false) →
  PyStr.at_word_end (String.rev pre) = true →
  PyStr.word_here kw rest = true →
  PyStr.search_from kw prev (pre +:+ rest) = true.
Proof.
  revert prev. induction pre as [|c pre IH]; intros prev Hprev Hend Hword.
  - rewrite Hprev by done. simpl. destruct rest; simpl; by rewrite Hword.
  - simpl. apply orb_true_iff. right.
    destruct pre as [|c' pre'].
    + simpl in Hend. apply negb_true_iff in Hend. rewrite Hend. simpl.
      destruct rest; simpl; by rewrite Hword.
    + apply IH; [done| |done]. by rewrite <- (at_word_end_rev_cons c).
Qed.

Lemma search_word_intro kw pre w post :
  PyStr.upper w = kw →
  PyStr.at_word_end (String.rev pre) = true → PyStr.at_word_end post = true →
  PyStr.search_word kw (pre +:+ w +:+ post) = true.
Proof.
  intros Hw Hpre Hpost. unfold PyStr.search_word.
  apply search_from_intro; [done|done|].
  unfold PyStr.word_here. by rewrite (prefix_ci_upper kw w post Hw).
Qed.

End Strings.

(* ===================================================================== *)
(** * The audit report *)
(* ===================================================================== *)

(** Where the issues stand in the report. *)
Section Report.
Implicit Types (issues : list ValidationIssue).

Lemma audit_report_lines_1 issues :
  audit_report_lines issues !! 1 =
  Some ("🚨 Erreurs critiques: " +:+ pretty (length (filter (λ i, severity i = CRITICAL) issues))).
Proof.
  unfold audit_report_lines.
  destruct (filter (λ i, severity i = CRITICAL) issues),
           (filter (λ i, severity i = WARNING) issues),
           (filter (λ i, severity i = INFO) issues); reflexivity.
Qed.

Lemma prefix_app_same (a b c : string) :
  String.prefix (a +:+ b) (a +:+ c) = String.prefix b c.
Proof.
  induction a as [|x a IH]; [done|]. simpl. by destruct (ascii_dec x x).
Qed.

(** The decimal numeral of a positive number does not begin with [0]. *)
Lemma pretty_N_go_first x s :
  (0 < x)%N → ∃ c t, pretty_N_go x s = String c t ∧ c ≠ "0"%char.
Proof.
  revert s. induction (N.lt_wf_0 x) as [x _ IH]; intros s Hx.
  rewrite pretty_N_go_step by done.
  destruct (N.eq_0_gt_0_cases (x `div` 10)) as [H0|Hpos].
  - rewrite H0, pretty_N_go_0. eexists _, _. split; [done|].
    apply N.div_small_iff in H0; [|done]. rewrite N.mod_small by done.
    intros Hc. apply (pretty_N_char_inj x 0) in Hc; lia.
  - apply IH; [|done]. by apply N.div_lt.
Qed.

Lemma pretty_nat_first n :
  0 < n → ∃ c t, pretty n = String c t ∧ c ≠ "0"%char.
Proof.
  intros Hn. unfold pretty, pretty_nat, pretty, pretty_N.
  rewrite decide_False by lia. apply pretty_N_go_first. lia.
Qed.

(** The report begins with the header, an empty line and the counter of
    the critical errors. *)
Lemma generate_audit_report_head issues :
  ∃ rest,
    generate_audit_report issues =
    ("=== TRUST LAYER - AUDIT REPORT ===" +:+ newline +:+ newline +:+
     "🚨 Erreurs critiques: ") +:+
    pretty (length (filter (λ i, severity i = CRITICAL) issues)) +:+ newline +:+ rest.
Proof.
  unfold generate_audit_report, audit_report_lines, PyStr.join.
  destruct (filter (λ i, severity i = CRITICAL) issues) as [|? ?],
           (filter (λ i, severity i = WARNING) issues) as [|? ?],
           (filter (λ i, severity i = INFO) issues) as [|? ?];
    eexists; reflexivity.
Qed.

Lemma report_counts_no_critical issues :
  String.prefix ("=== TRUST LAYER - AUDIT REPORT ===" +:+ newline +:+ newline +:+
                 "🚨 Erreurs critiques: 0" +:+ newline)
                (generate_audit_report issues) = true ↔
  length (filter (λ i, severity i = CRITICAL) issues) = 0.
Proof.
  destruct (generate_audit_report_head issues) as [rest ->].
  change ("=== TRUST LAYER - AUDIT REPORT ===" +:+ newline +:+ newline +:+
          "🚨 Erreurs critiques: 0" +:+ newline)
    with (("=== TRUST LAYER - AUDIT REPORT ===" +:+ newline +:+ newline +:+
           "🚨 Erreurs critiques: ") +:+ String "0" newline).
  rewrite prefix_app_same.
  destruct (length (filter (λ i, severity i = CRITICAL) issues)) as [|n] eqn:Hlen.
  - split; [done|]. intros _. unfold pretty, pretty_nat, pretty, pretty_N.
    rewrite decide_True by done. by destruct rest.
  - destruct (pretty_nat_first (S n)) as (c & t & -> & Hc); [lia|].
    split; [|done].
    change (String c t +:+ newline +:+ rest) with (String c (t +:+ newline +:+ rest)).
    cbn [String.prefix]. destruct (ascii_dec "0" c); [congruence|done].
Qed.

Lemma length_filter_critical issues :
  length (filter (λ i, severity i = CRITICAL) issues) = 0 ↔
  ∀ issue, issue ∈ issues → severity issue ≠ CRITICAL.
Proof.
  rewrite length_zero_iff_nil. split.
  - intros Hnil issue Hin Hcrit.
    assert (issue ∈ filter (λ i, severity i = CRITICAL) issues) as Hf
      by by apply list_elem_of_filter.
    rewrite Hnil in Hf. inversion Hf.
  - intros Hall. apply filter_none. intros issue Hin. by apply Hall.
Qed.


End Report.

(* ===================================================================== *)
(** * The planner's question to the knowledge graph *)
(* ===================================================================== *)

(** The planner only reads the knowledge graph. *)
Section Planning.

Lemma reads_get_join_path a b : reads (get_join_path a b).
Proof. intros self. done. Qed.

Lemma eval_join_path_info first mid final self :
  eval (join_path_info (first :: mid ++ [final])) self =
  match eval (get_join_path first final) self with
  | Ok (Some ((_ :: _) as path)) => Ok (eval (get_join_columns_for_path path) self)
  | Ok _ => Ok []
  | Raise e => Raise e
  | OutOfFuel => OutOfFuel
  end.
Proof.
  unfold join_path_info.
  rewrite decide_True by (simpl; rewrite length_app; simpl; lia).
  rewrite app_comm_cons, last_snoc.
  change (head ((first :: mid) ++ [final])) with (Some first). cbv iota beta.
  rewrite eval_bind_reads by apply reads_get_join_path.
  destruct (eval (get_join_path first final) self) as [[[|x path]|]|e|]; done.
Qed.

Lemma reads_join_path_info files : reads (join_path_info files).
Proof.
  intros self. unfold join_path_info.
  case_decide; [|done]. destruct (head files), (last files); try done.
  unfold exec, mbind, KG_bind. simpl.
  destruct (Nx.shortest_path _ _ _) as [[|x path]|[]|]; done.
Qed.

End Planning.

(* ===================================================================== *)
(** * Further properties                                                  *)
(* ===================================================================== *)

(** ** The scan *)

(** X1.  After [scan_data_products], every file of the listing is a key of
    the returned dictionary, bound to the frame loaded last under that
    name; it is a node of the graph; and [self.metadata] has an entry for
    it whose keys are exactly the columns of that frame, each column with
    the metadata computed from its cells (declared type, first hundred
    non-null cells, identifier flag, number of distinct non-null cells). *)
Theorem scan_data_products_registers files self file_name :
  file_name ∈ keys files →
  ∃ df cols,
    dict_get file_name (reverse files) = Some df ∧
    dict_get file_name (eval (scan_data_products files) self) = Some df ∧
    Nx.has_node (graph (exec (scan_data_products files) self)) file_name = true ∧
    metadata (exec (scan_data_products files) self) !! file_name = Some cols ∧
    dom cols = list_to_set (df_columns df) ∧
    ∀ col, col ∈ df_columns df →
           cols !! col = Some (column_metadata file_name col (df_getitem df col)).
Proof.
  intros Hin.
  assert (is_Some (dict_get file_name (eval (scan_data_products files) self)))
    as [df Hdf].
  { by apply dict_get_is_Some, keys_scan. }
  exists df, (frame_metadata file_name df).
  split; [by rewrite <- (dict_get_scan files self)|]. split; [done|].
  split; [apply has_node_scan; by right|].
  split; [by rewrite metadata_scan, Hdf|].
  split; [apply dom_frame_metadata|].
  intros col Hcol. by rewrite frame_metadata_lookup, decide_True.
Qed.

(** X1 on the example: the file [orders] *)
Lemma scan_data_products_registers_witness :
  ∃ df cols,
    dict_get "orders" (reverse Example.parquet_files) = Some df ∧
    dict_get "orders" (eval (scan_data_products Example.parquet_files) init) = Some df ∧
    Nx.has_node (graph (exec (scan_data_products Example.parquet_files) init))
                "orders" = true ∧
    metadata (exec (scan_data_products Example.parquet_files) init) !! "orders"
      = Some cols ∧
    dom cols = list_to_set (df_columns df) ∧
    ∀ col, col ∈ df_columns df →
           cols !! col = Some (column_metadata "orders" col (df_getitem df col)).
Proof.
  apply (scan_data_products_registers Example.parquet_files init "orders").
  compute_done.
Defined.

(** X2.  A scan only adds: it leaves the relationships and the edges of
    the graph as they were, the nodes afterwards are the old nodes and the
    files of the listing, and a dataset that is in [self.metadata] but not
    in the listing (its file is gone) keeps its entry.  The keys of the
    returned dictionary are the files of the listing, each once. *)
Theorem scan_data_products_keeps files self :
  let after := exec (scan_data_products files) self in
  let dataframes := eval (scan_data_products files) self in
  relationships after = relationships self ∧
  Nx.edges (graph after) = Nx.edges (graph self) ∧
  (∀ x, Nx.has_node (graph after) x = true ↔
        Nx.has_node (graph self) x = true ∨ x ∈ keys files) ∧
  (∀ file_name, file_name ∉ keys files →
                metadata after !! file_name = metadata self !! file_name) ∧
  dom (metadata after) = dom (metadata self) ∪ list_to_set (keys files) ∧
  NoDup (keys dataframes) ∧
  (∀ x, x ∈ keys dataframes ↔ x ∈ keys files).
Proof.
  intros after dataframes. unfold after, dataframes.
  split; [apply relationships_scan|]. split; [apply edges_scan|].
  split; [apply has_node_scan|]. split; [|split; [|split]].
  - intros f Hf. rewrite metadata_scan.
    rewrite <- (keys_scan files self), <- dict_get_None in Hf. by rewrite Hf.
  - apply set_eq. intros f.
    rewrite elem_of_union, elem_of_list_to_set, !elem_of_dom, metadata_scan.
    rewrite <- (keys_scan files self), <- dict_get_is_Some.
    destruct (dict_get f _) as [df|]; split; eauto.
    intros [?|[? ?]]; done.
  - apply NoDup_keys_scan.
  - apply keys_scan.
Qed.

(** ** The discovery *)

(** X3.  Every relationship that [discover_relationships] returns goes
    from one dataset of [dataframes] to a later, different one, between a
    column of the first and a column of the second; it is either an
    [exact_name_match] of two columns of the same name with confidence
    [0.9], or a [join_key] of two columns of different names that share a
    significant keyword.  (The keys of a [dict] do not repeat; the two
    column names are ASCII, where the tokens of the embedding are those of
    [re.split(r'[_\s]+', name.lower())].) *)
Theorem discover_relationships_well_formed dfs self rel :
  NoDup (keys dfs) →
  rel ∈ eval (discover_relationships dfs) self →
  PyStr.isascii (source_column rel) = true →
  PyStr.isascii (target_column rel) = true →
  source_file rel ≠ target_file rel ∧
  (source_file rel, target_file rel) ∈ ordered_pairs (keys dfs) ∧
  source_column rel ∈ df_columns (frame_of dfs (source_file rel)) ∧
  target_column rel ∈ df_columns (frame_of dfs (target_file rel)) ∧
  ((relationship_type rel = "exact_name_match" ∧
    source_column rel = target_column rel ∧ confidence rel = PyFloat.lit_0_9) ∨
   (relationship_type rel = "join_key" ∧
    source_column rel ≠ target_column rel ∧
    shares_keyword (source_column rel) (target_column rel))).
Proof.
  intros Hnd (file1 & file2 & col1 & col2 & Hpair & Hc1 & Hc2 & Hrel)
    %elem_of_discover_relationships_iff _ _.
  pose proof (pair_relationships_endpoints _ _ _ _ _ _ _ Hrel) as Hends.
  unfold endpoints in Hends. injection Hends as -> -> -> ->.
  split; [by apply (ordered_pairs_distinct (keys dfs))|].
  split; [done|]. split; [done|]. split; [done|].
  by apply pair_relationships_kind in Hrel.
Qed.

(** X3 on the example: the relationship between the two [name] columns *)
Lemma discover_relationships_well_formed_witness :
  source_file (exact_name_match "customers" "name" "orders" "name") ≠
    target_file (exact_name_match "customers" "name" "orders" "name") ∧
  (source_file (exact_name_match "customers" "name" "orders" "name"),
   target_file (exact_name_match "customers" "name" "orders" "name"))
    ∈ ordered_pairs (keys Example.dataframes) ∧
  source_column (exact_name_match "customers" "name" "orders" "name")
    ∈ df_columns (frame_of Example.dataframes
                    (source_file (exact_name_match "customers" "name" "orders" "name"))) ∧
  target_column (exact_name_match "customers" "name" "orders" "name")
    ∈ df_columns (frame_of Example.dataframes
                    (target_file (exact_name_match "customers" "name" "orders" "name"))) ∧
  ((relationship_type (exact_name_match "customers" "name" "orders" "name")
      = "exact_name_match" ∧
    source_column (exact_name_match "customers" "name" "orders" "name")
      = target_column (exact_name_match "customers" "name" "orders" "name") ∧
    confidence (exact_name_match "customers" "name" "orders" "name") = PyFloat.lit_0_9) ∨
   (relationship_type (exact_name_match "customers" "name" "orders" "name")
      = "join_key" ∧
    source_column (exact_name_match "customers" "name" "orders" "name")
      ≠ target_column (exact_name_match "customers" "name" "orders" "name") ∧
    shares_keyword
      (source_column (exact_name_match "customers" "name" "orders" "name"))
      (target_column (exact_name_match "customers" "name" "orders" "name")))).
Proof.
  apply (discover_relationships_well_formed Example.dataframes Example.scanned
           (exact_name_match "customers" "name" "orders" "name")).
  - compute_done.
  - rewrite example_relationships. right. left.
  - reflexivity.
  - reflexivity.
Defined.

(** X4.  The confidence of every relationship that discovery returns is
    above [0.1] and not above [0.95] (as floats compare). *)
Theorem discover_relationships_confidence_range dfs self rel :
  rel ∈ eval (discover_relationships dfs) self →
  PyFloat.ltb PyFloat.lit_0_1 (confidence rel) = true ∧
  PyFloat.ltb PyFloat.lit_0_95 (confidence rel) = false.
Proof.
  intros (file1 & file2 & df1 & df2 & col1 & col2 & Hrel)%elem_of_discover_relationships.
  by apply pair_relationships_confidence in Hrel.
Qed.

(** X4 on the example: the join key of confidence [3/5] *)
Lemma discover_relationships_confidence_range_witness :
  PyFloat.ltb PyFloat.lit_0_1
    (confidence (join_key "customers" "id" "orders" "customer_id" (PyFloat.div_nat 3 5)))
    = true ∧
  PyFloat.ltb PyFloat.lit_0_95
    (confidence (join_key "customers" "id" "orders" "customer_id" (PyFloat.div_nat 3 5)))
    = false.
Proof.
  apply (discover_relationships_confidence_range Example.dataframes Example.scanned).
  rewrite example_relationships. left.
Defined.

(** X5.  What discovery finds does not depend on the order in which the
    directory lists the files, only its direction does: listed in another
    order, the same datasets give the same relationship or the one read
    from the other end (source and target swapped, same kind, same
    confidence). *)
Theorem discover_relationships_listing_order dfs dfs' self self' rel :
  NoDup (keys dfs) → dfs ≡ₚ dfs' →
  rel ∈ eval (discover_relationships dfs) self →
  rel ∈ eval (discover_relationships dfs') self' ∨
  flip rel ∈ eval (discover_relationships dfs') self'.
Proof.
  intros Hnd Hperm (file1 & file2 & col1 & col2 & Hpair & Hc1 & Hc2 & Hrel)
    %elem_of_discover_relationships_iff.
  assert (∀ f, frame_of dfs' f = frame_of dfs f) as Hframe.
  { intros f. unfold frame_of. by rewrite (dict_get_Permutation dfs dfs'). }
  assert (keys dfs ≡ₚ keys dfs') as Hkeys. { unfold keys. by rewrite Hperm. }
  pose proof (ordered_pairs_distinct _ _ _ Hnd Hpair) as Hne.
  apply elem_of_ordered_pairs_inv in Hpair as [H1 H2].
  rewrite Hkeys in H1, H2.
  destruct (ordered_pairs_total _ _ _ H1 H2 Hne) as [Hord|Hord].
  - left. apply elem_of_discover_relationships_iff.
    exists file1, file2, col1, col2. by rewrite !Hframe.
  - right. apply elem_of_discover_relationships_iff.
    exists file2, file1, col2, col1. rewrite !Hframe.
    split; [done|]. split; [done|]. split; [done|].
    rewrite <- pair_relationships_flip. apply list_elem_of_fmap. eauto.
Qed.

(** X5 on the example, listed backwards *)
Lemma discover_relationships_listing_order_witness :
  exact_name_match "customers" "name" "orders" "name"
    ∈ eval (discover_relationships (reverse Example.dataframes)) Example.scanned ∨
  flip (exact_name_match "customers" "name" "orders" "name")
    ∈ eval (discover_relationships (reverse Example.dataframes)) Example.scanned.
Proof.
  apply (discover_relationships_listing_order Example.dataframes
           (reverse Example.dataframes) Example.scanned Example.scanned).
  - compute_done.
  - symmetry. apply reverse_Permutation.
  - rewrite example_relationships. right. left.
Defined.

(** X6.  Discovery adds to the graph and removes nothing: afterwards there
    is an edge from [u] to [v] exactly when there was one before or some
    relationship just found goes from [u] to [v]; a node stays a node; the
    metadata is untouched.  (So an edge of an earlier discovery outlives
    the relationship it came from.) *)
Theorem discover_relationships_edges dfs self :
  let after := exec (discover_relationships dfs) self in
  (∀ u v, has_edge (graph after) u v ↔
          has_edge (graph self) u v ∨
          ∃ rel, rel ∈ relationships after ∧
                 source_file rel = u ∧ target_file rel = v) ∧
  (∀ x, Nx.has_node (graph self) x = true → Nx.has_node (graph after) x = true) ∧
  metadata after = metadata self.
Proof.
  intros after. unfold after.
  destruct (discover_relationships_exec dfs self) as [HG Hmd].
  rewrite discover_relationships_stored. split; [|split; [|done]].
  - intros u v. rewrite HG. apply has_edge_foldl.
  - intros x Hx. rewrite HG. by apply has_node_foldl_mono.
Qed.

(** X7.  On a graph without edges, discovery leaves as many edges as there
    are distinct (source dataset, target dataset) pairs among the
    relationships found, hence never more edges than relationships. *)
Theorem discover_relationships_number_of_edges dfs self :
  Nx.edges (graph self) = [] →
  Nx.number_of_edges (graph (exec (discover_relationships dfs) self)) =
    size (list_to_set
            (file_pair <$> relationships (exec (discover_relationships dfs) self))
          : gset (string * string)) ∧
  Nx.number_of_edges (graph (exec (discover_relationships dfs) self)) ≤
    length (relationships (exec (discover_relationships dfs) self)).
Proof.
  intros Hempty.
  destruct (discover_relationships_exec dfs self) as [-> _].
  rewrite discover_relationships_stored.
  destruct (number_of_edges_foldl (eval (discover_relationships dfs) self)
              (graph self) ∅) as [_ Hsize].
  - intros x y. split; [|set_solver].
    intros [d Hd]%nbr_has_edge. rewrite Hempty in Hd. inversion Hd.
  - unfold Nx.number_of_edges. by rewrite Hempty.
  - rewrite (left_id_L ∅ (∪)) in Hsize. rewrite Hsize. split; [done|].
    etrans; [apply size_list_to_set_le|]. by rewrite length_fmap.
Qed.

(** X7 on the example, after the scan *)
Lemma discover_relationships_number_of_edges_witness :
  Nx.number_of_edges
    (graph (exec (discover_relationships Example.dataframes) Example.scanned)) =
    size (list_to_set
            (file_pair <$> relationships
               (exec (discover_relationships Example.dataframes) Example.scanned))
          : gset (string * string)) ∧
  Nx.number_of_edges
    (graph (exec (discover_relationships Example.dataframes) Example.scanned)) ≤
    length (relationships
              (exec (discover_relationships Example.dataframes) Example.scanned)).
Proof.
  apply (discover_relationships_number_of_edges Example.dataframes Example.scanned).
  reflexivity.
Defined.

(** X8.  Discovery is idempotent: run a second time on the same
    [dataframes], it leaves the whole knowledge graph (the graph with its
    node order and edge attributes, the metadata, the relationships) as
    the first run left it. *)
Theorem discover_relationships_idempotent dfs self :
  exec (discover_relationships dfs) (exec (discover_relationships dfs) self) =
  exec (discover_relationships dfs) self.
Proof.
  apply LivingKnowledgeGraph_eq.
  - destruct (discover_relationships_exec dfs (exec (discover_relationships dfs) self))
      as [-> _].
    destruct (discover_relationships_exec dfs self) as [-> _].
    rewrite !discover_relationships_eval. apply foldl_add_idemp.
  - destruct (discover_relationships_exec dfs (exec (discover_relationships dfs) self))
      as [_ ->]. done.
  - rewrite !discover_relationships_stored, !discover_relationships_eval. done.
Qed.

(** ** The join path *)

(** X9.  For two nodes of the graph that a chain of edges connects,
    whichever way the edges point, [get_join_path] returns a path: it
    starts at the first node, ends at the second, every two consecutive
    datasets of it are joined by an edge, and no such chain between the
    two has fewer datasets.  The knowledge graph is left as it was. *)
Theorem get_join_path_shortest self a b :
  Nx.has_node (graph self) a = true → Nx.has_node (graph self) b = true →
  connected (graph self) a b →
  (∃ path, eval (get_join_path a b) self = Ok (Some path) ∧
           walk (adjacent (graph self)) a b path ∧
           ∀ l, walk (adjacent (graph self)) a b l → length path ≤ length l) ∧
  exec (get_join_path a b) self = self.
Proof.
  intros Ha Hb Hconn. split; [|done].
  by destruct (get_join_path_cases self a b Ha Hb) as [?|[_ ?]].
Qed.

(** X9 on the example: from [customers] to [orders] *)
Lemma get_join_path_shortest_witness :
  (∃ path, eval (get_join_path "customers" "orders") Example.discovered
             = Ok (Some path) ∧
           walk (adjacent (graph Example.discovered)) "customers" "orders" path ∧
           ∀ l, walk (adjacent (graph Example.discovered)) "customers" "orders" l →
                length path ≤ length l) ∧
  exec (get_join_path "customers" "orders") Example.discovered = Example.discovered.
Proof.
  apply (get_join_path_shortest Example.discovered "customers" "orders").
  - reflexivity.
  - reflexivity.
  - apply rtc_once.
    exists {| Nx.ea_source_column := "name"; Nx.ea_target_column := "name";
              Nx.ea_type := "exact_name_match"; Nx.ea_confidence := PyFloat.lit_0_9 |}.
    left. rewrite example_edges. left.
Defined.

(** X10.  [get_join_columns_for_path] returns at most one tuple per step of
    the path, in the order of the steps; each tuple gives the files and
    columns of a stored relationship that connects the two files of a
    step, in the direction the relationship was stored in; when every step
    has a relationship, every step gets its tuple.  Nothing is written. *)
Theorem get_join_columns_for_path_steps path self :
  let joins := eval (get_join_columns_for_path path) self in
  length joins ≤ length path - 1 ∧
  (∀ t, t ∈ joins →
     ∃ rel file1 file2,
       rel ∈ relationships self ∧ (file1, file2) ∈ steps path ∧
       links file1 file2 rel = true ∧ t = endpoints rel) ∧
  ((∀ file1 file2, (file1, file2) ∈ steps path →
                   related (relationships self) file1 file2) →
   Forall2 (λ '(file1, file2) t,
              ∃ rel, rel ∈ relationships self ∧ links file1 file2 rel = true ∧
                     t = endpoints rel)
           (steps path) joins) ∧
  exec (get_join_columns_for_path path) self = self.
Proof.
  cbv zeta. split; [|split; [|split]].
  - rewrite get_join_columns_for_path_eval.
    assert (length (steps path) = length path - 1) as <-.
    { unfold steps. rewrite length_zip_with. destruct path as [|a rest]; [done|].
      simpl. rewrite Nat.sub_0_r. destruct (length rest); [done|].
      f_equal. apply Nat.min_r. lia. }
    induction (steps path) as [|[f1 f2] l IH]; simpl; [done|].
    rewrite length_app. destruct (List.find _ _); simpl; lia.
  - rewrite get_join_columns_for_path_eval.
    intros t ([f1 f2] & Hstep & Ht)%list_elem_of_In%in_flat_map.
    pose proof (find_links f1 f2 (relationships self)) as Hfind.
    destruct (List.find _ _) as [rel|]; [|done].
    destruct Hfind as [Hin Hlinks]. destruct Ht as [<-|[]].
    exists rel, f1, f2. by rewrite <- list_elem_of_In in Hstep.
  - apply join_columns_cover_steps.
  - done.
Qed.

(** ** The knowledge graph built at start-up *)

(** X11.  On the knowledge graph that [ADOS.__init__] builds (a scan, then
    the discovery on what the scan returned), the nodes are exactly the
    scanned files, and two datasets are joined by an edge, one way or the
    other, exactly when a relationship connects them. *)
Theorem build_knowledge_graph_graph files :
  let kg := exec (build_knowledge_graph files) init in
  (∀ x, Nx.has_node (graph kg) x = true ↔ x ∈ keys files) ∧
  (∀ u v, has_edge (graph kg) u v ↔
          ∃ rel, rel ∈ relationships kg ∧ source_file rel = u ∧ target_file rel = v) ∧
  (∀ u v, adjacent (graph kg) u v ↔ related (relationships kg) u v).
Proof.
  intros kg. split; [|split].
  - apply build_has_node.
  - apply build_has_edge.
  - apply build_adjacent.
Qed.

(** X12.  On that knowledge graph, for two scanned files: either
    [get_join_path] returns a path along which every two consecutive
    datasets have a relationship, no chain of relationships between the two
    files is shorter, and [get_join_columns_for_path] gives one join for
    every step of the path, none left out; or no chain of relationships
    connects the two files and [get_join_path] returns [None].  Nothing is
    raised. *)
Theorem build_knowledge_graph_join_path files a b :
  a ∈ keys files → b ∈ keys files →
  let kg := exec (build_knowledge_graph files) init in
  (∃ path,
     eval (get_join_path a b) kg = Ok (Some path) ∧
     walk (related (relationships kg)) a b path ∧
     (∀ l, walk (related (relationships kg)) a b l → length path ≤ length l) ∧
     Forall2 (λ '(file1, file2) t,
                ∃ rel, rel ∈ relationships kg ∧ links file1 file2 rel = true ∧
                       t = endpoints rel)
             (steps path) (eval (get_join_columns_for_path path) kg)) ∨
  (eval (get_join_path a b) kg = Ok None ∧ ¬ rtc (related (relationships kg)) a b).
Proof.
  intros Ha Hb kg.
  assert (∀ u v, adjacent (graph kg) u v ↔ related (relationships kg) u v) as Hadj.
  { intros u v. apply build_adjacent. }
  destruct (get_join_path_cases kg a b)
    as [(path & Hpath & Hwalk & Hshort)|[Hnone Hnot]].
  - by apply build_has_node.
  - by apply build_has_node.
  - left. exists path. split; [done|].
    assert (walk (related (relationships kg)) a b path) as Hwalk'.
    { revert Hwalk. apply walk_subrel. intros x y. apply Hadj. }
    split; [done|]. split.
    + intros l Hl. apply Hshort. revert Hl. apply walk_subrel.
      intros x y. apply Hadj.
    + apply join_columns_cover_steps. by apply walk_steps with a b.
  - right. split; [done|]. intros Hrtc. apply Hnot.
    unfold connected. eapply rtc_subrel; [|done]. intros x y. apply Hadj.
Qed.

(** X12 on the example: from [customers] to [orders] *)
Lemma build_knowledge_graph_join_path_witness :
  (∃ path,
     eval (get_join_path "customers" "orders")
          (exec (build_knowledge_graph Example.parquet_files) init)
       = Ok (Some path) ∧
     walk (related (relationships
                      (exec (build_knowledge_graph Example.parquet_files) init)))
          "customers" "orders" path ∧
     (∀ l, walk (related (relationships
                            (exec (build_knowledge_graph Example.parquet_files) init)))
                "customers" "orders" l → length path ≤ length l) ∧
     Forall2 (λ '(file1, file2) t,
                ∃ rel,
                  rel ∈ relationships
                          (exec (build_knowledge_graph Example.parquet_files) init) ∧
                  links file1 file2 rel = true ∧ t = endpoints rel)
             (steps path)
             (eval (get_join_columns_for_path path)
                   (exec (build_knowledge_graph Example.parquet_files) init))) ∨
  (eval (get_join_path "customers" "orders")
        (exec (build_knowledge_graph Example.parquet_files) init) = Ok None ∧
   ¬ rtc (related (relationships
                     (exec (build_knowledge_graph Example.parquet_files) init)))
         "customers" "orders").
Proof.
  apply (build_knowledge_graph_join_path Example.parquet_files "customers" "orders").
  - compute_done.
  - compute_done.
Defined.

(** X13.  On that knowledge graph the first two validation rules report
    nothing exactly when every required file was scanned and, for every
    required file that was scanned, every required column is a column of
    its frame. *)
Theorem build_knowledge_graph_then_validate files required_files required_columns :
  let kg := exec (build_knowledge_graph files) init in
  let dataframes := eval (build_knowledge_graph files) init in
  (eval (_validate_file_existence required_files) kg = [] ↔
   ∀ file, file ∈ required_files → file ∈ keys files) ∧
  (eval (_validate_column_existence required_columns) kg = [] ↔
   ∀ file cols df col,
     (file, cols) ∈ required_columns → dict_get file dataframes = Some df →
     col ∈ cols → col ∈ df_columns df).
Proof.
  intros kg dataframes.
  assert (∀ file, metadata kg !! file =
            frame_metadata file <$> dict_get file dataframes) as Hmd.
  { intros file. unfold kg, dataframes.
    rewrite build_metadata, build_knowledge_graph_eval, metadata_scan.
    by destruct (dict_get file _). }
  split.
  - rewrite eval_validate_file_existence, flat_map_nil_iff.
    assert (∀ file, file ∈ dom (metadata kg) ↔ file ∈ keys files) as Hdom.
    { intros file. rewrite elem_of_dom, Hmd, fmap_is_Some, dict_get_is_Some.
      unfold dataframes. by rewrite build_knowledge_graph_eval, keys_scan. }
    split.
    + intros Hnone file Hfile. specialize (Hnone _ Hfile).
      case_decide as Hd; [|done]. by apply Hdom.
    + intros Hall file Hfile. rewrite decide_True; [done|]. apply Hdom. eauto.
  - rewrite eval_validate_column_existence, flat_map_nil_iff. split.
    + intros Hnone file cols df col Hentry Hdf Hcol.
      specialize (Hnone _ Hentry). simpl in Hnone. rewrite Hmd, Hdf in Hnone.
      simpl in Hnone. rewrite flat_map_nil_iff in Hnone.
      specialize (Hnone _ Hcol). rewrite dom_frame_metadata in Hnone.
      case_decide as Hc; [|done]. by apply elem_of_list_to_set in Hc.
    + intros Hall [file cols] Hentry. rewrite Hmd.
      destruct (dict_get file dataframes) as [df|] eqn:Hdf; [|done]. simpl.
      apply flat_map_nil_iff. intros col Hcol. rewrite dom_frame_metadata.
      rewrite decide_True; [done|]. apply elem_of_list_to_set. eauto.
Qed.

(** ** The validation *)

(** X14.  A plan passes exactly when: every required file is in the
    metadata; every required column of a required file that is in the
    metadata is one of its columns; the query has the whole words [SELECT]
    and [FROM]; every join [alias.col = alias.col] of the query whose two
    aliases resolve to non-empty file names and whose two columns have
    non-empty declared types joins compatible types; and none of the words
    [DROP], [DELETE], [UPDATE], [TRUNCATE], [INSERT] occurs in the query as
    a whole word.  Unpaired quotes and the judge have no say.  (The query,
    the names of the required files and the declared types are ASCII:
    there [PyStr.search_word], [PyStr.findall_join] and [PyStr.lower] are
    the searches of [re] and [str.lower].) *)
Theorem validate_execution_plan_passes llm q files cols self :
  PyStr.isascii q = true →
  Forall (λ file, PyStr.isascii file = true) files →
  ascii_dtypes self →
  (eval (validate_execution_plan llm q files cols) self).1 = true ↔
  (∀ file, file ∈ files → file ∈ dom (metadata self)) ∧
  (∀ file columns known col,
     (file, columns) ∈ cols → metadata self !! file = Some known →
     col ∈ columns → col ∈ dom known) ∧
  PyStr.search_word "SELECT" q = true ∧
  PyStr.search_word "FROM" q = true ∧
  (∀ alias1 col1 alias2 col2 file1 file2 type1 type2,
     (alias1, col1, alias2, col2) ∈ PyStr.findall_join q →
     _resolve_alias_to_file alias1 files = Some file1 →
     _resolve_alias_to_file alias2 files = Some file2 →
     eval (_get_column_type file1 col1) self = Some type1 →
     eval (_get_column_type file2 col2) self = Some type2 →
     file1 ≠ EmptyString → file2 ≠ EmptyString →
     type1 ≠ EmptyString → type2 ≠ EmptyString →
     _are_types_compatible type1 type2 = true) ∧
  (∀ kw, kw ∈ ["DROP"; "DELETE"; "UPDATE"; "TRUNCATE"; "INSERT"] →
         PyStr.search_word kw q = false).
Proof.
  intros _ _ _. rewrite passed_iff_rules_silent.
  rewrite eval_validate_file_existence, eval_validate_column_existence,
    eval_validate_join_type_compatibility, sql_safety_nil, !flat_map_nil_iff.
  change (dangerous_keywords.*1) with ["DROP"; "DELETE"; "UPDATE"; "TRUNCATE"; "INSERT"].
  assert ((∀ file, file ∈ files →
             (if decide (file ∈ dom (metadata self)) then []
              else [ {| severity := CRITICAL; rule := "file_existence";
                        message := "Fichier '" +:+ file +:+ "' introuvable";
                        suggestion := Some ("Fichiers disponibles: " +:+
                          PyStr.join ", " (elements (dom (metadata self)))) |} ]) = [])
          ↔ (∀ file, file ∈ files → file ∈ dom (metadata self))) as ->.
  { split; intros H file Hin; specialize (H file Hin); by case_decide. }
  assert ((∀ x : string * list string, x ∈ cols →
             (let '(file, columns) := x in
              match metadata self !! file with
              | Some known =>
                  flat_map (λ col, if decide (col ∈ dom known) then []
                                   else [missing_column_issue file col (dom known)])
                           columns
              | None => []
              end) = [])
          ↔ (∀ file columns known col,
               (file, columns) ∈ cols → metadata self !! file = Some known →
               col ∈ columns → col ∈ dom known)) as ->.
  { split.
    - intros H file columns known col Hin Hknown Hcol. specialize (H _ Hin).
      simpl in H. rewrite Hknown, flat_map_nil_iff in H. specialize (H _ Hcol).
      by case_decide.
    - intros H [file columns] Hin. destruct (metadata self !! file) as [known|] eqn:Hk;
        [|done]. apply flat_map_nil_iff. intros col Hcol.
      rewrite decide_True; [done|]. eauto. }
  assert ((∀ m, m ∈ PyStr.findall_join q → eval (check_join files m) self = [])
          ↔ (∀ alias1 col1 alias2 col2 file1 file2 type1 type2,
               (alias1, col1, alias2, col2) ∈ PyStr.findall_join q →
               _resolve_alias_to_file alias1 files = Some file1 →
               _resolve_alias_to_file alias2 files = Some file2 →
               eval (_get_column_type file1 col1) self = Some type1 →
               eval (_get_column_type file2 col2) self = Some type2 →
               file1 ≠ EmptyString → file2 ≠ EmptyString →
               type1 ≠ EmptyString → type2 ≠ EmptyString →
               _are_types_compatible type1 type2 = true)) as ->.
  { split.
    - intros H a1 c1 a2 c2 f1 f2 t1 t2 Hin Hf1 Hf2 Ht1 Ht2 Hn1 Hn2 Hn3 Hn4.
      specialize (H _ Hin). rewrite check_join_cases, Hf1, Hf2, Ht1, Ht2 in H.
      apply truthy_true in Hn1, Hn2, Hn3, Hn4. rewrite Hn1, Hn2, Hn3, Hn4 in H.
      simpl in H. by destruct (_are_types_compatible t1 t2).
    - intros H [[[a1 c1] a2] c2] Hin. rewrite check_join_cases.
      destruct (_resolve_alias_to_file a1 files) as [f1|] eqn:Hf1; [|done].
      destruct (_resolve_alias_to_file a2 files) as [f2|] eqn:Hf2; [|done].
      destruct (eval (_get_column_type f1 c1) self) as [t1|] eqn:Ht1; [|done].
      destruct (eval (_get_column_type f2 c2) self) as [t2|] eqn:Ht2; [|done].
      destruct (PyStr.truthy f1) eqn:Hn1; [|done].
      destruct (PyStr.truthy f2) eqn:Hn2; [|done].
      destruct (PyStr.truthy t1) eqn:Hn3; [|done].
      destruct (PyStr.truthy t2) eqn:Hn4; [|done].
      apply truthy_true in Hn1, Hn2, Hn3, Hn4.
      by rewrite (H a1 c1 a2 c2 f1 f2 t1 t2). }
  tauto.
Qed.

(** X14 on a join of the example's customers and orders, after the
    discovery *)
Lemma validate_execution_plan_passes_witness :
  (eval (validate_execution_plan None
           "SELECT c.id FROM customers c JOIN orders o ON c.id = o.customer_id"
           ["customers"; "orders"] [("customers", ["id"])])
        Example.discovered).1 = true ↔
  (∀ file, file ∈ ["customers"; "orders"] →
           file ∈ dom (metadata Example.discovered)) ∧
  (∀ file columns known col,
     (file, columns) ∈ [("customers", ["id"])] →
     metadata Example.discovered !! file = Some known →
     col ∈ columns → col ∈ dom known) ∧
  PyStr.search_word "SELECT"
    "SELECT c.id FROM customers c JOIN orders o ON c.id = o.customer_id" = true ∧
  PyStr.search_word "FROM"
    "SELECT c.id FROM customers c JOIN orders o ON c.id = o.customer_id" = true ∧
  (∀ alias1 col1 alias2 col2 file1 file2 type1 type2,
     (alias1, col1, alias2, col2) ∈ PyStr.findall_join
       "SELECT c.id FROM customers c JOIN orders o ON c.id = o.customer_id" →
     _resolve_alias_to_file alias1 ["customers"; "orders"] = Some file1 →
     _resolve_alias_to_file alias2 ["customers"; "orders"] = Some file2 →
     eval (_get_column_type file1 col1) Example.discovered = Some type1 →
     eval (_get_column_type file2 col2) Example.discovered = Some type2 →
     file1 ≠ EmptyString → file2 ≠ EmptyString →
     type1 ≠ EmptyString → type2 ≠ EmptyString →
     _are_types_compatible type1 type2 = true) ∧
  (∀ kw, kw ∈ ["DROP"; "DELETE"; "UPDATE"; "TRUNCATE"; "INSERT"] →
         PyStr.search_word kw
           "SELECT c.id FROM customers c JOIN orders o ON c.id = o.customer_id"
         = false).
Proof.
  apply (validate_execution_plan_passes None
           "SELECT c.id FROM customers c JOIN orders o ON c.id = o.customer_id"
           ["customers"; "orders"] [("customers", ["id"])] Example.discovered).
  - reflexivity.
  - repeat constructor.
  - unfold ascii_dtypes. compute_done.
Defined.

(** X15.  A query in which one of [DROP], [DELETE], [UPDATE], [TRUNCATE],
    [INSERT] stands as a whole word, in any letter case (no word character
    right before it, none right after), fails the validation and gets a
    critical [sql_safety] issue, whatever the other rules find and whether
    or not there is a judge.  (The query is ASCII: there the word
    characters of the embedding are those of [\b].) *)
Theorem dangerous_keyword_blocks llm q files cols self kw pre w post :
  PyStr.isascii q = true →
  kw ∈ ["DROP"; "DELETE"; "UPDATE"; "TRUNCATE"; "INSERT"] →
  PyStr.upper w = kw → q = pre +:+ w +:+ post →
  PyStr.at_word_end (String.rev pre) = true → PyStr.at_word_end post = true →
  (eval (validate_execution_plan llm q files cols) self).1 = false ∧
  ∃ issue, issue ∈ (eval (validate_execution_plan llm q files cols) self).2 ∧
           severity issue = CRITICAL ∧ rule issue = "sql_safety".
Proof.
  intros _ Hkw Hw -> Hpre Hpost.
  pose proof (search_word_intro kw pre w post Hw Hpre Hpost) as Hfound.
  split.
  - apply not_true_iff_false. intros Hpassed%passed_iff_rules_silent.
    destruct Hpassed as (_ & _ & _ & _ & Hsafe).
    rewrite sql_safety_nil in Hsafe. rewrite Hsafe in Hfound; [done|].
    exact Hkw.
  - destruct (_validate_sql_safety (pre +:+ w +:+ post)) as [|issue l] eqn:Hsafe.
    { rewrite sql_safety_nil in Hsafe. rewrite Hsafe in Hfound; [done|]. exact Hkw. }
    exists issue. rewrite eval_validate_execution_plan. simpl.
    unfold issues_in_rule_order. rewrite Hsafe.
    pose proof (sql_safety_critical (pre +:+ w +:+ post)) as Hall.
    rewrite Hsafe in Hall. inversion Hall as [|? ? [Hs Hr] _]; subst.
    split; [|done]. rewrite !elem_of_app. right. right. right. right. left. left.
Qed.

(** X15 on the query [SELECT 1; drop table x] *)
Lemma dangerous_keyword_blocks_witness :
  (eval (validate_execution_plan None "SELECT 1; drop table x" [] []) init).1 = false ∧
  ∃ issue,
    issue ∈ (eval (validate_execution_plan None "SELECT 1; drop table x" [] []) init).2 ∧
    severity issue = CRITICAL ∧ rule issue = "sql_safety".
Proof.
  apply (dangerous_keyword_blocks None "SELECT 1; drop table x" [] [] init
           "DROP" "SELECT 1; " "drop" " table x").
  - reflexivity.
  - left.
  - reflexivity.
  - reflexivity.
  - reflexivity.
  - reflexivity.
Defined.

(** X16.  The judge never changes the verdict: with a judge the plan
    passes exactly when it passes without one, and the issues are those
    found without a judge followed by at most one remark, a warning of the
    rule [semantic_coherence]; there is no remark when the call of the
    judge fails, and after an ASCII answer there is none exactly when the
    answer, stripped of surrounding blanks, is [OK] in any letter case.
    (On an ASCII answer [PyStr.strip] and [PyStr.upper] are [str.strip]
    and [str.upper].) *)
Theorem judge_never_blocks judge q files cols self :
  let judged := eval (validate_execution_plan (Some judge) q files cols) self in
  let plain := eval (validate_execution_plan None q files cols) self in
  judged.1 = plain.1 ∧
  ∃ remarks,
    judged.2 = plain.2 ++ remarks ∧
    length remarks ≤ 1 ∧
    Forall (λ issue, severity issue = WARNING ∧ rule issue = "semantic_coherence")
           remarks ∧
    match judge q (PyStr.join ", " files) with
    | None => remarks = []
    | Some content =>
        PyStr.isascii content = true →
        (remarks = [] ↔ PyStr.upper (PyStr.strip content) = "OK")
    end.
Proof.
  intros judged plain. split.
  - apply eq_true_iff_eq. unfold judged, plain.
    by rewrite !passed_iff_rules_silent.
  - exists (_validate_semantic_coherence (Some judge) q files).
    unfold judged, plain. rewrite !eval_validate_execution_plan. simpl.
    unfold issues_in_rule_order. rewrite app_nil_r, <- !app_assoc.
    split; [done|].
    destruct (semantic_coherence_warning (Some judge) q files) as [Hall Hlen].
    split; [done|]. split; [done|].
    unfold _validate_semantic_coherence. destruct (judge _ _) as [content|]; [|done].
    intros _. case_decide; split; try done.
Qed.

(** X17.  [_are_types_compatible] is an equivalence on declared types
    (reflexive, symmetric, transitive) that ignores the letter case. *)
Theorem are_types_compatible_equivalence :
  (∀ t, _are_types_compatible t t = true) ∧
  (∀ t1 t2, _are_types_compatible t1 t2 = _are_types_compatible t2 t1) ∧
  (∀ t1 t2 t3, _are_types_compatible t1 t2 = true → _are_types_compatible t2 t3 = true →
               _are_types_compatible t1 t3 = true) ∧
  (∀ t1 t2, _are_types_compatible (PyStr.upper t1) t2 = _are_types_compatible t1 t2).
Proof.
  split; [|split; [|split]].
  - intros t. apply are_types_compatible_spec. by left.
  - intros t1 t2. apply eq_true_iff_eq. rewrite !are_types_compatible_spec.
    naive_solver.
  - intros t1 t2 t3. rewrite !are_types_compatible_spec.
    assert (∀ t, t ∈ numeric_types → t ∈ string_types → False) as Hapart.
    { intros t Hn Hs. by destruct (type_buckets_apart t t Hn Hs). }
    intros [H12|[[? ?]|[? ?]]] [H23|[[? ?]|[? ?]]];
      try rewrite H12 in *; try rewrite <- H23 in *; eauto;
      exfalso; eauto.
  - intros t1 t2. apply eq_true_iff_eq. rewrite !are_types_compatible_spec.
    by rewrite lower_upper.
Qed.

(** X18.  When both aliases of a join occur in the name of the first
    required file, letter case ignored, both resolve to that file, and a
    join on two columns of the same name is compared with itself: no issue
    is reported, whatever the other files declare.  (The aliases and the
    file name are ASCII, where [PyStr.lower] is [str.lower].) *)
Theorem check_join_first_match alias1 alias2 col file files self :
  PyStr.isascii alias1 = true → PyStr.isascii alias2 = true →
  PyStr.isascii file = true →
  file ≠ EmptyString →
  PyStr.contains (PyStr.lower alias1) (PyStr.lower file) = true →
  PyStr.contains (PyStr.lower alias2) (PyStr.lower file) = true →
  _resolve_alias_to_file alias1 (file :: files) = Some file ∧
  _resolve_alias_to_file alias2 (file :: files) = Some file ∧
  eval (check_join (file :: files) (alias1, col, alias2, col)) self = [].
Proof.
  intros _ _ _ Hne H1 H2.
  assert (_resolve_alias_to_file alias1 (file :: files) = Some file) as Hr1.
  { unfold _resolve_alias_to_file. simpl. by rewrite H1. }
  assert (_resolve_alias_to_file alias2 (file :: files) = Some file) as Hr2.
  { unfold _resolve_alias_to_file. simpl. by rewrite H2. }
  split; [done|]. split; [done|].
  rewrite check_join_cases, Hr1, Hr2.
  destruct (eval (_get_column_type file col) self) as [type|]; [|done].
  destruct (are_types_compatible_spec type type) as [_ Hcompat].
  rewrite Hcompat by by left. simpl. by rewrite !andb_false_r.
Qed.

(** X18 on the query of the module's own test: the aliases [c] and [s]
    with the files [customer_domain] and [sales_domain] *)
Lemma check_join_first_match_witness :
  _resolve_alias_to_file "c" ["customer_domain"; "sales_domain"]
    = Some "customer_domain" ∧
  _resolve_alias_to_file "s" ["customer_domain"; "sales_domain"]
    = Some "customer_domain" ∧
  eval (check_join ["customer_domain"; "sales_domain"]
          ("c", "ID_Client", "s", "ID_Client")) init = [].
Proof.
  apply (check_join_first_match "c" "s" "ID_Client" "customer_domain"
           ["sales_domain"] init).
  - reflexivity.
  - reflexivity.
  - reflexivity.
  - discriminate.
  - reflexivity.
  - reflexivity.
Defined.

(** ** The audit report *)

(** X19.  The report of [generate_audit_report] on the issues of a
    validation agrees with its verdict.  The report begins with the
    header line and an empty line (the header ends in a newline of its
    own), and the plan passes exactly when the third line, the counter of
    the critical errors, reads [🚨 Erreurs critiques: 0]. *)
Theorem audit_report_agrees_with_verdict llm q files cols self :
  let result := eval (validate_execution_plan llm q files cols) self in
  result.1 = true ↔
  String.prefix ("=== TRUST LAYER - AUDIT REPORT ===" +:+ newline +:+ newline +:+
                 "🚨 Erreurs critiques: 0" +:+ newline)
                (generate_audit_report result.2) = true.
Proof.
  intros result. unfold result. rewrite report_counts_no_critical.
  rewrite eval_validate_execution_plan. simpl. rewrite existsb_is_critical.
  by rewrite <- length_filter_critical.
Qed.



(** ** The planner *)

(** X21.  What [_planning_node] asks the knowledge graph built at start-up,
    for the files named by the discovery: with fewer than two files it asks
    nothing and has no join information; with a first or a last file that
    was not scanned, [NodeNotFound] is raised and leaves the node; with
    both scanned, the join information has one join for every step of the
    join path between them, or is empty when no chain of relationships
    connects them.  The knowledge graph is not changed. *)
Theorem planning_join_path_info files first mid final :
  let kg := exec (build_knowledge_graph files) init in
  let required_files := first :: mid ++ [final] in
  (first ∉ keys files ∨ final ∉ keys files →
   eval (join_path_info required_files) kg = Raise NodeNotFound) ∧
  (first ∈ keys files → final ∈ keys files →
   (∃ path joins,
      eval (get_join_path first final) kg = Ok (Some path) ∧
      eval (join_path_info required_files) kg = Ok joins ∧
      Forall2 (λ '(file1, file2) t,
                 ∃ rel, rel ∈ relationships kg ∧ links file1 file2 rel = true ∧
                        t = endpoints rel)
              (steps path) joins) ∨
   (¬ rtc (related (relationships kg)) first final ∧
    eval (join_path_info required_files) kg = Ok [])) ∧
  (∀ file, eval (join_path_info [file]) kg = Ok []) ∧
  eval (join_path_info []) kg = Ok [] ∧
  exec (join_path_info required_files) kg = kg.
Proof.
  intros kg required_files. unfold required_files.
  assert (∀ u v, adjacent (graph kg) u v ↔ related (relationships kg) u v) as Hadj.
  { intros u v. apply build_adjacent. }
  rewrite (eval_join_path_info first mid final kg).
  split; [|split; [|split; [done|split; [done|]]]].
  - intros Hmissing. unfold get_join_path, eval. simpl.
    rewrite shortest_path_missing_node; [done|].
    destruct Hmissing as [H|H]; [left|right];
      apply not_true_iff_false; by intros Hn%build_has_node.
  - intros Ha Hb.
    destruct (get_join_path_cases kg first final)
      as [(path & Hpath & Hwalk & Hshort)|[Hnone Hnot]].
    + by apply build_has_node.
    + by apply build_has_node.
    + left. exists path, (eval (get_join_columns_for_path path) kg).
      split; [done|]. rewrite Hpath.
      destruct (walk_head _ _ _ _ Hwalk) as [l' ->]. split; [done|].
      apply join_columns_cover_steps. apply walk_steps with first final.
      revert Hwalk. apply walk_subrel. intros x y. apply Hadj.
    + right. rewrite Hnone. split; [|done]. intros Hrtc. apply Hnot.
      unfold connected. eapply rtc_subrel; [|done]. intros x y. apply Hadj.
  - apply reads_join_path_info.
Qed.
